(** * Moonwell event indexer: balance reconciliation

    A shallow embedding of the event handlers of the indexer
    ([setupEventHandlers], [storeEvent], [logError]) together with the three
    tables of [ponder.schema.ts], and the properties of the per-(user, token)
    balance state that the handlers maintain.

    Layout
    - [Js]       the JavaScript primitives the handlers rely on
                 ([BigInt(string)], [bigint.toString()], truthiness);
    - data       tokens, decoded protocol events, [IndexedEvent], table rows;
    - [World]    the database, the console, the error-log file and the
                 failure oracles of the storage and of the file system;
    - [M]        state-and-exception monad in which the [async] handlers run;
    - handlers   one definition per [ponder.on] callback;
    - vocabulary of the statements and sample data;
    - theorems: rules for reasoning about [M], the callbacks over a reliable
      storage, then the properties, C1 to C10. *)

From Stdlib Require Import ZArith String Ascii List Lia.
From Stdlib Require Import DecimalString DecimalZ DecimalPos.
From stdpp Require Import gmap strings.

Local Open Scope Z_scope.
Local Open Scope string_scope.

(* ===================================================================== *)
(** ** JavaScript primitives *)
(* ===================================================================== *)

Module Js.

(** [x.toString()] for a [bigint]: canonical decimal, ["-"] for negatives. *)
Definition toString (z : Z) : string :=
  NilZero.string_of_int (Z.to_int z).

(** [BigInt(s)] for a string: [None] stands for the [SyntaxError] that is
    thrown.  An optionally ["-"]-signed run of decimal digits is accepted,
    which covers every string the handlers write.  (JavaScript accepts a
    few more spellings: surrounding white space, the empty string, a
    leading ["+"] and radix prefixes.) *)
Definition BigInt (s : string) : option Z :=
  option_map Z.of_int (NilZero.int_of_string s).

(** [if (x)] on an optional string: [undefined] and [""] are falsy. *)
Definition truthy (x : option string) : bool :=
  match x with
  | Some s => negb (String.eqb s "")
  | None => false
  end.

End Js.

(* ===================================================================== *)
(** ** Configuration: the tracked markets ([src/config/tokens.ts]) *)
(* ===================================================================== *)

Record TokenConfig := {
  address : string;
  decimals : nat;
  symbol : string
}.

Definition TOKENS : list TokenConfig :=
  [ {| address := "0x73b06D8d18De422E269645eaCe15400DE7462417"; decimals := 18; symbol := "DAI" |};
    {| address := "0xEdc817A28E8B93B03976FBd4a3dDBc9f7D176c22"; decimals := 6;  symbol := "USDC" |};
    {| address := "0x703843C3379b52F9FF486c9f5892218d2a065cC8"; decimals := 6;  symbol := "USDbC" |};
    {| address := "0x628ff693426583D9a7FB391E54366292F509D457"; decimals := 18; symbol := "WETH" |};
    {| address := "0x3bf93770f2d4a794c3d9EBEfBAeBAE2a8f09A5E5"; decimals := 18; symbol := "cbETH" |};
    {| address := "0x627Fe393Bc6EdDA28e99AE648fD6fF362514304b"; decimals := 18; symbol := "wstETH" |};
    {| address := "0xcb1dacd30638ae38f2b94ea64f066045b7d45f44"; decimals := 18; symbol := "rETH" |};
    {| address := "0xb8051464C8c92209C92F3a4CD9C73746C4c3CFb3"; decimals := 18; symbol := "weETH" |};
    {| address := "0x73902f619CEB9B31FD8EFecf435CbDf89E369Ba6"; decimals := 18; symbol := "AERO" |};
    {| address := "0xF877ACaFA28c19b96727966690b2f44d35aD5976"; decimals := 8;  symbol := "cbBTC" |};
    {| address := "0xb682c840B5F4FC58B20769E691A6fa1305A501a2"; decimals := 6;  symbol := "EURC" |};
    {| address := "0xfC41B49d064Ac646015b459C522820DB9472F4B5"; decimals := 18; symbol := "wrsETH" |};
    {| address := "0xdC7810B47eAAb250De623F0eE07764afa5F71ED1"; decimals := 18; symbol := "WELL" |};
    {| address := "0xb6419c6C2e60c4025D6D06eE4F913ce89425a357"; decimals := 6;  symbol := "USDS" |};
    {| address := "0x9A858ebfF1bEb0D3495BB0e2897c1528eD84A218"; decimals := 8;  symbol := "tBTC" |};
    {| address := "0x10fF57877b79e9bd949B3815220eC87B9fc5D2ee"; decimals := 8;  symbol := "LBTC" |};
    {| address := "0xdE8Df9d942D78edE3Ca06e60712582F79CFfFC64"; decimals := 18; symbol := "VIRTUAL" |} ].

(* ===================================================================== *)
(** ** Decoded protocol events ([src/types/types.ts]) *)
(* ===================================================================== *)

(** The argument records share field names in the source ([borrower],
    [repayAmount], ...); one module per event keeps them. *)

Module BorrowEvent.
Record t := { borrower : string; borrowAmount : Z; accountBorrows : Z; totalBorrows : Z }.
End BorrowEvent.

Module RepayBorrowEvent.
Record t := { payer : string; borrower : string; repayAmount : Z;
              accountBorrows : Z; totalBorrows : Z }.
End RepayBorrowEvent.

Module MintEvent.
Record t := { minter : string; mintAmount : Z; mintTokens : Z }.
End MintEvent.

Module RedeemEvent.
Record t := { redeemer : string; redeemAmount : Z; redeemTokens : Z }.
End RedeemEvent.

Module LiquidateBorrowEvent.
Record t := { liquidator : string; borrower : string; repayAmount : Z;
              mTokenCollateral : string; seizeTokens : Z }.
End LiquidateBorrowEvent.

Module TransferEvent.
Record t := { from : string; to : string; amount : Z }.
End TransferEvent.

(** What the event source hands to a callback: the decoded arguments and the
    chain location ([event.block.number], [event.block.timestamp],
    [event.transaction.hash], [event.log.logIndex]). *)
Record Event (A : Type) := {
  args : A;
  block_number : Z;
  block_timestamp : Z;
  transaction_hash : string;
  log_logIndex : Z
}.
Arguments args {A} _.
Arguments block_number {A} _.
Arguments block_timestamp {A} _.
Arguments transaction_hash {A} _.
Arguments log_logIndex {A} _.

Inductive EventType :=
| Mint | Redeem | Borrow | RepayBorrow | LiquidateBorrow | Transfer | NewCollateralFactor.

(** The string an [EventType] is in the source. *)
Definition EventType_string (t : EventType) : string :=
  match t with
  | Mint => "Mint"
  | Redeem => "Redeem"
  | Borrow => "Borrow"
  | RepayBorrow => "RepayBorrow"
  | LiquidateBorrow => "LiquidateBorrow"
  | Transfer => "Transfer"
  | NewCollateralFactor => "NewCollateralFactor"
  end.

Module IndexedEvent.
Record t := {
  type : EventType;
  user : string;
  token : string;
  tokenAddress : string;
  amount : Z;
  tokenAmount : option Z;
  relatedAddress : option string;
  blockNumber : Z;
  blockTimestamp : Z;
  transactionHash : string;
  logIndex : Z
}.
End IndexedEvent.

(** [TokenData = [string, string]]: [amountSupplied, amountBorrowed]. *)
Definition TokenData : Type := string * string.

(* ===================================================================== *)
(** ** Tables ([ponder.schema.ts]) *)
(* ===================================================================== *)

(** A row of [user_transactions]; primary key [id]. *)
Module TxRow.
Record t := {
  id : string;
  userAddress : string;
  mTokenAddress : string;
  tokenSymbol : string;
  transactionType : string;
  amount : Z;
  tokenAmount : option Z;
  relatedAddress : option string;
  blockNumber : Z;
  blockTimestamp : Z;
  transactionHash : string
}.
End TxRow.

(** A row of [user_addresses]; primary key [(userAddress, tokenSymbol)]. *)
Module AddrRow.
Record t := {
  userAddress : string;
  tokenSymbol : string;
  tokenAddress : string
}.
End AddrRow.

(** A row of [user_metrics] (primary key [userAddress], the key of the outer
    map below) has one [jsonb] column per token symbol, whose default is the
    empty array.  A column is a JSON array of strings; a symbol that is not in
    the map is a column still at its default [[]]. *)
Abbreviation MetricsRow := (gmap string (list string)).

(** What a caught value can be. *)
Inductive JsError :=
| UniqueConstraintError   (* insert of an existing primary key, no conflict clause *)
| StorageError            (* any other failure of a storage call *)
| SyntaxError (s : string)  (* [BigInt] of a string that is not a number *)
| FsError.                (* [fs.promises.appendFile] failed *)

(** One message appended to [./logs/errors.log].  The source formats
    [[timestamp] context \n Error: message \n Stack: stack]; the entry keeps
    the two parts that come from the program, the context and the error. *)
Record LogEntry := { log_context : string; log_error : JsError }.

(** One [console.error] call: the label and, when given, the error object
    passed as second argument.  ([console.log] output is not modelled.) *)
Record ConsoleLine := { line_label : string; line_error : option JsError }.

(** Everything a handler can read or change.  [storageFaults] and [fsFaults]
    are the environment's oracles: each storage call (each [appendFile])
    consumes the head of its list and fails when it is [true]; an exhausted
    list means no further failure.  [raised] is ghost state: the exceptions
    thrown so far, oldest first; nothing in the program reads it. *)
Record World := {
  userMetrics : gmap string MetricsRow;
  userTransactions : list TxRow.t;
  userAddresses : list AddrRow.t;
  console : list ConsoleLine;
  errorsLog : list LogEntry;
  storageFaults : list bool;
  fsFaults : list bool;
  raised : list JsError
}.

Definition set_userMetrics (f : gmap string MetricsRow -> gmap string MetricsRow) (w : World) : World :=
  {| userMetrics := f (userMetrics w); userTransactions := userTransactions w;
     userAddresses := userAddresses w; console := console w;
     errorsLog := errorsLog w; storageFaults := storageFaults w;
     fsFaults := fsFaults w; raised := raised w |}.

Definition set_userTransactions (f : list TxRow.t -> list TxRow.t) (w : World) : World :=
  {| userMetrics := userMetrics w; userTransactions := f (userTransactions w);
     userAddresses := userAddresses w; console := console w;
     errorsLog := errorsLog w; storageFaults := storageFaults w;
     fsFaults := fsFaults w; raised := raised w |}.

Definition set_userAddresses (f : list AddrRow.t -> list AddrRow.t) (w : World) : World :=
  {| userMetrics := userMetrics w; userTransactions := userTransactions w;
     userAddresses := f (userAddresses w); console := console w;
     errorsLog := errorsLog w; storageFaults := storageFaults w;
     fsFaults := fsFaults w; raised := raised w |}.

Definition set_console (f : list ConsoleLine -> list ConsoleLine) (w : World) : World :=
  {| userMetrics := userMetrics w; userTransactions := userTransactions w;
     userAddresses := userAddresses w; console := f (console w);
     errorsLog := errorsLog w; storageFaults := storageFaults w;
     fsFaults := fsFaults w; raised := raised w |}.

Definition set_errorsLog (f : list LogEntry -> list LogEntry) (w : World) : World :=
  {| userMetrics := userMetrics w; userTransactions := userTransactions w;
     userAddresses := userAddresses w; console := console w;
     errorsLog := f (errorsLog w); storageFaults := storageFaults w;
     fsFaults := fsFaults w; raised := raised w |}.

Definition set_storageFaults (fs : list bool) (w : World) : World :=
  {| userMetrics := userMetrics w; userTransactions := userTransactions w;
     userAddresses := userAddresses w; console := console w;
     errorsLog := errorsLog w; storageFaults := fs;
     fsFaults := fsFaults w; raised := raised w |}.

Definition set_fsFaults (fs : list bool) (w : World) : World :=
  {| userMetrics := userMetrics w; userTransactions := userTransactions w;
     userAddresses := userAddresses w; console := console w;
     errorsLog := errorsLog w; storageFaults := storageFaults w;
     fsFaults := fs; raised := raised w |}.

Definition note_raised (e : JsError) (w : World) : World :=
  {| userMetrics := userMetrics w; userTransactions := userTransactions w;
     userAddresses := userAddresses w; console := console w;
     errorsLog := errorsLog w; storageFaults := storageFaults w;
     fsFaults := fsFaults w; raised := (raised w ++ [e])%list |}.

(* ===================================================================== *)
(** ** The monad of the handlers *)
(* ===================================================================== *)

(** An [async] function runs on the world and either returns or throws;
    what it changed before throwing stays changed. *)
Definition M (A : Type) : Type := World -> (JsError + A) * World.

Definition ret {A} (a : A) : M A := fun w => (inr a, w).

Definition bind {A B} (c : M A) (k : A -> M B) : M B :=
  fun w => match c w with
           | (inr a, w') => k a w'
           | (inl e, w') => (inl e, w')
           end.

Definition throw {A} (e : JsError) : M A := fun w => (inl e, note_raised e w).

(** [try { body } catch (error) { handler }] *)
Definition try_catch {A} (body : M A) (handler : JsError -> M A) : M A :=
  fun w => match body w with
           | (inr a, w') => (inr a, w')
           | (inl e, w') => handler e w'
           end.

#[export] Instance M_ret : MRet M := @ret.
#[export] Instance M_bind : MBind M := fun A B k c => bind c k.

Notation "'try' body 'catch' e '=>' handler" :=
  (try_catch body (fun e => handler))
  (at level 10, body at level 200, e name, handler at level 200, only parsing).

(** The final world and the outcome of a run. *)
Definition exec {A} (c : M A) (w : World) : World := snd (c w).
Definition outcome {A} (c : M A) (w : World) : JsError + A := fst (c w).

(* ===================================================================== *)
(** ** Collaborators: storage, console, file system *)
(* ===================================================================== *)

(** Every storage call first asks the oracle whether it fails. *)
Definition storageCall {A} (op : M A) : M A :=
  fun w => match storageFaults w with
           | true :: rest => throw StorageError (set_storageFaults rest w)
           | false :: rest => op (set_storageFaults rest w)
           | [] => op w
           end.

(** [db.find(userMetrics, { userAddress })].  The row comes back as a value
    of its own: two reads of one key give two independent arrays. *)
Definition db_find_userMetrics (userAddress : string) : M (option MetricsRow) :=
  storageCall (fun w => (inr (userMetrics w !! userAddress), w)).

(** [db.insert(userMetrics).values({ userAddress, [symbol]: data })
      .onConflictDoUpdate({ [symbol]: data })]: a new row has every other
    column at its default; an existing row has this one column replaced. *)
Definition upsertMetrics (userAddress symbol : string) (data : TokenData)
    (table : gmap string MetricsRow) : gmap string MetricsRow :=
  match table !! userAddress with
  | Some row => <[userAddress := <[symbol := [fst data; snd data]]> row]> table
  | None => <[userAddress := {[symbol := [fst data; snd data]]}]> table
  end.

Definition db_upsert_userMetrics (userAddress symbol : string) (data : TokenData) : M unit :=
  storageCall (fun w => (inr tt, set_userMetrics (upsertMetrics userAddress symbol data) w)).

Definition has_tx (id : string) (rows : list TxRow.t) : bool :=
  existsb (fun r => String.eqb (TxRow.id r) id) rows.

(** [db.insert(userTransactions).values(row)], no conflict clause: a row
    whose primary key is taken is rejected. *)
Definition db_insert_userTransactions (row : TxRow.t) : M unit :=
  storageCall (fun w =>
    if has_tx (TxRow.id row) (userTransactions w)
    then throw UniqueConstraintError w
    else (inr tt, set_userTransactions (fun rows => (rows ++ [row])%list) w)).

Definition has_addr (userAddress tokenSymbol : string) (rows : list AddrRow.t) : bool :=
  existsb (fun r => String.eqb (AddrRow.userAddress r) userAddress
                    && String.eqb (AddrRow.tokenSymbol r) tokenSymbol) rows.

(** [db.insert(userAddresses).values(row).onConflictDoNothing()] *)
Definition db_insert_userAddresses (row : AddrRow.t) : M unit :=
  storageCall (fun w =>
    if has_addr (AddrRow.userAddress row) (AddrRow.tokenSymbol row) (userAddresses w)
    then (inr tt, w)
    else (inr tt, set_userAddresses (fun rows => (rows ++ [row])%list) w)).

(** [console.error(label, error)] and [console.error(label)] *)
Definition console_error (label : string) (error : option JsError) : M unit :=
  fun w => (inr tt, set_console (fun ls => (ls ++ [{| line_label := label; line_error := error |}])%list) w).

(** [fs.promises.appendFile('./logs/errors.log', message)] *)
Definition fs_appendFile (entry : LogEntry) : M unit :=
  fun w => match fsFaults w with
           | true :: rest => throw FsError (set_fsFaults rest w)
           | false :: rest => (inr tt, set_errorsLog (fun l => (l ++ [entry])%list) (set_fsFaults rest w))
           | [] => (inr tt, set_errorsLog (fun l => (l ++ [entry])%list) w)
           end.

(* ===================================================================== *)
(** ** [logError] and [storeEvent] *)
(* ===================================================================== *)

Definition logError (error : JsError) (context : string) : M unit :=
  try
    fs_appendFile {| log_context := context; log_error := error |}
  catch writeError =>
    console_error "Failed to write to error log:" (Some writeError).

(** The row [storeEvent] inserts in [userTransactions]:
    [id = `${event.transactionHash}-${event.logIndex}`] and a copy of the
    event's fields. *)
Definition transactionRow (event : IndexedEvent.t) : TxRow.t :=
  let id := IndexedEvent.transactionHash event +:+ "-" +:+ Js.toString (IndexedEvent.logIndex event) in
  {| TxRow.id := id;
     TxRow.userAddress := IndexedEvent.user event;
     TxRow.mTokenAddress := IndexedEvent.tokenAddress event;
     TxRow.tokenSymbol := IndexedEvent.token event;
     TxRow.transactionType := EventType_string (IndexedEvent.type event);
     TxRow.amount := IndexedEvent.amount event;
     TxRow.tokenAmount := IndexedEvent.tokenAmount event;
     TxRow.relatedAddress := IndexedEvent.relatedAddress event;
     TxRow.blockNumber := IndexedEvent.blockNumber event;
     TxRow.blockTimestamp := IndexedEvent.blockTimestamp event;
     TxRow.transactionHash := IndexedEvent.transactionHash event |}.

Definition storeEvent (event : IndexedEvent.t) : M unit :=
  try
    ((* Store transaction details *)
     db_insert_userTransactions (transactionRow event);;
     (* Update user address information *)
     db_insert_userAddresses
       {| AddrRow.userAddress := IndexedEvent.user event;
          AddrRow.tokenSymbol := IndexedEvent.token event;
          AddrRow.tokenAddress := IndexedEvent.tokenAddress event |};;
     (* Handle related addresses (e.g., payer in RepayBorrow events) *)
     match IndexedEvent.relatedAddress event with
     | Some related =>
         if Js.truthy (IndexedEvent.relatedAddress event)
         then db_insert_userAddresses
                {| AddrRow.userAddress := related;
                   AddrRow.tokenSymbol := IndexedEvent.token event;
                   AddrRow.tokenAddress := IndexedEvent.tokenAddress event |}
         else mret tt
     | None => mret tt
     end)
  catch error =>
    (let errorContext :=
       "Failed to store event - Type: " +:+ EventType_string (IndexedEvent.type event)
       +:+ ", User: " +:+ IndexedEvent.user event +:+ ", Token: " +:+ IndexedEvent.token event in
     console_error ("[DB ERROR] " +:+ errorContext +:+ ":") (Some error);;
     logError error errorContext).

(* ===================================================================== *)
(** ** [setupEventHandlers]: one callback per market and event kind *)
(* ===================================================================== *)

(** [BigInt(s)] inside a handler: the [SyntaxError] is thrown. *)
Definition js_BigInt (s : string) : M Z :=
  match Js.BigInt s with
  | Some z => mret z
  | None => throw (SyntaxError s)
  end.

(** The test every handler applies to what it read:
    [result !== null && result !== undefined], then
    [tokenArray !== null && tokenArray !== undefined && tokenArray.length === 2]. *)
Definition tokenArrayOf (result : option MetricsRow) (symbol : string) : option TokenData :=
  match result with
  | Some row =>
      match row !! symbol with
      | Some [supplied; borrowed] => Some (supplied, borrowed)
      | _ => None
      end
  | None => None
  end.

Definition zeroAddress : string := "0x0000000000000000000000000000000000000000".

(** [token.symbol === TOKENS[0]?.symbol ? "MToken" : `MToken_${token.symbol}`] *)
Definition contractName (token : TokenConfig) : string :=
  match head TOKENS with
  | Some first =>
      if String.eqb (symbol token) (symbol first) then "MToken"
      else "MToken_" +:+ symbol token
  | None => "MToken_" +:+ symbol token
  end.

Section Handlers.

Variable token : TokenConfig.

(** The [indexedEvent] object of the Borrow callback. *)
Definition indexedBorrow (event : Event BorrowEvent.t) : IndexedEvent.t :=
  let borrower := BorrowEvent.borrower (args event) in
  let borrowAmount := BorrowEvent.borrowAmount (args event) in
  {| IndexedEvent.type := Borrow;
     IndexedEvent.user := borrower;
     IndexedEvent.token := symbol token;
     IndexedEvent.tokenAddress := address token;
     IndexedEvent.amount := borrowAmount;
     IndexedEvent.tokenAmount := None;
     IndexedEvent.relatedAddress := None;
     IndexedEvent.blockNumber := block_number event;
     IndexedEvent.blockTimestamp := block_timestamp event;
     IndexedEvent.transactionHash := transaction_hash event;
     IndexedEvent.logIndex := log_logIndex event |}.

(** [ponder.on(`${contractName}:Borrow`, ...)] *)
Definition onBorrow (event : Event BorrowEvent.t) : M unit :=
  let borrower := BorrowEvent.borrower (args event) in
  let errorContext :=
    "Borrow event error for token " +:+ symbol token +:+ " - User: " +:+ borrower in
  try
    (let borrowAmount := BorrowEvent.borrowAmount (args event) in
     let accountBorrows := BorrowEvent.accountBorrows (args event) in
     let indexedEvent := indexedBorrow event in
     result ← db_find_userMetrics borrower;
     let tokenData : TokenData :=
       match tokenArrayOf result (symbol token) with
       | Some tokenArray => (fst tokenArray, Js.toString accountBorrows)
       | None => ("0", Js.toString accountBorrows)
       end in
     storeEvent indexedEvent;;
     db_upsert_userMetrics borrower (symbol token) tokenData)
  catch error =>
    (console_error ("[EVENT ERROR] " +:+ errorContext +:+ ":") (Some error);;
     logError error errorContext).

(** The [indexedEvent] object of the RepayBorrow callback. *)
Definition indexedRepayBorrow (event : Event RepayBorrowEvent.t) : IndexedEvent.t :=
  let borrower := RepayBorrowEvent.borrower (args event) in
  let payer := RepayBorrowEvent.payer (args event) in
  let repayAmount := RepayBorrowEvent.repayAmount (args event) in
  {| IndexedEvent.type := RepayBorrow;
     IndexedEvent.user := borrower;
     IndexedEvent.token := symbol token;
     IndexedEvent.tokenAddress := address token;
     IndexedEvent.amount := repayAmount;
     IndexedEvent.tokenAmount := None;
     IndexedEvent.relatedAddress := if String.eqb payer borrower then None else Some payer;
     IndexedEvent.blockNumber := block_number event;
     IndexedEvent.blockTimestamp := block_timestamp event;
     IndexedEvent.transactionHash := transaction_hash event;
     IndexedEvent.logIndex := log_logIndex event |}.

(** [ponder.on(`${contractName}:RepayBorrow`, ...)] *)
Definition onRepayBorrow (event : Event RepayBorrowEvent.t) : M unit :=
  let borrower := RepayBorrowEvent.borrower (args event) in
  let payer := RepayBorrowEvent.payer (args event) in
  let errorContext :=
    "RepayBorrow event error for token " +:+ symbol token
    +:+ " - Borrower: " +:+ borrower +:+ ", Payer: " +:+ payer in
  try
    (let repayAmount := RepayBorrowEvent.repayAmount (args event) in
     let accountBorrows := RepayBorrowEvent.accountBorrows (args event) in
     let indexedEvent := indexedRepayBorrow event in
     result ← db_find_userMetrics borrower;
     let tokenData : TokenData :=
       match tokenArrayOf result (symbol token) with
       | Some tokenArray => (fst tokenArray, Js.toString accountBorrows)
       | None => ("0", Js.toString accountBorrows)
       end in
     storeEvent indexedEvent;;
     db_upsert_userMetrics borrower (symbol token) tokenData)
  catch error =>
    (console_error ("[EVENT ERROR] " +:+ errorContext +:+ ":") (Some error);;
     logError error errorContext).

(** The [indexedEvent] object of the Mint callback. *)
Definition indexedMint (event : Event MintEvent.t) : IndexedEvent.t :=
  let minter := MintEvent.minter (args event) in
  {| IndexedEvent.type := Mint;
     IndexedEvent.user := minter;
     IndexedEvent.token := symbol token;
     IndexedEvent.tokenAddress := address token;
     IndexedEvent.amount := MintEvent.mintAmount (args event);
     IndexedEvent.tokenAmount := Some (MintEvent.mintTokens (args event));
     IndexedEvent.relatedAddress := None;
     IndexedEvent.blockNumber := block_number event;
     IndexedEvent.blockTimestamp := block_timestamp event;
     IndexedEvent.transactionHash := transaction_hash event;
     IndexedEvent.logIndex := log_logIndex event |}.

(** [ponder.on(`${contractName}:Mint`, ...)]: only store the event; balance
    updates are left to the Transfer event. *)
Definition onMint (event : Event MintEvent.t) : M unit :=
  let minter := MintEvent.minter (args event) in
  let errorContext :=
    "Mint event error for token " +:+ symbol token +:+ " - User: " +:+ minter in
  try
    (let indexedEvent := indexedMint event in
     storeEvent indexedEvent)
  catch error =>
    (console_error ("[EVENT ERROR] " +:+ errorContext +:+ ":") (Some error);;
     logError error errorContext).

(** The [indexedEvent] object of the Redeem callback. *)
Definition indexedRedeem (event : Event RedeemEvent.t) : IndexedEvent.t :=
  let redeemer := RedeemEvent.redeemer (args event) in
  {| IndexedEvent.type := Redeem;
     IndexedEvent.user := redeemer;
     IndexedEvent.token := symbol token;
     IndexedEvent.tokenAddress := address token;
     IndexedEvent.amount := RedeemEvent.redeemAmount (args event);
     IndexedEvent.tokenAmount := Some (RedeemEvent.redeemTokens (args event));
     IndexedEvent.relatedAddress := None;
     IndexedEvent.blockNumber := block_number event;
     IndexedEvent.blockTimestamp := block_timestamp event;
     IndexedEvent.transactionHash := transaction_hash event;
     IndexedEvent.logIndex := log_logIndex event |}.

(** [ponder.on(`${contractName}:Redeem`, ...)]: only store the event. *)
Definition onRedeem (event : Event RedeemEvent.t) : M unit :=
  let redeemer := RedeemEvent.redeemer (args event) in
  let errorContext :=
    "Redeem event error for token " +:+ symbol token +:+ " - User: " +:+ redeemer in
  try
    (let indexedEvent := indexedRedeem event in
     storeEvent indexedEvent)
  catch error =>
    (console_error ("[EVENT ERROR] " +:+ errorContext +:+ ":") (Some error);;
     logError error errorContext).

(** The [indexedEvent] object of the LiquidateBorrow callback. *)
Definition indexedLiquidateBorrow (event : Event LiquidateBorrowEvent.t) : IndexedEvent.t :=
  let liquidator := LiquidateBorrowEvent.liquidator (args event) in
  let borrower := LiquidateBorrowEvent.borrower (args event) in
  let repayAmount := LiquidateBorrowEvent.repayAmount (args event) in
  let seizeTokens := LiquidateBorrowEvent.seizeTokens (args event) in
  {| IndexedEvent.type := LiquidateBorrow;
     IndexedEvent.user := liquidator;
     IndexedEvent.relatedAddress := Some borrower;
     IndexedEvent.token := symbol token;
     IndexedEvent.tokenAddress := address token;
     IndexedEvent.amount := repayAmount;
     IndexedEvent.tokenAmount := Some seizeTokens;
     IndexedEvent.blockNumber := block_number event;
     IndexedEvent.blockTimestamp := block_timestamp event;
     IndexedEvent.transactionHash := transaction_hash event;
     IndexedEvent.logIndex := log_logIndex event |}.

(** [ponder.on(`${contractName}:LiquidateBorrow`, ...)] *)
Definition onLiquidateBorrow (event : Event LiquidateBorrowEvent.t) : M unit :=
  let liquidator := LiquidateBorrowEvent.liquidator (args event) in
  let borrower := LiquidateBorrowEvent.borrower (args event) in
  let errorContext :=
    "LiquidateBorrow event error for token " +:+ symbol token
    +:+ " - Liquidator: " +:+ liquidator +:+ ", Borrower: " +:+ borrower in
  try
    (let repayAmount := LiquidateBorrowEvent.repayAmount (args event) in
     let seizeTokens := LiquidateBorrowEvent.seizeTokens (args event) in
     let indexedEvent := indexedLiquidateBorrow event in
     storeEvent indexedEvent;;
     (* Existing borrower's metrics *)
     borrowerResult ← db_find_userMetrics borrower;
     borrowerTokenData ←
       match tokenArrayOf borrowerResult (symbol token) with
       | Some tokenArray =>
           (* subtract the repaid amount from the borrowed amount *)
           currentBorrow ← js_BigInt (snd tokenArray);
           let newBorrow := currentBorrow - repayAmount in
           mret (fst tokenArray, Js.toString newBorrow)
       | None => mret ("0", "0")
       end;
     db_upsert_userMetrics borrower (symbol token) borrowerTokenData)
  catch error =>
    (console_error ("[EVENT ERROR] " +:+ errorContext +:+ ":") (Some error);;
     logError error errorContext).

(** The [indexedEvent] object of the Transfer callback. *)
Definition indexedTransfer (event : Event TransferEvent.t) : IndexedEvent.t :=
  let from := TransferEvent.from (args event) in
  let to := TransferEvent.to (args event) in
  let amount := TransferEvent.amount (args event) in
  {| IndexedEvent.type := Transfer;
     IndexedEvent.user := from;
     IndexedEvent.relatedAddress := if String.eqb to from then None else Some to;
     IndexedEvent.token := symbol token;
     IndexedEvent.tokenAddress := address token;
     IndexedEvent.amount := amount;
     IndexedEvent.tokenAmount := None;
     IndexedEvent.blockNumber := block_number event;
     IndexedEvent.blockTimestamp := block_timestamp event;
     IndexedEvent.transactionHash := transaction_hash event;
     IndexedEvent.logIndex := log_logIndex event |}.

(** [ponder.on(`${contractName}:Transfer`, ...)] *)
Definition onTransfer (event : Event TransferEvent.t) : M unit :=
  try
    (let from := TransferEvent.from (args event) in
     let to := TransferEvent.to (args event) in
     let amount := TransferEvent.amount (args event) in
     let indexedEvent := indexedTransfer event in
     storeEvent indexedEvent;;
     if String.eqb from zeroAddress then
       (* Mint: increase to's supplied *)
       toResult ← db_find_userMetrics to;
       let toTokenData : TokenData :=
         match tokenArrayOf toResult (symbol token) with
         | Some tokenArray => tokenArray
         | None => ("0", "0")
         end in
       toSupplied ← js_BigInt (fst toTokenData);
       let toTokenData : TokenData := (Js.toString (toSupplied + amount), snd toTokenData) in
       db_upsert_userMetrics to (symbol token) toTokenData
     else if String.eqb to zeroAddress then
       (* Burn: decrease from's supplied *)
       fromResult ← db_find_userMetrics from;
       let fromTokenData : TokenData :=
         match tokenArrayOf fromResult (symbol token) with
         | Some tokenArray => tokenArray
         | None => ("0", "0")
         end in
       currentSupplied ← js_BigInt (fst fromTokenData);
       fromTokenData ←
         (if currentSupplied >=? amount
          then mret (Js.toString (currentSupplied - amount), snd fromTokenData)
          else
            console_error
              ("[BALANCE ERROR] Insufficient balance for burn: " +:+ from +:+ " has "
               +:+ Js.toString currentSupplied +:+ ", trying to burn " +:+ Js.toString amount)
              None;;
            mret ("0", snd fromTokenData));
       db_upsert_userMetrics from (symbol token) fromTokenData
     else
       (* Regular transfer: decrease from, increase to *)
       fromResult ← db_find_userMetrics from;
       toResult ← db_find_userMetrics to;
       let fromTokenData : TokenData :=
         match tokenArrayOf fromResult (symbol token) with
         | Some tokenArray => tokenArray
         | None => ("0", "0")
         end in
       let toTokenData : TokenData :=
         match tokenArrayOf toResult (symbol token) with
         | Some tokenArray => tokenArray
         | None => ("0", "0")
         end in
       currentFromSupplied ← js_BigInt (fst fromTokenData);
       fromTokenData ←
         (if currentFromSupplied >=? amount
          then mret (Js.toString (currentFromSupplied - amount), snd fromTokenData)
          else
            console_error
              ("[BALANCE ERROR] Insufficient balance for transfer: " +:+ from +:+ " has "
               +:+ Js.toString currentFromSupplied +:+ ", trying to transfer "
               +:+ Js.toString amount)
              None;;
            mret ("0", snd fromTokenData));
       toSupplied ← js_BigInt (fst toTokenData);
       let toTokenData : TokenData := (Js.toString (toSupplied + amount), snd toTokenData) in
       db_upsert_userMetrics from (symbol token) fromTokenData;;
       db_upsert_userMetrics to (symbol token) toTokenData)
  catch error =>
    (console_error
       ("[EVENT ERROR] Error processing Transfer event from " +:+ contractName token +:+ ":")
       (Some error);;
     logError error ("Error processing Transfer event from " +:+ contractName token)).

End Handlers.

(** A protocol event as it reaches the indexer: the market it was emitted by
    and the decoded record, by kind. *)
Inductive ProtocolEvent :=
| EvBorrow (e : Event BorrowEvent.t)
| EvRepayBorrow (e : Event RepayBorrowEvent.t)
| EvMint (e : Event MintEvent.t)
| EvRedeem (e : Event RedeemEvent.t)
| EvLiquidateBorrow (e : Event LiquidateBorrowEvent.t)
| EvTransfer (e : Event TransferEvent.t).

(** The callback registered for the event's kind on the token's contract. *)
Definition handle (token : TokenConfig) (ev : ProtocolEvent) : M unit :=
  match ev with
  | EvBorrow e => onBorrow token e
  | EvRepayBorrow e => onRepayBorrow token e
  | EvMint e => onMint token e
  | EvRedeem e => onRedeem token e
  | EvLiquidateBorrow e => onLiquidateBorrow token e
  | EvTransfer e => onTransfer token e
  end.

(** The event source calls the callbacks one event after the other and stops
    at the first callback that throws. *)
Fixpoint processStream (events : list (TokenConfig * ProtocolEvent)) : M unit :=
  match events with
  | [] => mret tt
  | (token, ev) :: rest => handle token ev;; processStream rest
  end.

(* ===================================================================== *)
(** ** The contracts of the configuration ([ponder.config.ts]) *)
(* ===================================================================== *)

Inductive Abi := ComptrollerAbi | MTokenAbi.

Record ContractConfig := {
  cfg_abi : Abi;
  cfg_network : string;
  cfg_address : string;
  cfg_startBlock : Z
}.

Definition COMPTROLLER_ADDRESS : string := "0xfBb21d0380beE3312B33c4353c8936a0F13EF26C".
Definition START_BLOCK : Z := 2300000.

(** The entry written for a market contract at an address. *)
Definition mTokenContract (address : string) : ContractConfig :=
  {| cfg_abi := MTokenAbi; cfg_network := "base"; cfg_address := address;
     cfg_startBlock := START_BLOCK |}.

(** [token.symbol === TOKENS[0]?.symbol ? "MToken" : `MToken_${token.symbol}`],
    over any list of markets. *)
Definition contractNameIn (tokens : list TokenConfig) (token : TokenConfig) : string :=
  match head tokens with
  | Some first =>
      if String.eqb (symbol token) (symbol first) then "MToken"
      else "MToken_" +:+ symbol token
  | None => "MToken_" +:+ symbol token
  end.

(** One step of [TOKENS.forEach]: a market with a symbol and an address
    gets an entry under its contract name, over whatever was there. *)
Definition addTokenContract (tokens : list TokenConfig)
    (tokenContracts : gmap string ContractConfig) (token : TokenConfig)
    : gmap string ContractConfig :=
  if Js.truthy (Some (symbol token)) && Js.truthy (Some (address token))
  then <[contractNameIn tokens token := mTokenContract (address token)]> tokenContracts
  else tokenContracts.

(** [tokenContracts] as the module leaves it, over any list of markets. *)
Definition tokenContractsOf (tokens : list TokenConfig) : gmap string ContractConfig :=
  let tokenContracts :=
    if (0 <? length tokens)%nat
    then fold_left (addTokenContract tokens) tokens ∅
    else ∅ in
  (* If no tokens were processed, add a fallback *)
  if (size tokenContracts =? 0)%nat
  then <["MToken" := mTokenContract "0x6Ff9c8FF8F9F7C3551f1A753A6A8BD54B6445DD7"]> tokenContracts
  else tokenContracts.

(** The [contracts] of [createConfig]: the Comptroller, then the spread of
    the market contracts, whose keys win. *)
Definition contractsOf (tokens : list TokenConfig) : gmap string ContractConfig :=
  tokenContractsOf tokens
  ∪ {[ "Comptroller" := {| cfg_abi := ComptrollerAbi; cfg_network := "base";
                            cfg_address := COMPTROLLER_ADDRESS;
                            cfg_startBlock := START_BLOCK |} ]}.

Definition contracts : gmap string ContractConfig := contractsOf TOKENS.

(* ===================================================================== *)
(** ** Reading balances off the store *)
(* ===================================================================== *)

(** The pair a handler works from when it reads [(user, symbol)]: the stored
    array when it has two elements, [["0", "0"]] otherwise. *)
Definition readCell (table : gmap string MetricsRow) (user symbol : string) : TokenData :=
  match tokenArrayOf (table !! user) symbol with
  | Some tokenArray => tokenArray
  | None => ("0", "0")
  end.

Definition readTokenData (w : World) (user symbol : string) : TokenData :=
  readCell (userMetrics w) user symbol.

(** [amountSupplied] and [amountBorrowed] as numbers; [None] when the stored
    string is not a number. *)
Definition amountSupplied (w : World) (user symbol : string) : option Z :=
  Js.BigInt (fst (readTokenData w user symbol)).

Definition amountBorrowed (w : World) (user symbol : string) : option Z :=
  Js.BigInt (snd (readTokenData w user symbol)).

(* ===================================================================== *)
(** ** Vocabulary of the statements *)
(* ===================================================================== *)

(** The storage never fails from here on. *)
Definition storageReliable (w : World) : Prop := storageFaults w = [].

(** The key of the transaction-log row of an event at a chain location:
    [`${event.transactionHash}-${event.logIndex}`]. *)
Definition txId (transactionHash : string) (logIndex : Z) : string :=
  transactionHash +:+ "-" +:+ Js.toString logIndex.


(** Partial-correctness triples over [M]: from a world satisfying [P], the
    outcome and the final world of [c] satisfy [Q].  ([c] is a total function,
    so there always is an outcome.) *)
Definition hoare {A} (P : World -> Prop) (c : M A) (Q : JsError + A -> World -> Prop) : Prop :=
  forall w, P w -> Q (outcome c w) (exec c w).

(** [stable I c]: [c] keeps [I], whether it returns or throws. *)
Definition stable {A} (I : World -> Prop) (c : M A) : Prop :=
  hoare I c (fun _ w => I w).

(** What an invariant must tolerate for every primitive that does not touch
    a table to keep it: bookkeeping of the oracles, of the console and of
    the exception trace. *)
Record closed (I : World -> Prop) : Prop := {
  closed_raised : forall e w, I w -> I (note_raised e w);
  closed_storageFaults :
    forall w b rest, storageFaults w = b :: rest -> I w -> I (set_storageFaults rest w);
  closed_fsFaults : forall w fs, I w -> I (set_fsFaults fs w);
  closed_console : forall f w, I w -> I (set_console f w)
}.

(** The errors that were passed to [console.error], oldest first. *)
Definition printedErrors (w : World) : list JsError :=
  omap line_error (console w).

(** The exception an outcome is still carrying. *)
Definition pending {A} (r : JsError + A) : list JsError :=
  match r with
  | inl e => [e]
  | inr _ => []
  end.

(** Bookkeeping of exceptions between two points of a run.  Since the first
    point, the errors printed are [d], the exceptions raised are [d] followed
    by the one still travelling ([pend]), and, if the file system was
    reliable at the first point ([fsok]), it still is and the errors appended
    to the error log are [d] too. *)
Definition trackedAt (fsok : Prop) (p0 r0 l0 pend : list JsError) (w : World) : Prop :=
  exists d,
    printedErrors w = (p0 ++ d)%list
    /\ raised w = (r0 ++ d ++ pend)%list
    /\ (fsok -> fsFaults w = [] /\ map log_error (errorsLog w) = (l0 ++ d)%list).

(** [c] raises nothing behind the back of the console: whatever it raised
    and did not hand to its caller was printed. *)
Definition tracked {A} (c : M A) : Prop :=
  forall fsok p0 r0 l0,
    hoare (trackedAt fsok p0 r0 l0 []) c (fun r w => trackedAt fsok p0 r0 l0 (pending r) w).

(** [h] is a fit [catch] clause for [e]: it accounts for [e]. *)
Definition catches {A} (e : JsError) (h : M A) : Prop :=
  forall fsok p0 r0 l0,
    hoare (trackedAt fsok p0 r0 l0 [e]) h (fun r w => trackedAt fsok p0 r0 l0 (pending r) w).

(** Kind and primary user of a protocol event, as the handlers put them in
    the [IndexedEvent]. *)
Definition eventKind (ev : ProtocolEvent) : EventType :=
  match ev with
  | EvBorrow _ => Borrow
  | EvRepayBorrow _ => RepayBorrow
  | EvMint _ => Mint
  | EvRedeem _ => Redeem
  | EvLiquidateBorrow _ => LiquidateBorrow
  | EvTransfer _ => Transfer
  end.

Definition eventUser (ev : ProtocolEvent) : string :=
  match ev with
  | EvBorrow e => BorrowEvent.borrower (args e)
  | EvRepayBorrow e => RepayBorrowEvent.borrower (args e)
  | EvMint e => MintEvent.minter (args e)
  | EvRedeem e => RedeemEvent.redeemer (args e)
  | EvLiquidateBorrow e => LiquidateBorrowEvent.liquidator (args e)
  | EvTransfer e => TransferEvent.from (args e)
  end.

Definition isTransfer (ev : ProtocolEvent) : bool :=
  match ev with
  | EvTransfer _ => true
  | _ => false
  end.

(** [needle] occurs in [hay]. *)
Fixpoint mentionsb (needle hay : string) : bool :=
  String.prefix needle hay
  || match hay with
     | EmptyString => false
     | String _ rest => mentionsb needle rest
     end.

(** A context string that names the event kind, the user and the token. *)
Definition fullContext (token : TokenConfig) (ev : ProtocolEvent) (context : string) : bool :=
  mentionsb (EventType_string (eventKind ev)) context
  && mentionsb (eventUser ev) context
  && mentionsb (symbol token) context.

(** The context [storeEvent] files a failure under: kind, user and token of
    the event it was given. *)
Definition storeContext (kind : EventType) (user token : string) : string :=
  "Failed to store event - Type: " +:+ EventType_string kind
  +:+ ", User: " +:+ user +:+ ", Token: " +:+ token.

(** The context the [catch] clause of each callback files a failure under. *)
Definition callbackContext (token : TokenConfig) (ev : ProtocolEvent) : string :=
  match ev with
  | EvBorrow e =>
      "Borrow event error for token " +:+ symbol token
      +:+ " - User: " +:+ BorrowEvent.borrower (args e)
  | EvRepayBorrow e =>
      "RepayBorrow event error for token " +:+ symbol token
      +:+ " - Borrower: " +:+ RepayBorrowEvent.borrower (args e)
      +:+ ", Payer: " +:+ RepayBorrowEvent.payer (args e)
  | EvMint e =>
      "Mint event error for token " +:+ symbol token
      +:+ " - User: " +:+ MintEvent.minter (args e)
  | EvRedeem e =>
      "Redeem event error for token " +:+ symbol token
      +:+ " - User: " +:+ RedeemEvent.redeemer (args e)
  | EvLiquidateBorrow e =>
      "LiquidateBorrow event error for token " +:+ symbol token
      +:+ " - Liquidator: " +:+ LiquidateBorrowEvent.liquidator (args e)
      +:+ ", Borrower: " +:+ LiquidateBorrowEvent.borrower (args e)
  | EvTransfer e => "Error processing Transfer event from " +:+ contractName token
  end.

(** What every entry of the error log written for an event is filed under:
    the context of [storeEvent] for the kind, the user and the token of the
    event, or the context of the [catch] clause of the event's callback. *)
Definition namesEvent (token : TokenConfig) (ev : ProtocolEvent) (entry : LogEntry) : Prop :=
  log_context entry = storeContext (eventKind ev) (eventUser ev) (symbol token)
  \/ log_context entry = callbackContext token ev.

(** The entries of the error log that were written after [w]. *)
Definition newLogEntries (w w' : World) : list LogEntry :=
  drop (length (errorsLog w)) (errorsLog w').

(** [amountSupplied] as a number, an unreadable cell counting for nothing,
    and its sum over a list of addresses. *)
Definition suppliedOr0 (w : World) (symbol user : string) : Z :=
  default 0 (amountSupplied w user symbol).

Definition totalSupplied (w : World) (symbol : string) (users : list string) : Z :=
  foldr Z.add 0 (map (suppliedOr0 w symbol) users).

(** A stream made of Transfer events of one market. *)
Definition transfersOf (token : TokenConfig) (events : list (Event TransferEvent.t))
    : list (TokenConfig * ProtocolEvent) :=
  map (fun e => (token, EvTransfer e)) events.

(** Ordinary transfers inside a set of addresses: neither end is the zero
    address and both ends are in the set. *)
Definition ordinaryWithin (users : list string) (e : Event TransferEvent.t) : Prop :=
  TransferEvent.from (args e) <> zeroAddress
  /\ TransferEvent.to (args e) <> zeroAddress
  /\ TransferEvent.from (args e) ∈ users
  /\ TransferEvent.to (args e) ∈ users.

(** Along the run from [w], every transfer goes between two different
    addresses and moves no more than its sender is recorded to hold when the
    transfer is processed. *)
Fixpoint fundedTransfers (token : TokenConfig) (w : World)
    (events : list (Event TransferEvent.t)) : Prop :=
  match events with
  | [] => True
  | e :: rest =>
      TransferEvent.from (args e) <> TransferEvent.to (args e)
      /\ (exists s, amountSupplied w (TransferEvent.from (args e)) (symbol token) = Some s
                    /\ TransferEvent.amount (args e) <= s)
      /\ fundedTransfers token (exec (onTransfer token e) w) rest
  end.

(* ===================================================================== *)
(** ** Vocabulary of the further properties *)
(* ===================================================================== *)

(** As [closed], for invariants that only tolerate the exceptions in [E]. *)
Record closedExcept (E : JsError -> Prop) (I : World -> Prop) : Prop := {
  ce_raised : forall e w, E e -> I w -> I (note_raised e w);
  ce_storageFaults :
    forall w b rest, storageFaults w = b :: rest -> I w -> I (set_storageFaults rest w);
  ce_fsFaults : forall w fs, I w -> I (set_fsFaults fs w);
  ce_console : forall f w, I w -> I (set_console f w);
  ce_userTransactions : forall f w, I w -> I (set_userTransactions f w);
  ce_userAddresses : forall f w, I w -> I (set_userAddresses f w);
  ce_errorsLog : forall f w, I w -> I (set_errorsLog f w)
}.

(** [c] keeps [I] and, when it returns, returns a value satisfying [G]. *)
Definition yields {A} (I : World -> Prop) (G : A -> Prop) (c : M A) : Prop :=
  hoare I c (fun r w => I w /\ forall a, r = inr a -> G a).

(** The pair a callback works from, given the row it read. *)
Definition pairOf (result : option MetricsRow) (symbol : string) : TokenData :=
  match tokenArrayOf result symbol with
  | Some tokenArray => tokenArray
  | None => ("0", "0")
  end.

(** Every pair of the balance table, as the callbacks read it, satisfies
    [R], and the rest of the world satisfies [K]. *)
Definition cellsSatisfy (R : string -> string -> TokenData -> Prop) (K : World -> Prop)
    (w : World) : Prop :=
  (forall u s, R u s (readTokenData w u s)) /\ K w.

Definition isSyntaxError (e : JsError) : bool :=
  match e with
  | SyntaxError _ => true
  | _ => false
  end.

(** A stored pair the callbacks can always work from: the supplied amount
    is a non-negative number and the borrowed amount is a number. *)
Definition goodPair (p : TokenData) : Prop :=
  (exists z, Js.BigInt (fst p) = Some z /\ 0 <= z) /\ is_Some (Js.BigInt (snd p)).

Definition wellFormed (w : World) : Prop :=
  forall u s, goodPair (readTokenData w u s).

(** No [SyntaxError] among the exceptions raised after the first [n]. *)
Definition noSyntaxErrorSince (n : nat) (w : World) : Prop :=
  forallb (fun e => negb (isSyntaxError e)) (drop n (raised w)) = true.

(** Transfer amounts are unsigned on the chain. *)
Definition unsignedAmounts (ev : ProtocolEvent) : Prop :=
  match ev with
  | EvTransfer e => 0 <= TransferEvent.amount (args e)
  | _ => True
  end.

(** The [indexedEvent] object a callback hands to [storeEvent]. *)
Definition indexedOf (token : TokenConfig) (ev : ProtocolEvent) : IndexedEvent.t :=
  match ev with
  | EvBorrow e => indexedBorrow token e
  | EvRepayBorrow e => indexedRepayBorrow token e
  | EvMint e => indexedMint token e
  | EvRedeem e => indexedRedeem token e
  | EvLiquidateBorrow e => indexedLiquidateBorrow token e
  | EvTransfer e => indexedTransfer token e
  end.

(** The pairs a callback may write: the borrower's for the three borrow
    events, the receiver's or the sender's for a Transfer according to its
    pattern, none for Mint and Redeem. *)
Definition writes (token : TokenConfig) (ev : ProtocolEvent) (u s : string) : Prop :=
  s = symbol token
  /\ match ev with
     | EvBorrow e => u = BorrowEvent.borrower (args e)
     | EvRepayBorrow e => u = RepayBorrowEvent.borrower (args e)
     | EvLiquidateBorrow e => u = LiquidateBorrowEvent.borrower (args e)
     | EvMint _ | EvRedeem _ => False
     | EvTransfer e =>
         let from := TransferEvent.from (args e) in
         let to := TransferEvent.to (args e) in
         if String.eqb from zeroAddress then u = to
         else if String.eqb to zeroAddress then u = from
         else u = from \/ u = to
     end.

(** The sender's amount after a debit as the Transfer callback computes it:
    [current - amount] if [current >= amount], zero otherwise. *)
Definition debited (current amount : Z) : Z :=
  if current >=? amount then current - amount else 0.

(** What the LiquidateBorrow callback does to the balance table when the
    storage works: nothing when the stored borrowed amount is not a number
    ([BigInt] throws before the write). *)
Definition liquidationUpdate (token : TokenConfig) (e : Event LiquidateBorrowEvent.t)
    (table : gmap string MetricsRow) : gmap string MetricsRow :=
  let borrower := LiquidateBorrowEvent.borrower (args e) in
  let repayAmount := LiquidateBorrowEvent.repayAmount (args e) in
  match tokenArrayOf (table !! borrower) (symbol token) with
  | Some tokenArray =>
      match Js.BigInt (snd tokenArray) with
      | Some currentBorrow =>
          upsertMetrics borrower (symbol token)
            (fst tokenArray, Js.toString (currentBorrow - repayAmount)) table
      | None => table
      end
  | None => upsertMetrics borrower (symbol token) ("0", "0") table
  end.

(** What the Transfer callback does to the balance table when the storage
    works: nothing when a stored supplied amount it needs is not a number
    (both are parsed before the first write). *)
Definition transferUpdate (token : TokenConfig) (e : Event TransferEvent.t)
    (table : gmap string MetricsRow) : gmap string MetricsRow :=
  let from := TransferEvent.from (args e) in
  let to := TransferEvent.to (args e) in
  let amount := TransferEvent.amount (args e) in
  if String.eqb from zeroAddress then
    let toTokenData := readCell table to (symbol token) in
    match Js.BigInt (fst toTokenData) with
    | Some toSupplied =>
        upsertMetrics to (symbol token)
          (Js.toString (toSupplied + amount), snd toTokenData) table
    | None => table
    end
  else if String.eqb to zeroAddress then
    let fromTokenData := readCell table from (symbol token) in
    match Js.BigInt (fst fromTokenData) with
    | Some currentSupplied =>
        upsertMetrics from (symbol token)
          (Js.toString (debited currentSupplied amount), snd fromTokenData) table
    | None => table
    end
  else
    let fromTokenData := readCell table from (symbol token) in
    let toTokenData := readCell table to (symbol token) in
    match Js.BigInt (fst fromTokenData), Js.BigInt (fst toTokenData) with
    | Some currentFromSupplied, Some toSupplied =>
        upsertMetrics to (symbol token)
          (Js.toString (toSupplied + amount), snd toTokenData)
          (upsertMetrics from (symbol token)
             (Js.toString (debited currentFromSupplied amount), snd fromTokenData) table)
    | _, _ => table
    end.

(** A string without ["-"], as every transaction hash is. *)
Fixpoint noDash (s : string) : bool :=
  match s with
  | EmptyString => true
  | String c rest => negb (Ascii.eqb c "-") && noDash rest
  end.

(* ===================================================================== *)
(** ** Sample data *)
(* ===================================================================== *)

Definition DAI : TokenConfig :=
  {| address := "0x73b06D8d18De422E269645eaCe15400DE7462417"; decimals := 18; symbol := "DAI" |}.

Definition USDC : TokenConfig :=
  {| address := "0xEdc817A28E8B93B03976FBd4a3dDBc9f7D176c22"; decimals := 6; symbol := "USDC" |}.

Definition alice : string := "0x00000000000000000000000000000000000000a1".
Definition bob : string := "0x00000000000000000000000000000000000000b2".

Definition at_log {A} (a : A) (hash : string) (index : Z) : Event A :=
  {| args := a; block_number := 2300001; block_timestamp := 1700000000;
     transaction_hash := hash; log_logIndex := index |}.

(** Scenario A: a borrow reported with [accountBorrows = 100], then a
    repayment of 40 reported with [accountBorrows = 60]. *)
Definition borrow100 : Event BorrowEvent.t :=
  at_log {| BorrowEvent.borrower := alice; BorrowEvent.borrowAmount := 100;
            BorrowEvent.accountBorrows := 100; BorrowEvent.totalBorrows := 5000 |}
         "0xa001" 0.

Definition repay40 : Event RepayBorrowEvent.t :=
  at_log {| RepayBorrowEvent.payer := alice; RepayBorrowEvent.borrower := alice;
            RepayBorrowEvent.repayAmount := 40; RepayBorrowEvent.accountBorrows := 60;
            RepayBorrowEvent.totalBorrows := 4960 |}
         "0xa002" 3.

Definition liquidate (repay : Z) : Event LiquidateBorrowEvent.t :=
  at_log {| LiquidateBorrowEvent.liquidator := bob; LiquidateBorrowEvent.borrower := alice;
            LiquidateBorrowEvent.repayAmount := repay;
            LiquidateBorrowEvent.mTokenCollateral := "0x628ff693426583D9a7FB391E54366292F509D457";
            LiquidateBorrowEvent.seizeTokens := 7 |}
         "0xa003" 1.

Definition transfer (from to : string) (amount : Z) (hash : string) : Event TransferEvent.t :=
  at_log {| TransferEvent.from := from; TransferEvent.to := to; TransferEvent.amount := amount |}
         hash 2.

Definition mint50 : Event MintEvent.t :=
  at_log {| MintEvent.minter := alice; MintEvent.mintAmount := 50; MintEvent.mintTokens := 2500 |}
         "0xa004" 5.

Definition redeem20 : Event RedeemEvent.t :=
  at_log {| RedeemEvent.redeemer := alice; RedeemEvent.redeemAmount := 20;
            RedeemEvent.redeemTokens := 1000 |}
         "0xa005" 6.

Definition emptyWorld : World :=
  {| userMetrics := ∅; userTransactions := []; userAddresses := [];
     console := []; errorsLog := []; storageFaults := []; fsFaults := [];
     raised := [] |}.

(** After scenario A: [alice] owes 60 DAI. *)
Definition afterScenarioA : World :=
  exec (onRepayBorrow DAI repay40) (exec (onBorrow DAI borrow100) emptyWorld).

(** [alice] holds 5 DAI market tokens (issued by a transfer from the zero
    address). *)
Definition aliceHolds5 : World :=
  exec (onTransfer DAI (transfer zeroAddress alice 5 "0xb001")) emptyWorld.

(** [alice] holds 5 and [bob] holds 2. *)
Definition aliceAndBob : World :=
  exec (onTransfer DAI (transfer zeroAddress bob 2 "0xb002")) aliceHolds5.

(** A storage whose fourth call fails. *)
Definition fourthCallFails : World :=
  {| userMetrics := ∅; userTransactions := []; userAddresses := [];
     console := []; errorsLog := []; storageFaults := [false; false; false; true];
     fsFaults := []; raised := [] |}.

(** A storage whose first call fails and that is reliable afterwards. *)
Definition firstCallFails : World :=
  {| userMetrics := ∅; userTransactions := []; userAddresses := [];
     console := []; errorsLog := []; storageFaults := [true];
     fsFaults := []; raised := [] |}.

(** [alice] holds 5 and [bob] holds 2, and the seventh storage call from
    here fails. *)
Definition seventhCallFails : World :=
  set_storageFaults [false; false; false; false; false; false; true] aliceAndBob.

(* ===================================================================== *)
(** ** Numbers and strings *)
(* ===================================================================== *)

Lemma to_int_proper (z : Z) :
  Z.to_int z <> Decimal.Pos Decimal.Nil /\ Z.to_int z <> Decimal.Neg Decimal.Nil.
Proof.
  destruct z as [|p|p]; cbn; split; try discriminate;
    intros [= H]; exact (Unsigned.to_uint_nonnil p H).
Qed.

(** Parsing what [toString] printed gives the number back. *)
Lemma BigInt_toString (z : Z) : Js.BigInt (Js.toString z) = Some z.
Proof.
  unfold Js.BigInt, Js.toString.
  destruct (to_int_proper z) as [Hp Hn].
  rewrite NilZero.isi by assumption.
  cbn [option_map]. now rewrite DecimalZ.of_to.
Qed.

Lemma append_cons (c : ascii) (s t : string) : String c s +:+ t = String c (s +:+ t).
Proof. reflexivity. Qed.

Lemma append_nil_r (s : string) : s +:+ "" = s.
Proof. induction s as [|c s IH]; [reflexivity|]. now rewrite append_cons, IH. Qed.

Lemma prefix_append (s t : string) : String.prefix s (s +:+ t) = true.
Proof.
  induction s as [|c s IH].
  - now destruct t.
  - rewrite append_cons. simpl.
    destruct (ascii_dec c c) as [_|Hc]; [exact IH | now elim Hc].
Qed.

Lemma mentionsb_prefix (needle hay : string) :
  String.prefix needle hay = true -> mentionsb needle hay = true.
Proof. intros H. destruct hay; simpl; simpl in H; now rewrite H. Qed.

Lemma mentionsb_here (needle post : string) : mentionsb needle (needle +:+ post) = true.
Proof. apply mentionsb_prefix, prefix_append. Qed.

Lemma mentionsb_later (needle pre hay : string) :
  mentionsb needle hay = true -> mentionsb needle (pre +:+ hay) = true.
Proof.
  intros H. induction pre as [|c pre IH]; [exact H|].
  rewrite append_cons. simpl. rewrite IH. apply orb_true_r.
Qed.

Lemma mentionsb_end (needle pre : string) : mentionsb needle (pre +:+ needle) = true.
Proof.
  apply mentionsb_later. rewrite <- (append_nil_r needle) at 2. apply mentionsb_here.
Qed.

(* ===================================================================== *)
(** ** Running the monad *)
(* ===================================================================== *)

Lemma run_eta {A} (c : M A) (w : World) : c w = (outcome c w, exec c w).
Proof. unfold outcome, exec. now destruct (c w). Qed.

Lemma exec_of_run {A} (c : M A) (w w' : World) (r : JsError + A) :
  c w = (r, w') -> exec c w = w'.
Proof. unfold exec. now intros ->. Qed.

Lemma bind_inr {A B} (c : M A) (k : A -> M B) (w w' : World) (a : A) :
  c w = (inr a, w') -> (c ≫= k) w = k a w'.
Proof. intros H. unfold mbind, M_bind, bind. now rewrite H. Qed.

(* ===================================================================== *)
(** ** Rules of the triples *)
(* ===================================================================== *)

Section HoareRules.

Context {A B : Type}.

Lemma hoare_conseq (P P' : World -> Prop) (Q Q' : JsError + A -> World -> Prop) (c : M A) :
  (forall w, P' w -> P w) -> (forall r w, Q r w -> Q' r w) ->
  hoare P c Q -> hoare P' c Q'.
Proof. intros HP HQ H w Hw. apply HQ, H, HP, Hw. Qed.

Lemma hoare_ret (P : World -> Prop) (a : A) :
  hoare P (mret a) (fun r w => r = inr a /\ P w).
Proof. intros w Hw. split; [reflexivity | exact Hw]. Qed.

Lemma hoare_throw (Q : JsError + A -> World -> Prop) (e : JsError) :
  hoare (fun w => Q (inl e) (note_raised e w)) (throw e) Q.
Proof. intros w Hw. exact Hw. Qed.

(** Sequencing: an exception of the first computation goes through. *)
Lemma hoare_bind (P : World -> Prop) (Q : JsError + A -> World -> Prop)
    (R : JsError + B -> World -> Prop) (c : M A) (k : A -> M B) :
  hoare P c Q ->
  (forall e w, Q (inl e) w -> R (inl e) w) ->
  (forall a, hoare (Q (inr a)) (k a) R) ->
  hoare P (c ≫= k) R.
Proof.
  intros Hc Hexn Hk w Hw. specialize (Hc w Hw).
  unfold outcome, exec, mbind, M_bind, bind in *.
  destruct (c w) as [[e|a] w1]; cbn in *.
  - apply Hexn, Hc.
  - apply (Hk a w1 Hc).
Qed.

(** [try]/[catch]: the handler starts where the body threw. *)
Lemma hoare_try_catch (P : World -> Prop) (Q R : JsError + A -> World -> Prop)
    (body : M A) (handler : JsError -> M A) :
  hoare P body Q ->
  (forall a w, Q (inr a) w -> R (inr a) w) ->
  (forall e, hoare (Q (inl e)) (handler e) R) ->
  hoare P (try_catch body handler) R.
Proof.
  intros Hb Hret Hh w Hw. specialize (Hb w Hw).
  unfold outcome, exec, try_catch in *.
  destruct (body w) as [[e|a] w1]; cbn in *.
  - apply (Hh e w1 Hb).
  - apply Hret, Hb.
Qed.

(** A storage call, whatever the oracle says. *)
Lemma hoare_storageCall (P : World -> Prop) (Q : JsError + A -> World -> Prop) (op : M A) :
  (forall w rest, P w -> storageFaults w = true :: rest ->
     Q (inl StorageError) (note_raised StorageError (set_storageFaults rest w))) ->
  (forall w rest, P w -> storageFaults w = false :: rest ->
     Q (outcome op (set_storageFaults rest w)) (exec op (set_storageFaults rest w))) ->
  (forall w, P w -> storageFaults w = [] -> Q (outcome op w) (exec op w)) ->
  hoare P (storageCall op) Q.
Proof.
  intros Ht Hf Hn w Hw. unfold outcome, exec, storageCall in *.
  destruct (storageFaults w) as [|[|] rest] eqn:E.
  - now apply Hn.
  - now apply Ht.
  - now apply Hf.
Qed.

End HoareRules.

(* ===================================================================== *)
(** ** No callback throws *)
(* ===================================================================== *)

Lemma console_error_returns (label : string) (error : option JsError) (w : World) :
  outcome (console_error label error) w = inr tt.
Proof. reflexivity. Qed.

(** [logError] swallows the failure of its own write. *)
Lemma logError_returns (error : JsError) (context : string) (w : World) :
  outcome (logError error context) w = inr tt.
Proof.
  unfold outcome, logError, try_catch, fs_appendFile, throw.
  destruct (fsFaults w) as [|[|] rest]; reflexivity.
Qed.

Lemma seq_returns (c k : M unit) :
  (forall w, outcome c w = inr tt) -> (forall w, outcome k w = inr tt) ->
  forall w, outcome (c;; k) w = inr tt.
Proof.
  intros Hc Hk w. specialize (Hc w). unfold outcome, mbind, M_bind, bind in *.
  destruct (c w) as [[e|[]] w1]; cbn in *; [discriminate | apply Hk].
Qed.

(** A [try] whose [catch] clause cannot throw cannot throw. *)
Lemma try_catch_returns (body : M unit) (handler : JsError -> M unit) :
  (forall e w, outcome (handler e) w = inr tt) ->
  forall w, outcome (try_catch body handler) w = inr tt.
Proof.
  intros Hh w. unfold outcome, try_catch in *.
  destruct (body w) as [[e|[]] w1]; cbn; [apply Hh | reflexivity].
Qed.

Lemma report_returns (label context : string) (error : JsError) (w : World) :
  outcome (console_error label (Some error);; logError error context) w = inr tt.
Proof.
  apply seq_returns; [apply console_error_returns | apply logError_returns].
Qed.

Lemma storeEvent_returns (event : IndexedEvent.t) (w : World) :
  outcome (storeEvent event) w = inr tt.
Proof. apply try_catch_returns. intros e w'. apply report_returns. Qed.

Lemma storeEvent_run (event : IndexedEvent.t) (w : World) :
  storeEvent event w = (inr tt, exec (storeEvent event) w).
Proof. rewrite (run_eta (storeEvent event) w) at 1. now rewrite storeEvent_returns. Qed.

Lemma handle_returns (token : TokenConfig) (ev : ProtocolEvent) (w : World) :
  outcome (handle token ev) w = inr tt.
Proof.
  destruct ev; cbn [handle];
    apply try_catch_returns; intros err w'; apply report_returns.
Qed.

Lemma handle_run (token : TokenConfig) (ev : ProtocolEvent) (w : World) :
  handle token ev w = (inr tt, exec (handle token ev) w).
Proof. rewrite (run_eta (handle token ev) w) at 1. now rewrite handle_returns. Qed.

(** The stream is worked through to its end: the final world is the one
    reached by running the callbacks one after the other. *)
Lemma processStream_run (events : list (TokenConfig * ProtocolEvent)) (w : World) :
  processStream events w
  = (inr tt, fold_left (fun w' '(token, ev) => exec (handle token ev) w') events w).
Proof.
  revert w. induction events as [|[token ev] rest IH]; intros w; [reflexivity|].
  cbn [processStream fold_left].
  rewrite (bind_inr _ _ w (exec (handle token ev) w) tt (handle_run token ev w)).
  apply IH.
Qed.

(* ===================================================================== *)
(** ** Invariants of a run *)
(* ===================================================================== *)

Section Stable.

Variable I : World -> Prop.
Hypothesis HI : closed I.

Lemma stable_ret {A} (a : A) : stable I (mret a).
Proof. intros w Hw. exact Hw. Qed.

Lemma stable_throw {A} (e : JsError) : stable I (@throw A e).
Proof. intros w Hw. now apply (closed_raised I HI). Qed.

Lemma stable_bind {A B} (c : M A) (k : A -> M B) :
  stable I c -> (forall a, stable I (k a)) -> stable I (c ≫= k).
Proof.
  intros Hc Hk. apply (hoare_bind I (fun _ w => I w) (fun _ w => I w)); auto.
Qed.

Lemma stable_try_catch {A} (body : M A) (handler : JsError -> M A) :
  stable I body -> (forall e, stable I (handler e)) -> stable I (try_catch body handler).
Proof.
  intros Hb Hh. apply (hoare_try_catch I (fun _ w => I w) (fun _ w => I w)); auto.
Qed.

Lemma stable_storageCall {A} (op : M A) :
  stable I op -> stable I (storageCall op).
Proof.
  intros Hop. apply hoare_storageCall.
  - intros w rest Hw E. apply (closed_raised I HI).
    now apply (closed_storageFaults I HI w true rest).
  - intros w rest Hw E. apply Hop. now apply (closed_storageFaults I HI w false rest).
  - intros w Hw _. now apply Hop.
Qed.

Lemma stable_js_BigInt (s : string) : stable I (js_BigInt s).
Proof.
  unfold js_BigInt. destruct (Js.BigInt s); [apply stable_ret | apply stable_throw].
Qed.

Lemma stable_console_error (label : string) (error : option JsError) :
  stable I (console_error label error).
Proof. intros w Hw. now apply (closed_console I HI). Qed.

Lemma stable_find (userAddress : string) : stable I (db_find_userMetrics userAddress).
Proof. apply stable_storageCall. intros w Hw. exact Hw. Qed.

Lemma stable_upsert (userAddress symbol : string) (data : TokenData) :
  (forall f w, I w -> I (set_userMetrics f w)) ->
  stable I (db_upsert_userMetrics userAddress symbol data).
Proof. intros H. apply stable_storageCall. intros w Hw. now apply H. Qed.

Lemma stable_insert_tx (row : TxRow.t) :
  (forall f w, I w -> I (set_userTransactions f w)) ->
  stable I (db_insert_userTransactions row).
Proof.
  intros H. apply stable_storageCall. intros w Hw. unfold exec, throw.
  destruct (has_tx (TxRow.id row) (userTransactions w)); cbn.
  - now apply (closed_raised I HI).
  - now apply H.
Qed.

Lemma stable_insert_addr (row : AddrRow.t) :
  (forall f w, I w -> I (set_userAddresses f w)) ->
  stable I (db_insert_userAddresses row).
Proof.
  intros H. apply stable_storageCall. intros w Hw. unfold exec.
  destruct (has_addr _ _ _); cbn; [exact Hw | now apply H].
Qed.

Lemma stable_appendFile (entry : LogEntry) :
  (forall w, I w -> I (set_errorsLog (fun l => (l ++ [entry])%list) w)) ->
  stable I (fs_appendFile entry).
Proof.
  intros H w Hw. unfold exec, fs_appendFile, throw.
  destruct (fsFaults w) as [|[|] rest]; cbn.
  - now apply H.
  - now apply (closed_raised I HI), (closed_fsFaults I HI).
  - now apply H, (closed_fsFaults I HI).
Qed.

Lemma stable_logError (error : JsError) (context : string) :
  (forall w, I w ->
     I (set_errorsLog (fun l => (l ++ [{| log_context := context; log_error := error |}])%list) w)) ->
  stable I (logError error context).
Proof.
  intros H. apply stable_try_catch.
  - now apply stable_appendFile.
  - intros e. apply stable_console_error.
Qed.

(** The [catch] clause of every callback. *)
Lemma stable_report (label context : string) (error : JsError) :
  (forall w, I w ->
     I (set_errorsLog (fun l => (l ++ [{| log_context := context; log_error := error |}])%list) w)) ->
  stable I (console_error label (Some error);; logError error context).
Proof.
  intros H. apply stable_bind; [apply stable_console_error|].
  intros _. now apply stable_logError.
Qed.

End Stable.

(** Three invariants: the balance table is a given table; the storage is
    reliable; the error log has only grown, by entries satisfying [P]. *)

Lemma closed_metrics (t : gmap string MetricsRow) : closed (fun w => userMetrics w = t).
Proof. split; intros; assumption. Qed.

Lemma closed_reliable : closed storageReliable.
Proof.
  split; unfold storageReliable; intros; try assumption.
  cbn. congruence.
Qed.

Lemma closed_logged (l0 : list LogEntry) (P : LogEntry -> Prop) :
  closed (fun w => exists new, errorsLog w = (l0 ++ new)%list /\ Forall P new).
Proof. split; intros; assumption. Qed.

Lemma logged_append (l0 : list LogEntry) (P : LogEntry -> Prop) (entry : LogEntry) (w : World) :
  P entry ->
  (exists new, errorsLog w = (l0 ++ new)%list /\ Forall P new) ->
  exists new, errorsLog (set_errorsLog (fun l => (l ++ [entry])%list) w) = (l0 ++ new)%list
              /\ Forall P new.
Proof.
  intros HP (new & E & HF). exists (new ++ [entry])%list. cbn. split.
  - rewrite E. now rewrite <- app_assoc.
  - apply Forall_app. split; [exact HF | now constructor].
Qed.

(** Walks through a computation with the rules above; [side] settles what
    the invariant at hand owes to each primitive. *)
Ltac stable_walk HI side :=
  repeat first
    [ apply stable_ret
    | apply (stable_throw _ HI)
    | apply (stable_js_BigInt _ HI)
    | apply (stable_console_error _ HI)
    | apply (stable_find _ HI)
    | apply (stable_upsert _ HI); side
    | apply (stable_insert_tx _ HI); side
    | apply (stable_insert_addr _ HI); side
    | apply (stable_report _ HI); side
    | apply (stable_logError _ HI); side
    | apply stable_bind; [|intros ?]
    | apply stable_try_catch; [|intros ?]
    | progress cbv beta zeta
    | match goal with
      | |- stable _ (match ?x with _ => _ end) => destruct x
      | |- stable _ (if ?b then _ else _) => destruct b
      end ].

Lemma storeEvent_keeps_metrics (event : IndexedEvent.t) (t : gmap string MetricsRow) :
  stable (fun w => userMetrics w = t) (storeEvent event).
Proof.
  unfold storeEvent.
  stable_walk (closed_metrics t) ltac:(intros; assumption).
Qed.

Lemma storeEvent_userMetrics (event : IndexedEvent.t) (w : World) :
  userMetrics (exec (storeEvent event) w) = userMetrics w.
Proof. now apply (storeEvent_keeps_metrics event (userMetrics w) w). Qed.

Lemma storeEvent_keeps_reliable (event : IndexedEvent.t) :
  stable storageReliable (storeEvent event).
Proof.
  unfold storeEvent.
  stable_walk closed_reliable ltac:(intros; assumption).
Qed.

Lemma storeEvent_reliable (event : IndexedEvent.t) (w : World) :
  storageReliable w -> storageReliable (exec (storeEvent event) w).
Proof. apply storeEvent_keeps_reliable. Qed.

Lemma handle_keeps_reliable (token : TokenConfig) (ev : ProtocolEvent) :
  stable storageReliable (handle token ev).
Proof.
  destruct ev; cbn [handle];
    unfold onBorrow, onRepayBorrow, onMint, onRedeem, onLiquidateBorrow, onTransfer, storeEvent;
    stable_walk closed_reliable ltac:(intros; assumption).
Qed.

Lemma handle_reliable (token : TokenConfig) (ev : ProtocolEvent) (w : World) :
  storageReliable w -> storageReliable (exec (handle token ev) w).
Proof. apply handle_keeps_reliable. Qed.

(** Mint and Redeem callbacks never write the balance table. *)
Lemma onMint_keeps_metrics (token : TokenConfig) (e : Event MintEvent.t)
    (t : gmap string MetricsRow) :
  stable (fun w => userMetrics w = t) (onMint token e).
Proof.
  unfold onMint, storeEvent.
  stable_walk (closed_metrics t) ltac:(intros; assumption).
Qed.

Lemma onRedeem_keeps_metrics (token : TokenConfig) (e : Event RedeemEvent.t)
    (t : gmap string MetricsRow) :
  stable (fun w => userMetrics w = t) (onRedeem token e).
Proof.
  unfold onRedeem, storeEvent.
  stable_walk (closed_metrics t) ltac:(intros; assumption).
Qed.

(* ===================================================================== *)
(** ** The callbacks over a reliable storage *)
(* ===================================================================== *)

Lemma storageCall_reliable {A} (op : M A) (w : World) :
  storageReliable w -> storageCall op w = op w.
Proof. unfold storageReliable, storageCall. now intros ->. Qed.

Lemma find_reliable (userAddress : string) (w : World) :
  storageReliable w ->
  db_find_userMetrics userAddress w = (inr (userMetrics w !! userAddress), w).
Proof. intros H. unfold db_find_userMetrics. now rewrite storageCall_reliable. Qed.

Lemma upsert_reliable (userAddress symbol : string) (data : TokenData) (w : World) :
  storageReliable w ->
  db_upsert_userMetrics userAddress symbol data w
  = (inr tt, set_userMetrics (upsertMetrics userAddress symbol data) w).
Proof. intros H. unfold db_upsert_userMetrics. now rewrite storageCall_reliable. Qed.

Lemma js_BigInt_Some (s : string) (z : Z) (w : World) :
  Js.BigInt s = Some z -> js_BigInt s w = (inr z, w).
Proof. unfold js_BigInt. now intros ->. Qed.

Lemma readCell_tokenArray (t : gmap string MetricsRow) (user symbol : string) :
  match tokenArrayOf (t !! user) symbol with
  | Some tokenArray => tokenArray
  | None => ("0", "0")
  end = readCell t user symbol.
Proof. reflexivity. Qed.

(** Unfolds the sequencing of a callback so that the equations of its
    steps can be used one after the other. *)
Ltac open_run :=
  unfold exec, try_catch, mbind, M_bind, bind; cbv beta zeta.

Ltac step_storeEvent H :=
  rewrite storeEvent_run; cbv beta iota;
  match goal with
  | |- context [exec (storeEvent ?ie) ?w] =>
      let H1 := fresh "Hrel" in
      pose proof (storeEvent_reliable ie w H) as H1
  end.

(** Borrow and RepayBorrow replace the borrowed amount by the reported one
    and carry the supplied amount over. *)
Lemma onBorrow_metrics (token : TokenConfig) (e : Event BorrowEvent.t) (w : World) :
  storageReliable w ->
  userMetrics (exec (onBorrow token e) w)
  = upsertMetrics (BorrowEvent.borrower (args e)) (symbol token)
      (fst (readTokenData w (BorrowEvent.borrower (args e)) (symbol token)),
       Js.toString (BorrowEvent.accountBorrows (args e)))
      (userMetrics w).
Proof.
  intros H. unfold onBorrow. open_run.
  rewrite find_reliable by assumption. cbv beta iota.
  step_storeEvent H.
  rewrite upsert_reliable by assumption.
  cbn [snd userMetrics set_userMetrics]. rewrite storeEvent_userMetrics.
  unfold readTokenData, readCell.
  now destruct (tokenArrayOf _ _).
Qed.

Lemma onRepayBorrow_metrics (token : TokenConfig) (e : Event RepayBorrowEvent.t) (w : World) :
  storageReliable w ->
  userMetrics (exec (onRepayBorrow token e) w)
  = upsertMetrics (RepayBorrowEvent.borrower (args e)) (symbol token)
      (fst (readTokenData w (RepayBorrowEvent.borrower (args e)) (symbol token)),
       Js.toString (RepayBorrowEvent.accountBorrows (args e)))
      (userMetrics w).
Proof.
  intros H. unfold onRepayBorrow. open_run.
  rewrite find_reliable by assumption. cbv beta iota.
  step_storeEvent H.
  rewrite upsert_reliable by assumption.
  cbn [snd userMetrics set_userMetrics]. rewrite storeEvent_userMetrics.
  unfold readTokenData, readCell.
  now destruct (tokenArrayOf _ _).
Qed.

(** LiquidateBorrow, borrower with a stored pair: plain subtraction. *)
Lemma onLiquidateBorrow_run (token : TokenConfig) (e : Event LiquidateBorrowEvent.t)
    (w : World) (supplied borrowed : string) (c : Z) :
  storageReliable w ->
  tokenArrayOf (userMetrics w !! LiquidateBorrowEvent.borrower (args e)) (symbol token)
    = Some (supplied, borrowed) ->
  Js.BigInt borrowed = Some c ->
  onLiquidateBorrow token e w
  = (inr tt,
     set_userMetrics
       (upsertMetrics (LiquidateBorrowEvent.borrower (args e)) (symbol token)
          (supplied, Js.toString (c - LiquidateBorrowEvent.repayAmount (args e))))
       (exec (storeEvent (indexedLiquidateBorrow token e)) w)).
Proof.
  intros H Hcell Hc. unfold onLiquidateBorrow. open_run.
  step_storeEvent H.
  rewrite find_reliable by assumption. cbv beta iota.
  rewrite storeEvent_userMetrics, Hcell. cbn [fst snd].
  rewrite (js_BigInt_Some _ _ _ Hc). cbv beta iota.
  unfold mret, M_ret, ret.
  rewrite upsert_reliable by assumption.
  reflexivity.
Qed.

(** LiquidateBorrow, borrower without a stored pair: [["0", "0"]] is written. *)
Lemma onLiquidateBorrow_run_absent (token : TokenConfig) (e : Event LiquidateBorrowEvent.t)
    (w : World) :
  storageReliable w ->
  tokenArrayOf (userMetrics w !! LiquidateBorrowEvent.borrower (args e)) (symbol token) = None ->
  onLiquidateBorrow token e w
  = (inr tt,
     set_userMetrics
       (upsertMetrics (LiquidateBorrowEvent.borrower (args e)) (symbol token) ("0", "0"))
       (exec (storeEvent (indexedLiquidateBorrow token e)) w)).
Proof.
  intros H Hcell. unfold onLiquidateBorrow. open_run.
  step_storeEvent H.
  rewrite find_reliable by assumption. cbv beta iota.
  rewrite storeEvent_userMetrics, Hcell.
  unfold mret, M_ret, ret.
  rewrite upsert_reliable by assumption.
  reflexivity.
Qed.

Lemma geb_true (s a : Z) : a <= s -> (s >=? a) = true.
Proof. intros H. rewrite Z.geb_leb. now apply Z.leb_le. Qed.

Lemma geb_false (s a : Z) : s < a -> (s >=? a) = false.
Proof. intros H. rewrite Z.geb_leb. now apply Z.leb_gt. Qed.

Lemma eqb_zero_true (a : string) : a = zeroAddress -> String.eqb a zeroAddress = true.
Proof. intros ->. apply String.eqb_refl. Qed.

Lemma eqb_zero_false (a : string) : a <> zeroAddress -> String.eqb a zeroAddress = false.
Proof. intros H. now apply String.eqb_neq. Qed.

(** Transfer from the zero address: the receiver is credited. *)
Lemma onTransfer_mint_run (token : TokenConfig) (e : Event TransferEvent.t) (w : World) (s : Z) :
  storageReliable w ->
  TransferEvent.from (args e) = zeroAddress ->
  amountSupplied w (TransferEvent.to (args e)) (symbol token) = Some s ->
  onTransfer token e w
  = (inr tt,
     set_userMetrics
       (upsertMetrics (TransferEvent.to (args e)) (symbol token)
          (Js.toString (s + TransferEvent.amount (args e)),
           snd (readTokenData w (TransferEvent.to (args e)) (symbol token))))
       (exec (storeEvent (indexedTransfer token e)) w)).
Proof.
  intros H Hfrom Hs. unfold onTransfer. open_run.
  step_storeEvent H.
  rewrite (eqb_zero_true _ Hfrom).
  rewrite find_reliable by assumption. cbv beta iota.
  rewrite storeEvent_userMetrics, readCell_tokenArray.
  unfold amountSupplied, readTokenData in Hs.
  rewrite (js_BigInt_Some _ _ _ Hs). cbv beta iota.
  rewrite upsert_reliable by assumption.
  reflexivity.
Qed.

(** Transfer to the zero address, enough recorded: the sender is debited. *)
Lemma onTransfer_burn_run (token : TokenConfig) (e : Event TransferEvent.t) (w : World) (s : Z) :
  storageReliable w ->
  TransferEvent.from (args e) <> zeroAddress ->
  TransferEvent.to (args e) = zeroAddress ->
  amountSupplied w (TransferEvent.from (args e)) (symbol token) = Some s ->
  TransferEvent.amount (args e) <= s ->
  onTransfer token e w
  = (inr tt,
     set_userMetrics
       (upsertMetrics (TransferEvent.from (args e)) (symbol token)
          (Js.toString (s - TransferEvent.amount (args e)),
           snd (readTokenData w (TransferEvent.from (args e)) (symbol token))))
       (exec (storeEvent (indexedTransfer token e)) w)).
Proof.
  intros H Hfrom Hto Hs Hle. unfold onTransfer. open_run.
  step_storeEvent H.
  rewrite (eqb_zero_false _ Hfrom).
  rewrite (eqb_zero_true _ Hto).
  rewrite find_reliable by assumption. cbv beta iota.
  rewrite storeEvent_userMetrics, readCell_tokenArray.
  unfold amountSupplied, readTokenData in Hs.
  rewrite (js_BigInt_Some _ _ _ Hs). cbv beta iota.
  rewrite (geb_true _ _ Hle).
  unfold mret, M_ret, ret.
  rewrite upsert_reliable by assumption.
  reflexivity.
Qed.

(** Transfer to the zero address, too little recorded: the sender is set to
    ["0"] and one line is printed. *)
Lemma onTransfer_burn_underflow_run (token : TokenConfig) (e : Event TransferEvent.t)
    (w : World) (s : Z) :
  storageReliable w ->
  TransferEvent.from (args e) <> zeroAddress ->
  TransferEvent.to (args e) = zeroAddress ->
  amountSupplied w (TransferEvent.from (args e)) (symbol token) = Some s ->
  s < TransferEvent.amount (args e) ->
  onTransfer token e w
  = (inr tt,
     set_userMetrics
       (upsertMetrics (TransferEvent.from (args e)) (symbol token)
          ("0", snd (readTokenData w (TransferEvent.from (args e)) (symbol token))))
       (set_console
          (fun ls =>
             (ls ++ [{| line_label :=
                          "[BALANCE ERROR] Insufficient balance for burn: "
                          +:+ TransferEvent.from (args e) +:+ " has " +:+ Js.toString s
                          +:+ ", trying to burn " +:+ Js.toString (TransferEvent.amount (args e));
                        line_error := None |}])%list)
          (exec (storeEvent (indexedTransfer token e)) w))).
Proof.
  intros H Hfrom Hto Hs Hlt. unfold onTransfer. open_run.
  step_storeEvent H.
  rewrite (eqb_zero_false _ Hfrom).
  rewrite (eqb_zero_true _ Hto).
  rewrite find_reliable by assumption. cbv beta iota.
  rewrite storeEvent_userMetrics, readCell_tokenArray.
  unfold amountSupplied, readTokenData in Hs.
  rewrite (js_BigInt_Some _ _ _ Hs). cbv beta iota.
  rewrite (geb_false _ _ Hlt).
  unfold mret, M_ret, ret, console_error. cbv beta iota.
  rewrite upsert_reliable by assumption.
  reflexivity.
Qed.

(** Ordinary transfer, enough recorded for the sender: the debit is written
    first and the credit second, both computed from what was read before
    either write. *)
Lemma onTransfer_ordinary_run (token : TokenConfig) (e : Event TransferEvent.t)
    (w : World) (sFrom sTo : Z) :
  storageReliable w ->
  TransferEvent.from (args e) <> zeroAddress ->
  TransferEvent.to (args e) <> zeroAddress ->
  amountSupplied w (TransferEvent.from (args e)) (symbol token) = Some sFrom ->
  amountSupplied w (TransferEvent.to (args e)) (symbol token) = Some sTo ->
  TransferEvent.amount (args e) <= sFrom ->
  onTransfer token e w
  = (inr tt,
     set_userMetrics
       (upsertMetrics (TransferEvent.to (args e)) (symbol token)
          (Js.toString (sTo + TransferEvent.amount (args e)),
           snd (readTokenData w (TransferEvent.to (args e)) (symbol token))))
       (set_userMetrics
          (upsertMetrics (TransferEvent.from (args e)) (symbol token)
             (Js.toString (sFrom - TransferEvent.amount (args e)),
              snd (readTokenData w (TransferEvent.from (args e)) (symbol token))))
          (exec (storeEvent (indexedTransfer token e)) w))).
Proof.
  intros H Hfrom Hto HsF HsT Hle. unfold onTransfer. open_run.
  step_storeEvent H.
  rewrite (eqb_zero_false _ Hfrom), (eqb_zero_false _ Hto).
  rewrite !find_reliable by assumption. cbv beta iota.
  rewrite storeEvent_userMetrics, !readCell_tokenArray.
  unfold amountSupplied, readTokenData in HsF, HsT.
  rewrite (js_BigInt_Some _ _ _ HsF). cbv beta iota.
  rewrite (geb_true _ _ Hle).
  unfold mret, M_ret, ret. cbv beta iota.
  rewrite (js_BigInt_Some _ _ _ HsT). cbv beta iota.
  rewrite upsert_reliable by assumption. cbv beta iota.
  rewrite upsert_reliable by assumption.
  reflexivity.
Qed.

(** Ordinary transfer, too little recorded for the sender. *)
Lemma onTransfer_ordinary_underflow_run (token : TokenConfig) (e : Event TransferEvent.t)
    (w : World) (sFrom sTo : Z) :
  storageReliable w ->
  TransferEvent.from (args e) <> zeroAddress ->
  TransferEvent.to (args e) <> zeroAddress ->
  amountSupplied w (TransferEvent.from (args e)) (symbol token) = Some sFrom ->
  amountSupplied w (TransferEvent.to (args e)) (symbol token) = Some sTo ->
  sFrom < TransferEvent.amount (args e) ->
  onTransfer token e w
  = (inr tt,
     set_userMetrics
       (upsertMetrics (TransferEvent.to (args e)) (symbol token)
          (Js.toString (sTo + TransferEvent.amount (args e)),
           snd (readTokenData w (TransferEvent.to (args e)) (symbol token))))
       (set_userMetrics
          (upsertMetrics (TransferEvent.from (args e)) (symbol token)
             ("0", snd (readTokenData w (TransferEvent.from (args e)) (symbol token))))
          (set_console
             (fun ls =>
                (ls ++ [{| line_label :=
                             "[BALANCE ERROR] Insufficient balance for transfer: "
                             +:+ TransferEvent.from (args e) +:+ " has " +:+ Js.toString sFrom
                             +:+ ", trying to transfer "
                             +:+ Js.toString (TransferEvent.amount (args e));
                           line_error := None |}])%list)
             (exec (storeEvent (indexedTransfer token e)) w)))).
Proof.
  intros H Hfrom Hto HsF HsT Hlt. unfold onTransfer. open_run.
  step_storeEvent H.
  rewrite (eqb_zero_false _ Hfrom), (eqb_zero_false _ Hto).
  rewrite !find_reliable by assumption. cbv beta iota.
  rewrite storeEvent_userMetrics, !readCell_tokenArray.
  unfold amountSupplied, readTokenData in HsF, HsT.
  rewrite (js_BigInt_Some _ _ _ HsF). cbv beta iota.
  rewrite (geb_false _ _ Hlt).
  unfold mret, M_ret, ret, console_error. cbv beta iota.
  rewrite (js_BigInt_Some _ _ _ HsT). cbv beta iota.
  rewrite upsert_reliable by assumption. cbv beta iota.
  rewrite upsert_reliable by assumption.
  reflexivity.
Qed.

(* ===================================================================== *)
(** ** The balance table under [upsertMetrics] *)
(* ===================================================================== *)

Lemma upsertMetrics_lookup (user symbol : string) (data : TokenData)
    (t : gmap string MetricsRow) :
  exists row, upsertMetrics user symbol data t !! user = Some row
              /\ row !! symbol = Some [fst data; snd data]
              /\ forall other, other <> symbol ->
                   row !! other = (t !! user) ≫= (fun old => old !! other).
Proof.
  unfold upsertMetrics. destruct (t !! user) as [old|] eqn:E.
  - exists (<[symbol := [fst data; snd data]]> old). rewrite lookup_insert_eq.
    split; [reflexivity|]. split; [apply lookup_insert_eq|].
    intros other Hne. cbn. now rewrite lookup_insert_ne.
  - exists {[symbol := [fst data; snd data]]}. rewrite lookup_insert_eq.
    split; [reflexivity|]. split; [apply lookup_singleton_eq|].
    intros other Hne. cbn. now rewrite lookup_singleton_ne.
Qed.

Lemma upsertMetrics_lookup_ne (user symbol other : string) (data : TokenData)
    (t : gmap string MetricsRow) :
  other <> user -> upsertMetrics user symbol data t !! other = t !! other.
Proof.
  intros Hne. unfold upsertMetrics.
  destruct (t !! user); now rewrite lookup_insert_ne.
Qed.

(** Reading back what was written. *)
Lemma readCell_upsert (user symbol : string) (data : TokenData) (t : gmap string MetricsRow) :
  readCell (upsertMetrics user symbol data t) user symbol = data.
Proof.
  destruct (upsertMetrics_lookup user symbol data t) as (row & Hrow & Hcell & _).
  unfold readCell, tokenArrayOf. rewrite Hrow, Hcell. now destruct data.
Qed.

(** Every other cell reads as before. *)
Lemma readCell_upsert_other (user symbol user' symbol' : string) (data : TokenData)
    (t : gmap string MetricsRow) :
  user' <> user \/ symbol' <> symbol ->
  readCell (upsertMetrics user symbol data t) user' symbol' = readCell t user' symbol'.
Proof.
  intros Hne. unfold readCell.
  destruct (decide (user' = user)) as [->|Hu].
  - destruct Hne as [Hne|Hne]; [now elim Hne|].
    destruct (upsertMetrics_lookup user symbol data t) as (row & Hrow & _ & Hother).
    unfold tokenArrayOf. rewrite Hrow, (Hother _ Hne).
    now destruct (t !! user).
  - now rewrite upsertMetrics_lookup_ne.
Qed.

(** A second write of a cell wins over the first. *)
Lemma upsertMetrics_twice (user symbol : string) (d1 d2 : TokenData)
    (t : gmap string MetricsRow) :
  upsertMetrics user symbol d2 (upsertMetrics user symbol d1 t) = upsertMetrics user symbol d2 t.
Proof.
  unfold upsertMetrics at 1 2.
  destruct (t !! user) as [old|] eqn:E; rewrite lookup_insert_eq, insert_insert_eq.
  - unfold upsertMetrics. rewrite E. now rewrite insert_insert_eq.
  - unfold upsertMetrics. rewrite E. f_equal. now rewrite insert_singleton_eq.
Qed.

Lemma readTokenData_set_userMetrics (f : gmap string MetricsRow -> gmap string MetricsRow)
    (w : World) (user symbol : string) :
  readTokenData (set_userMetrics f w) user symbol = readCell (f (userMetrics w)) user symbol.
Proof. reflexivity. Qed.

(* ===================================================================== *)
(** ** [storeEvent] and the transaction log *)
(* ===================================================================== *)


(** A key that is already in the log: whatever the oracles say, the call
    returns and leaves the three tables as they are. *)
Lemma storeEvent_duplicate (event : IndexedEvent.t) (w : World) :
  has_tx (TxRow.id (transactionRow event)) (userTransactions w) = true ->
  userTransactions (exec (storeEvent event) w) = userTransactions w
  /\ userAddresses (exec (storeEvent event) w) = userAddresses w
  /\ userMetrics (exec (storeEvent event) w) = userMetrics w.
Proof.
  intros Hdup.
  unfold exec, storeEvent, try_catch, mbind, M_bind, bind, db_insert_userTransactions,
    storageCall, throw, logError, try_catch, fs_appendFile, console_error, throw.
  destruct (storageFaults w) as [|[|] rest]; cbn [userTransactions set_storageFaults];
    rewrite ?Hdup; cbv beta iota zeta; cbn [fsFaults set_console note_raised set_storageFaults];
    destruct (fsFaults w) as [|[|] rest']; cbn; auto.
Qed.

Lemma insert_tx_fresh (row : TxRow.t) (w : World) :
  storageReliable w ->
  has_tx (TxRow.id row) (userTransactions w) = false ->
  db_insert_userTransactions row w
  = (inr tt, set_userTransactions (fun rows => (rows ++ [row])%list) w).
Proof.
  intros H Hfresh. unfold db_insert_userTransactions.
  rewrite storageCall_reliable by assumption. now rewrite Hfresh.
Qed.

Lemma insert_addr_reliable (row : AddrRow.t) (w : World) :
  storageReliable w ->
  exists links,
    db_insert_userAddresses row w
    = (inr tt, set_userAddresses (fun rows => (rows ++ links)%list) w).
Proof.
  intros H. unfold db_insert_userAddresses.
  rewrite storageCall_reliable by assumption.
  destruct (has_addr _ _ _).
  - exists []. f_equal. destruct w. unfold set_userAddresses. cbn. now rewrite app_nil_r.
  - now exists [row].
Qed.

(** A new key over a reliable storage: one row is appended to the log,
    address links are only added, nothing is printed or logged. *)
Lemma storeEvent_fresh (event : IndexedEvent.t) (w : World) :
  storageReliable w ->
  has_tx (TxRow.id (transactionRow event)) (userTransactions w) = false ->
  userTransactions (exec (storeEvent event) w) = (userTransactions w ++ [transactionRow event])%list
  /\ (exists links, userAddresses (exec (storeEvent event) w) = (userAddresses w ++ links)%list)
  /\ console (exec (storeEvent event) w) = console w
  /\ errorsLog (exec (storeEvent event) w) = errorsLog w
  /\ raised (exec (storeEvent event) w) = raised w.
Proof.
  intros Hrel Hfresh.
  unfold exec, storeEvent, try_catch, mbind, M_bind, bind.
  rewrite insert_tx_fresh by assumption. cbv beta iota.
  set (w1 := set_userTransactions _ w).
  assert (Hrel1 : storageReliable w1) by exact Hrel.
  destruct (insert_addr_reliable
              {| AddrRow.userAddress := IndexedEvent.user event;
                 AddrRow.tokenSymbol := IndexedEvent.token event;
                 AddrRow.tokenAddress := IndexedEvent.tokenAddress event |} w1 Hrel1)
    as [l1 E1].
  rewrite E1. cbv beta iota.
  set (w2 := set_userAddresses _ w1).
  assert (Hrel2 : storageReliable w2) by exact Hrel.
  destruct (IndexedEvent.relatedAddress event) as [related|]; cbv beta iota.
  - destruct (Js.truthy (Some related)).
    + destruct (insert_addr_reliable
                  {| AddrRow.userAddress := related;
                     AddrRow.tokenSymbol := IndexedEvent.token event;
                     AddrRow.tokenAddress := IndexedEvent.tokenAddress event |} w2 Hrel2)
        as [l2 E2].
      rewrite E2. cbn. repeat split; try reflexivity.
      exists (l1 ++ l2)%list. now rewrite app_assoc.
    + cbn. repeat split; try reflexivity. now exists l1.
  - cbn. repeat split; try reflexivity. now exists l1.
Qed.



Lemma has_tx_app (id : string) (rows more : list TxRow.t) :
  has_tx id (rows ++ more) = has_tx id rows || has_tx id more.
Proof. unfold has_tx. apply existsb_app. Qed.

(** Over a reliable storage the key of the event is in the log once
    [storeEvent] is through, whether this call put it there or not. *)
Lemma storeEvent_logged (event : IndexedEvent.t) (w : World) :
  storageReliable w ->
  has_tx (TxRow.id (transactionRow event)) (userTransactions (exec (storeEvent event) w)) = true.
Proof.
  intros Hrel.
  destruct (has_tx (TxRow.id (transactionRow event)) (userTransactions w)) eqn:E.
  - destruct (storeEvent_duplicate event w E) as (-> & _). exact E.
  - destruct (storeEvent_fresh event w Hrel E) as (-> & _).
    rewrite has_tx_app. cbn. rewrite String.eqb_refl. now rewrite orb_true_r.
Qed.



(** The rejected duplicate is not silent: it is printed and logged as an
    error of the store. *)
Example duplicate_is_reported :
  let first := indexedBorrow DAI borrow100 in
  let w2 := exec (storeEvent first) (exec (storeEvent first) emptyWorld) in
  length (userTransactions w2) = 1%nat
  /\ errorsLog w2
     = [ {| log_context := "Failed to store event - Type: Borrow, User: " +:+ alice
                           +:+ ", Token: DAI";
            log_error := UniqueConstraintError |} ]
  /\ printedErrors w2 = [UniqueConstraintError].
Proof. vm_compute. repeat split; reflexivity. Qed.

(* ===================================================================== *)
(** ** Borrow and RepayBorrow: the reported total is written *)
(* ===================================================================== *)

(** What a callback that writes [(kept, toString v)] into the cell of
    [(user, symbol)] leaves there, [kept] being the supplied string read
    beforehand. *)
Lemma overwrite_borrowed (w w' : World) (user symbol : string) (v : Z) :
  userMetrics w'
  = upsertMetrics user symbol (fst (readTokenData w user symbol), Js.toString v) (userMetrics w) ->
  readTokenData w' user symbol = (fst (readTokenData w user symbol), Js.toString v)
  /\ amountBorrowed w' user symbol = Some v
  /\ amountSupplied w' user symbol = amountSupplied w user symbol.
Proof.
  intros H. unfold amountBorrowed, amountSupplied.
  assert (E : readTokenData w' user symbol = (fst (readTokenData w user symbol), Js.toString v)).
  { unfold readTokenData at 1. rewrite H. apply readCell_upsert. }
  rewrite E. cbn [fst snd]. now rewrite BigInt_toString.
Qed.

(** C4. Over a reliable storage, a Borrow or RepayBorrow event carrying
    [accountBorrows] leaves the borrower's pair for the token as
    [(amountSupplied as it was, accountBorrows)]: [amountBorrowed] is
    exactly [accountBorrows] and [amountSupplied] is unchanged. *)
Theorem borrow_repay_overwrite (token : TokenConfig) (w : World) :
  storageReliable w ->
  (forall e : Event BorrowEvent.t,
     let u := BorrowEvent.borrower (args e) in
     let w' := exec (onBorrow token e) w in
     readTokenData w' u (symbol token)
       = (fst (readTokenData w u (symbol token)),
          Js.toString (BorrowEvent.accountBorrows (args e)))
     /\ amountBorrowed w' u (symbol token) = Some (BorrowEvent.accountBorrows (args e))
     /\ amountSupplied w' u (symbol token) = amountSupplied w u (symbol token))
  /\ (forall e : Event RepayBorrowEvent.t,
        let u := RepayBorrowEvent.borrower (args e) in
        let w' := exec (onRepayBorrow token e) w in
        readTokenData w' u (symbol token)
          = (fst (readTokenData w u (symbol token)),
             Js.toString (RepayBorrowEvent.accountBorrows (args e)))
        /\ amountBorrowed w' u (symbol token) = Some (RepayBorrowEvent.accountBorrows (args e))
        /\ amountSupplied w' u (symbol token) = amountSupplied w u (symbol token)).
Proof.
  intros H. split; intros e u w'; apply overwrite_borrowed.
  - apply onBorrow_metrics, H.
  - apply onRepayBorrow_metrics, H.
Qed.

(** Scenario A: a borrow reported at 100, then a repayment reported at 60. *)
Lemma borrow_repay_overwrite_witness :
  amountBorrowed (exec (onBorrow DAI borrow100) emptyWorld) alice "DAI" = Some 100
  /\ amountBorrowed afterScenarioA alice "DAI" = Some 60
  /\ amountSupplied afterScenarioA alice "DAI"
     = amountSupplied (exec (onBorrow DAI borrow100) emptyWorld) alice "DAI".
Proof.
  split.
  - exact (proj1 (proj2 (proj1 (borrow_repay_overwrite DAI emptyWorld eq_refl) borrow100))).
  - exact (proj2 (proj2 (borrow_repay_overwrite DAI (exec (onBorrow DAI borrow100) emptyWorld)
                           eq_refl) repay40)).
Defined.

(** C5. Over a reliable storage, applying the same Borrow or RepayBorrow
    event twice in a row leaves the balance table, and so the borrower's
    [amountBorrowed], as one application leaves it, from any starting
    state. *)
Theorem borrow_repay_idempotent (token : TokenConfig) (w : World) :
  storageReliable w ->
  (forall e : Event BorrowEvent.t,
     let once := exec (onBorrow token e) w in
     let twice := exec (onBorrow token e) once in
     userMetrics twice = userMetrics once
     /\ amountBorrowed twice (BorrowEvent.borrower (args e)) (symbol token)
        = amountBorrowed once (BorrowEvent.borrower (args e)) (symbol token))
  /\ (forall e : Event RepayBorrowEvent.t,
        let once := exec (onRepayBorrow token e) w in
        let twice := exec (onRepayBorrow token e) once in
        userMetrics twice = userMetrics once
        /\ amountBorrowed twice (RepayBorrowEvent.borrower (args e)) (symbol token)
           = amountBorrowed once (RepayBorrowEvent.borrower (args e)) (symbol token)).
Proof.
  intros H.
  assert (Same : forall (w1 w2 : World) u s,
             userMetrics w2 = userMetrics w1 -> amountBorrowed w2 u s = amountBorrowed w1 u s).
  { intros w1 w2 u s E. unfold amountBorrowed, readTokenData. now rewrite E. }
  split; intros e once twice.
  - assert (E : userMetrics twice = userMetrics once).
    { subst twice. rewrite onBorrow_metrics by (apply (handle_reliable token (EvBorrow e)), H).
      subst once. rewrite onBorrow_metrics by exact H.
      unfold readTokenData at 1. cbn [userMetrics].
      rewrite onBorrow_metrics by exact H.
      rewrite readCell_upsert. cbn [fst]. apply upsertMetrics_twice. }
    split; [exact E | now apply Same].
  - assert (E : userMetrics twice = userMetrics once).
    { subst twice.
      rewrite onRepayBorrow_metrics by (apply (handle_reliable token (EvRepayBorrow e)), H).
      subst once. rewrite onRepayBorrow_metrics by exact H.
      unfold readTokenData at 1. cbn [userMetrics].
      rewrite onRepayBorrow_metrics by exact H.
      rewrite readCell_upsert. cbn [fst]. apply upsertMetrics_twice. }
    split; [exact E | now apply Same].
Qed.

Lemma borrow_repay_idempotent_witness :
  amountBorrowed (exec (onBorrow DAI borrow100) (exec (onBorrow DAI borrow100) emptyWorld))
    alice "DAI"
  = amountBorrowed (exec (onBorrow DAI borrow100) emptyWorld) alice "DAI".
Proof.
  exact (proj2 (proj1 (borrow_repay_idempotent DAI emptyWorld eq_refl) borrow100)).
Defined.

(* ===================================================================== *)
(** ** Mint and Redeem: the log only *)
(* ===================================================================== *)

(** A [try] around a computation that cannot throw is that computation. *)
Lemma try_of_returning (body : M unit) (handler : JsError -> M unit) (w : World) :
  outcome body w = inr tt -> try_catch body handler w = body w.
Proof.
  unfold outcome, try_catch. destruct (body w) as [[e|[]] w1]; cbn; congruence.
Qed.

Lemma onMint_run (token : TokenConfig) (e : Event MintEvent.t) (w : World) :
  onMint token e w = storeEvent (indexedMint token e) w.
Proof. unfold onMint. cbv zeta. apply try_of_returning, storeEvent_returns. Qed.

Lemma onRedeem_run (token : TokenConfig) (e : Event RedeemEvent.t) (w : World) :
  onRedeem token e w = storeEvent (indexedRedeem token e) w.
Proof. unfold onRedeem. cbv zeta. apply try_of_returning, storeEvent_returns. Qed.

(** C7. A Mint or Redeem event leaves the balance table as it is, in every
    world: every user's pair for every token reads as before.  Over a
    reliable storage and for an event not yet in the log, the only changes
    are one new row in the transaction log, for this event, and address
    links that are added; nothing is printed or logged as an error. *)
Theorem mint_redeem_log_only (token : TokenConfig) (w : World) :
  (forall e : Event MintEvent.t,
     let w' := exec (onMint token e) w in
     userMetrics w' = userMetrics w
     /\ (forall u s, readTokenData w' u s = readTokenData w u s)
     /\ (storageReliable w ->
         has_tx (txId (transaction_hash e) (log_logIndex e)) (userTransactions w) = false ->
         userTransactions w' = (userTransactions w ++ [transactionRow (indexedMint token e)])%list
         /\ (exists links, userAddresses w' = (userAddresses w ++ links)%list)
         /\ console w' = console w /\ errorsLog w' = errorsLog w))
  /\ (forall e : Event RedeemEvent.t,
        let w' := exec (onRedeem token e) w in
        userMetrics w' = userMetrics w
        /\ (forall u s, readTokenData w' u s = readTokenData w u s)
        /\ (storageReliable w ->
            has_tx (txId (transaction_hash e) (log_logIndex e)) (userTransactions w) = false ->
            userTransactions w'
              = (userTransactions w ++ [transactionRow (indexedRedeem token e)])%list
            /\ (exists links, userAddresses w' = (userAddresses w ++ links)%list)
            /\ console w' = console w /\ errorsLog w' = errorsLog w)).
Proof.
  split; intros e w'.
  - assert (E : userMetrics w' = userMetrics w)
      by now apply (onMint_keeps_metrics token e (userMetrics w) w).
    split; [exact E|]. split.
    + intros u s. unfold readTokenData. now rewrite E.
    + intros Hrel Hfresh. subst w'. unfold exec. rewrite onMint_run.
      destruct (storeEvent_fresh (indexedMint token e) w Hrel Hfresh)
        as (Htx & Haddr & Hcon & Hlog & _).
      auto.
  - assert (E : userMetrics w' = userMetrics w)
      by now apply (onRedeem_keeps_metrics token e (userMetrics w) w).
    split; [exact E|]. split.
    + intros u s. unfold readTokenData. now rewrite E.
    + intros Hrel Hfresh. subst w'. unfold exec. rewrite onRedeem_run.
      destruct (storeEvent_fresh (indexedRedeem token e) w Hrel Hfresh)
        as (Htx & Haddr & Hcon & Hlog & _).
      auto.
Qed.

(** A mint of 50 after scenario A: [alice]'s pair is still [("0", "60")] and
    the log has one more row. *)
Lemma mint_redeem_log_only_witness :
  readTokenData (exec (onMint DAI mint50) afterScenarioA) alice "DAI"
    = readTokenData afterScenarioA alice "DAI"
  /\ userTransactions (exec (onMint DAI mint50) afterScenarioA)
     = (userTransactions afterScenarioA ++ [transactionRow (indexedMint DAI mint50)])%list.
Proof.
  pose proof (proj1 (mint_redeem_log_only DAI afterScenarioA) mint50) as (_ & Hread & Hlog).
  split.
  - exact (Hread alice "DAI").
  - exact (proj1 (Hlog eq_refl eq_refl)).
Defined.

Example redeem_alone :
  let w' := exec (onRedeem DAI redeem20) aliceHolds5 in
  readTokenData w' alice "DAI" = ("5", "0")
  /\ length (userTransactions w') = S (length (userTransactions aliceHolds5)).
Proof. vm_compute. repeat split; reflexivity. Qed.

(* ===================================================================== *)
(** ** LiquidateBorrow: the repaid amount is subtracted *)
(* ===================================================================== *)

(** Over a reliable storage, a liquidation against a borrower with a stored
    pair writes the difference, whatever its sign, and prints nothing. *)
Lemma liquidate_subtracts (token : TokenConfig) (e : Event LiquidateBorrowEvent.t)
    (w : World) (supplied borrowed : string) (c : Z) :
  storageReliable w ->
  tokenArrayOf (userMetrics w !! LiquidateBorrowEvent.borrower (args e)) (symbol token)
    = Some (supplied, borrowed) ->
  Js.BigInt borrowed = Some c ->
  let w' := exec (onLiquidateBorrow token e) w in
  readTokenData w' (LiquidateBorrowEvent.borrower (args e)) (symbol token)
    = (supplied, Js.toString (c - LiquidateBorrowEvent.repayAmount (args e)))
  /\ amountBorrowed w' (LiquidateBorrowEvent.borrower (args e)) (symbol token)
     = Some (c - LiquidateBorrowEvent.repayAmount (args e))
  /\ console w' = console (exec (storeEvent (indexedLiquidateBorrow token e)) w)
  /\ userTransactions w' = userTransactions (exec (storeEvent (indexedLiquidateBorrow token e)) w).
Proof.
  intros H Hcell Hc w'. subst w'.
  rewrite (exec_of_run _ _ _ _ (onLiquidateBorrow_run token e w supplied borrowed c H Hcell Hc)).
  unfold amountBorrowed. rewrite readTokenData_set_userMetrics, readCell_upsert.
  cbn [snd]. rewrite BigInt_toString. repeat split; reflexivity.
Qed.

(** A liquidation against a borrower without a stored pair writes
    [("0", "0")]. *)
Lemma liquidate_absent_writes_zero (token : TokenConfig) (e : Event LiquidateBorrowEvent.t)
    (w : World) :
  storageReliable w ->
  tokenArrayOf (userMetrics w !! LiquidateBorrowEvent.borrower (args e)) (symbol token) = None ->
  readTokenData (exec (onLiquidateBorrow token e) w)
    (LiquidateBorrowEvent.borrower (args e)) (symbol token) = ("0", "0").
Proof.
  intros H Hcell.
  rewrite (exec_of_run _ _ _ _ (onLiquidateBorrow_run_absent token e w H Hcell)).
  rewrite readTokenData_set_userMetrics. apply readCell_upsert.
Qed.

(** Scenario C: after scenario A, a liquidation repaying 10 leaves 50. *)
Example scenario_C :
  amountBorrowed (exec (onLiquidateBorrow DAI (liquidate 10)) afterScenarioA) alice "DAI"
  = Some 50.
Proof. vm_compute. reflexivity. Qed.

(** C1 (the code departs from it). After scenario A [alice] owes 60; a
    LiquidateBorrow repaying 100 leaves her [amountBorrowed] at [-40], not at
    [max(0, 60 - 100) = 0], and nothing is printed or logged: the stored
    pair is [("0", "-40")]. *)
Theorem liquidation_beyond_debt_stores_negative :
  let w' := exec (onLiquidateBorrow DAI (liquidate 100)) afterScenarioA in
  amountBorrowed afterScenarioA alice "DAI" = Some 60
  /\ readTokenData w' alice "DAI" = ("0", "-40")
  /\ amountBorrowed w' alice "DAI" = Some (-40)
  /\ console w' = console afterScenarioA
  /\ errorsLog w' = errorsLog afterScenarioA.
Proof. vm_compute. repeat split; reflexivity. Qed.

(* ===================================================================== *)
(** ** Transfer: debit, credit and the clamp at zero *)
(* ===================================================================== *)

(** A transfer to the zero address that moves no more than the sender is
    recorded to hold debits the sender. *)
Lemma transfer_burn_debits (token : TokenConfig) (e : Event TransferEvent.t)
    (w : World) (s : Z) :
  storageReliable w ->
  TransferEvent.from (args e) <> zeroAddress ->
  TransferEvent.to (args e) = zeroAddress ->
  amountSupplied w (TransferEvent.from (args e)) (symbol token) = Some s ->
  TransferEvent.amount (args e) <= s ->
  amountSupplied (exec (onTransfer token e) w) (TransferEvent.from (args e)) (symbol token)
  = Some (s - TransferEvent.amount (args e)).
Proof.
  intros H Hfrom Hto Hs Hle.
  rewrite (exec_of_run _ _ _ _ (onTransfer_burn_run token e w s H Hfrom Hto Hs Hle)).
  unfold amountSupplied. rewrite readTokenData_set_userMetrics, readCell_upsert.
  cbn [fst]. apply BigInt_toString.
Qed.

(** Scenario B: 50 market tokens issued to [alice], who then sends 20 to
    [bob]. *)
Example scenario_B :
  let w1 := exec (onTransfer DAI (transfer zeroAddress alice 50 "0xb010")) afterScenarioA in
  let w2 := exec (onTransfer DAI (transfer alice bob 20 "0xb011")) w1 in
  amountSupplied afterScenarioA alice "DAI" = Some 0
  /\ amountSupplied w1 alice "DAI" = Some 50
  /\ amountSupplied w2 alice "DAI" = Some 30
  /\ amountSupplied w2 bob "DAI" = Some 20
  /\ amountBorrowed w2 alice "DAI" = Some 60.
Proof. vm_compute. repeat split; reflexivity. Qed.

(** C6, as the code has it. Over a reliable storage, a transfer (to the
    zero address, or to another address whose stored amount is readable)
    that moves more than the sender is recorded to hold, from a sender that
    is not also the receiver: the sender's [amountSupplied] becomes ["0"],
    exactly one line is printed with [console.error], nothing is appended to
    the error log, and the event is logged (its key being new). *)
Theorem transfer_underflow_clamps (token : TokenConfig) (e : Event TransferEvent.t)
    (w : World) (s : Z) :
  storageReliable w ->
  TransferEvent.from (args e) <> zeroAddress ->
  TransferEvent.from (args e) <> TransferEvent.to (args e) ->
  amountSupplied w (TransferEvent.from (args e)) (symbol token) = Some s ->
  s < TransferEvent.amount (args e) ->
  TransferEvent.to (args e) = zeroAddress
    \/ is_Some (amountSupplied w (TransferEvent.to (args e)) (symbol token)) ->
  has_tx (txId (transaction_hash e) (log_logIndex e)) (userTransactions w) = false ->
  let w' := exec (onTransfer token e) w in
  fst (readTokenData w' (TransferEvent.from (args e)) (symbol token)) = "0"
  /\ amountSupplied w' (TransferEvent.from (args e)) (symbol token) = Some 0
  /\ (exists line, console w' = (console w ++ [line])%list /\ line_error line = None)
  /\ errorsLog w' = errorsLog w
  /\ userTransactions w' = (userTransactions w ++ [transactionRow (indexedTransfer token e)])%list.
Proof.
  intros H Hfrom Hne Hs Hlt Hto Hfresh w'.
  destruct (storeEvent_fresh (indexedTransfer token e) w H Hfresh)
    as (Htx & _ & Hcon & Hlog & _).
  assert (Hzero : forall w0, fst (readTokenData w0 (TransferEvent.from (args e)) (symbol token)) = "0" ->
                    amountSupplied w0 (TransferEvent.from (args e)) (symbol token) = Some 0).
  { intros w0 E. unfold amountSupplied. now rewrite E. }
  destruct (decide (TransferEvent.to (args e) = zeroAddress)) as [Hz|Hnz].
  - subst w'.
    rewrite (exec_of_run _ _ _ _ (onTransfer_burn_underflow_run token e w s H Hfrom Hz Hs Hlt)).
    assert (E : fst (readTokenData
                       (set_userMetrics
                          (upsertMetrics (TransferEvent.from (args e)) (symbol token)
                             ("0", snd (readTokenData w (TransferEvent.from (args e)) (symbol token))))
                          (set_console
                             (fun ls => (ls ++ [{| line_label :=
                                 "[BALANCE ERROR] Insufficient balance for burn: "
                                 +:+ TransferEvent.from (args e) +:+ " has " +:+ Js.toString s
                                 +:+ ", trying to burn "
                                 +:+ Js.toString (TransferEvent.amount (args e));
                                 line_error := None |}])%list)
                             (exec (storeEvent (indexedTransfer token e)) w)))
                       (TransferEvent.from (args e)) (symbol token)) = "0").
    { rewrite readTokenData_set_userMetrics, readCell_upsert. reflexivity. }
    split; [exact E|]. split; [now apply Hzero|].
    cbn [console errorsLog userTransactions set_userMetrics set_console].
    rewrite Hcon, Hlog, Htx. eauto.
  - destruct Hto as [Hz|[sTo HsTo]]; [contradiction|].
    subst w'.
    rewrite (exec_of_run _ _ _ _
               (onTransfer_ordinary_underflow_run token e w s sTo H Hfrom Hnz Hs HsTo Hlt)).
    match goal with
    | |- fst (readTokenData ?W _ _) = _ /\ _ =>
        assert (E : fst (readTokenData W (TransferEvent.from (args e)) (symbol token)) = "0")
    end.
    { rewrite readTokenData_set_userMetrics. cbn [userMetrics set_userMetrics].
      rewrite readCell_upsert_other by (left; exact Hne).
      now rewrite readCell_upsert. }
    split; [exact E|]. split; [now apply Hzero|].
    cbn [console errorsLog userTransactions set_userMetrics set_console].
    rewrite Hcon, Hlog, Htx. eauto.
Qed.

(** Scenario D: 1000 are moved from an address recorded to hold 5. *)
Example scenario_D :
  let w' := exec (onTransfer DAI (transfer alice bob 1000 "0xd001")) aliceHolds5 in
  amountSupplied aliceHolds5 alice "DAI" = Some 5
  /\ amountSupplied w' alice "DAI" = Some 0
  /\ length (console w') = S (length (console aliceHolds5))
  /\ length (userTransactions w') = S (length (userTransactions aliceHolds5)).
Proof. vm_compute. repeat split; reflexivity. Qed.

(** Scenario D between two addresses, as an instance of the theorem. *)
Lemma transfer_underflow_clamps_witness :
  let e := transfer alice bob 1000 "0xd001" in
  let w' := exec (onTransfer DAI e) aliceHolds5 in
  fst (readTokenData w' alice "DAI") = "0"
  /\ amountSupplied w' alice "DAI" = Some 0
  /\ (exists line, console w' = (console aliceHolds5 ++ [line])%list /\ line_error line = None)
  /\ errorsLog w' = errorsLog aliceHolds5
  /\ userTransactions w'
     = (userTransactions aliceHolds5 ++ [transactionRow (indexedTransfer DAI e)])%list.
Proof.
  refine (transfer_underflow_clamps DAI (transfer alice bob 1000 "0xd001") aliceHolds5 5
            _ _ _ _ _ _ _).
  - vm_compute. reflexivity.
  - vm_compute. discriminate.
  - vm_compute. discriminate.
  - vm_compute. reflexivity.
  - vm_compute. reflexivity.
  - right. exists 0. vm_compute. reflexivity.
  - vm_compute. reflexivity.
Defined.

(** When the sender is also the receiver the clamp does not hold. [alice]
    is recorded to hold 5; an ordinary transfer of 1000 from [alice] to
    [alice] asks for more than she holds.  The line of the clamp is printed,
    yet her [amountSupplied] ends at 1005, not at zero: the credit, computed
    from the pair read before the debit was written, is written over the
    clamped debit (the case of C9). *)
Theorem self_transfer_underflow_not_clamped :
  let w' := exec (onTransfer DAI (transfer alice alice 1000 "0xd002")) aliceHolds5 in
  amountSupplied aliceHolds5 alice "DAI" = Some 5
  /\ amountSupplied w' alice "DAI" = Some 1005
  /\ console w'
     = [ {| line_label :=
              "[BALANCE ERROR] Insufficient balance for transfer: " +:+ alice
              +:+ " has 5, trying to transfer 1000";
            line_error := None |} ]
  /\ length (userTransactions w') = S (length (userTransactions aliceHolds5)).
Proof. vm_compute. repeat split; reflexivity. Qed.

(** C6 as the spec states it, for every sender, fails: the self-transfer
    above is a Transfer whose amount exceeds what the sender holds and that
    does not leave the sender at zero. *)
Lemma underflow_clamp_fails_on_self_transfer :
  ~ (forall (token : TokenConfig) (e : Event TransferEvent.t) (w : World) (s : Z),
       storageReliable w ->
       TransferEvent.from (args e) <> zeroAddress ->
       amountSupplied w (TransferEvent.from (args e)) (symbol token) = Some s ->
       s < TransferEvent.amount (args e) ->
       amountSupplied (exec (onTransfer token e) w) (TransferEvent.from (args e))
         (symbol token) = Some 0).
Proof.
  intros claim.
  specialize (claim DAI (transfer alice alice 1000 "0xd002") aliceHolds5 5).
  assert (E : amountSupplied (exec (onTransfer DAI (transfer alice alice 1000 "0xd002"))
                                aliceHolds5) alice "DAI" = Some 1005)
    by (vm_compute; reflexivity).
  assert (Habs : Some 1005 = Some 0); [|discriminate Habs].
  rewrite <- E. apply claim.
  - reflexivity.
  - vm_compute. discriminate.
  - vm_compute. reflexivity.
  - vm_compute. reflexivity.
Qed.

(** C9. Over a reliable storage, an ordinary transfer whose sender and
    receiver are one address, recorded to hold [s], leaves that address with
    [s + amount]: the credit is written second and was computed from the
    pair read before the debit. *)
Theorem self_transfer_credits (token : TokenConfig) (e : Event TransferEvent.t)
    (w : World) (s : Z) :
  storageReliable w ->
  TransferEvent.from (args e) <> zeroAddress ->
  TransferEvent.to (args e) = TransferEvent.from (args e) ->
  amountSupplied w (TransferEvent.from (args e)) (symbol token) = Some s ->
  amountSupplied (exec (onTransfer token e) w) (TransferEvent.from (args e)) (symbol token)
  = Some (s + TransferEvent.amount (args e)).
Proof.
  intros H Hfrom Hself Hs.
  assert (Hto : TransferEvent.to (args e) <> zeroAddress) by now rewrite Hself.
  assert (HsTo : amountSupplied w (TransferEvent.to (args e)) (symbol token) = Some s)
    by now rewrite Hself.
  destruct (Z_le_gt_dec (TransferEvent.amount (args e)) s) as [Hle|Hgt].
  - rewrite (exec_of_run _ _ _ _ (onTransfer_ordinary_run token e w s s H Hfrom Hto Hs HsTo Hle)).
    unfold amountSupplied. rewrite readTokenData_set_userMetrics, Hself, readCell_upsert.
    cbn [fst]. apply BigInt_toString.
  - assert (Hlt : s < TransferEvent.amount (args e)) by lia.
    rewrite (exec_of_run _ _ _ _
               (onTransfer_ordinary_underflow_run token e w s s H Hfrom Hto Hs HsTo Hlt)).
    unfold amountSupplied. rewrite readTokenData_set_userMetrics, Hself, readCell_upsert.
    cbn [fst]. apply BigInt_toString.
Qed.

Lemma self_transfer_credits_witness :
  amountSupplied (exec (onTransfer DAI (transfer alice alice 3 "0xd003")) aliceHolds5) alice "DAI"
  = Some (5 + 3).
Proof.
  apply (self_transfer_credits DAI (transfer alice alice 3 "0xd003") aliceHolds5 5);
    [reflexivity | discriminate | reflexivity | reflexivity].
Defined.

Lemma tokenArrayOf_upsert (user symbol : string) (data : TokenData)
    (t : gmap string MetricsRow) :
  tokenArrayOf (upsertMetrics user symbol data t !! user) symbol = Some data.
Proof.
  destruct (upsertMetrics_lookup user symbol data t) as (row & Hrow & Hcell & _).
  unfold tokenArrayOf. rewrite Hrow, Hcell. now destruct data.
Qed.

(** Over a reliable storage, an ordinary transfer between two different
    addresses that moves no more than the sender is recorded to hold: the
    sender loses the amount, the receiver gains it, and nobody else's pair
    for the token changes. *)
Lemma transfer_ordinary_moves (token : TokenConfig) (e : Event TransferEvent.t)
    (w : World) (sFrom sTo : Z) :
  storageReliable w ->
  TransferEvent.from (args e) <> zeroAddress ->
  TransferEvent.to (args e) <> zeroAddress ->
  TransferEvent.from (args e) <> TransferEvent.to (args e) ->
  amountSupplied w (TransferEvent.from (args e)) (symbol token) = Some sFrom ->
  amountSupplied w (TransferEvent.to (args e)) (symbol token) = Some sTo ->
  TransferEvent.amount (args e) <= sFrom ->
  let w' := exec (onTransfer token e) w in
  amountSupplied w' (TransferEvent.from (args e)) (symbol token)
    = Some (sFrom - TransferEvent.amount (args e))
  /\ amountSupplied w' (TransferEvent.to (args e)) (symbol token)
     = Some (sTo + TransferEvent.amount (args e))
  /\ (forall u, u <> TransferEvent.from (args e) -> u <> TransferEvent.to (args e) ->
        readTokenData w' u (symbol token) = readTokenData w u (symbol token))
  /\ storageReliable w'
  /\ userTransactions w' = userTransactions (exec (storeEvent (indexedTransfer token e)) w).
Proof.
  intros H Hfrom Hto Hne HsF HsT Hle w'. subst w'.
  rewrite (exec_of_run _ _ _ _ (onTransfer_ordinary_run token e w sFrom sTo H Hfrom Hto HsF HsT Hle)).
  unfold amountSupplied. rewrite !readTokenData_set_userMetrics.
  cbn [userMetrics set_userMetrics]. rewrite storeEvent_userMetrics.
  repeat split.
  - rewrite readCell_upsert_other by (left; exact Hne).
    rewrite readCell_upsert. cbn [fst]. apply BigInt_toString.
  - rewrite readCell_upsert. cbn [fst]. apply BigInt_toString.
  - intros u Hu1 Hu2. rewrite readTokenData_set_userMetrics.
    cbn [userMetrics set_userMetrics]. rewrite storeEvent_userMetrics.
    rewrite !readCell_upsert_other by (left; assumption). reflexivity.
  - apply (storeEvent_reliable (indexedTransfer token e) w H).
Qed.

(** A transfer from the zero address credits the receiver. *)
Lemma transfer_mint_credits (token : TokenConfig) (e : Event TransferEvent.t)
    (w : World) (s : Z) :
  storageReliable w ->
  TransferEvent.from (args e) = zeroAddress ->
  amountSupplied w (TransferEvent.to (args e)) (symbol token) = Some s ->
  let w' := exec (onTransfer token e) w in
  amountSupplied w' (TransferEvent.to (args e)) (symbol token)
    = Some (s + TransferEvent.amount (args e))
  /\ storageReliable w'
  /\ userTransactions w' = userTransactions (exec (storeEvent (indexedTransfer token e)) w).
Proof.
  intros H Hfrom Hs w'. subst w'.
  rewrite (exec_of_run _ _ _ _ (onTransfer_mint_run token e w s H Hfrom Hs)).
  unfold amountSupplied. rewrite readTokenData_set_userMetrics, readCell_upsert.
  cbn [fst]. rewrite BigInt_toString. repeat split.
  apply (storeEvent_reliable (indexedTransfer token e) w H).
Qed.

(** The log after a second [storeEvent] of one event, over a storage that
    was reliable the first time. *)
Lemma storeEvent_again (event : IndexedEvent.t) (w w1 : World) :
  storageReliable w ->
  userTransactions w1 = userTransactions (exec (storeEvent event) w) ->
  has_tx (TxRow.id (transactionRow event)) (userTransactions w1) = true
  /\ userTransactions (exec (storeEvent event) w1) = userTransactions w1.
Proof.
  intros H E.
  assert (Hdup : has_tx (TxRow.id (transactionRow event)) (userTransactions w1) = true)
    by (rewrite E; now apply storeEvent_logged).
  split; [exact Hdup | apply (storeEvent_duplicate event w1 Hdup)].
Qed.

(* ===================================================================== *)
(** ** Ordinary transfers inside a set of addresses *)
(* ===================================================================== *)

Lemma sum_agree (f g : string -> Z) (users : list string) :
  (forall u, u ∈ users -> g u = f u) ->
  foldr Z.add 0 (map g users) = foldr Z.add 0 (map f users).
Proof.
  induction users as [|x users IH]; intros H; [reflexivity|].
  cbn. rewrite (H x) by apply list_elem_of_here.
  rewrite IH; [reflexivity|]. intros u Hu. apply H. now apply list_elem_of_further.
Qed.

(** Changing the value at one address of a duplicate-free list changes the
    sum by the difference. *)
Lemma sum_change_one (f g : string -> Z) (users : list string) (x : string) :
  NoDup users -> x ∈ users ->
  (forall u, u ∈ users -> u <> x -> g u = f u) ->
  foldr Z.add 0 (map g users) = foldr Z.add 0 (map f users) + (g x - f x).
Proof.
  induction users as [|y users IH]; intros Hnd Hx H.
  - now apply elem_of_nil in Hx.
  - apply NoDup_cons in Hnd as [Hy Hnd]. cbn.
    apply elem_of_cons in Hx as [->|Hx].
    + rewrite (sum_agree f g users); [lia|].
      intros u Hu. apply H; [now apply list_elem_of_further|].
      intros ->. contradiction.
    + rewrite IH; try assumption.
      * rewrite (H y); [lia | apply list_elem_of_here | intros ->; contradiction].
      * intros u Hu Hne. apply H; [now apply list_elem_of_further | exact Hne].
Qed.

(** Moving [a] from one address to another keeps the sum. *)
Lemma sum_move (f g : string -> Z) (users : list string) (from to : string) (a : Z) :
  NoDup users -> from ∈ users -> to ∈ users -> from <> to ->
  g from = f from - a -> g to = f to + a ->
  (forall u, u ∈ users -> u <> from -> u <> to -> g u = f u) ->
  foldr Z.add 0 (map g users) = foldr Z.add 0 (map f users).
Proof.
  intros Hnd Hfrom Hto Hne Hgf Hgt Hrest.
  set (h := fun u => if decide (u = from) then g u else f u).
  assert (Hh : foldr Z.add 0 (map h users) = foldr Z.add 0 (map f users) + (h from - f from)).
  { apply sum_change_one; try assumption.
    intros u _ Hu. unfold h. now destruct (decide (u = from)). }
  assert (Hg : foldr Z.add 0 (map g users) = foldr Z.add 0 (map h users) + (g to - h to)).
  { apply sum_change_one; try assumption.
    intros u Hu Hu'. unfold h. destruct (decide (u = from)); [reflexivity|].
    now apply Hrest. }
  rewrite Hg, Hh. unfold h.
  destruct (decide (from = from)); [|contradiction].
  destruct (decide (to = from)) as [E|_]; [now elim Hne|].
  lia.
Qed.

Lemma processStream_cons (token : TokenConfig) (ev : ProtocolEvent)
    (rest : list (TokenConfig * ProtocolEvent)) (w : World) :
  exec (processStream ((token, ev) :: rest)) w
  = exec (processStream rest) (exec (handle token ev) w).
Proof.
  unfold exec at 1 2. now rewrite !processStream_run.
Qed.

(** C3, as the code has it. Over a reliable storage, take a duplicate-free
    list of addresses whose [amountSupplied] for the token are all readable,
    and a sequence of ordinary Transfer events of that token whose senders and
    receivers are in the list.  If every transfer goes between two different
    addresses and moves no more than its sender is recorded to hold when it
    is processed, the sum of [amountSupplied] over the list is the same
    after the sequence as before. *)
Theorem transfer_conservation (token : TokenConfig) (users : list string)
    (events : list (Event TransferEvent.t)) (w : World) :
  NoDup users ->
  storageReliable w ->
  Forall (fun u => is_Some (amountSupplied w u (symbol token))) users ->
  Forall (ordinaryWithin users) events ->
  fundedTransfers token w events ->
  totalSupplied (exec (processStream (transfersOf token events)) w) (symbol token) users
  = totalSupplied w (symbol token) users.
Proof.
  intros Hnd. revert w. induction events as [|e events IH]; intros w Hrel Hread Hord Hfund.
  - reflexivity.
  - cbn [transfersOf map]. rewrite processStream_cons. cbn [handle].
    apply Forall_cons in Hord as [(Hfrom & Hto & HinF & HinT) Hord].
    destruct Hfund as (Hne & (sF & HsF & Hle) & Hfund).
    rewrite Forall_forall in Hread.
    destruct (Hread _ HinT) as [sT HsT].
    destruct (transfer_ordinary_moves token e w sF sT Hrel Hfrom Hto Hne HsF HsT Hle)
      as (HsF' & HsT' & Hothers & Hrel' & _).
    set (w' := exec (onTransfer token e) w) in *.
    fold (transfersOf token events).
    rewrite IH; try assumption.
    + unfold totalSupplied.
      apply (sum_move _ _ users (TransferEvent.from (args e)) (TransferEvent.to (args e))
               (TransferEvent.amount (args e))); try assumption.
      * unfold suppliedOr0. now rewrite HsF', HsF.
      * unfold suppliedOr0. now rewrite HsT', HsT.
      * intros u _ Hu1 Hu2. unfold suppliedOr0, amountSupplied. now rewrite Hothers.
    + rewrite Forall_forall. intros u Hu.
      destruct (decide (u = TransferEvent.from (args e))) as [->|Hu1]; [now rewrite HsF'|].
      destruct (decide (u = TransferEvent.to (args e))) as [->|Hu2]; [now rewrite HsT'|].
      unfold amountSupplied. rewrite Hothers by assumption. now apply Hread.
Qed.

(** [alice] sends 3 to [bob], who then sends 4 back: 5 + 2 before, 6 + 1
    after. *)
Lemma transfer_conservation_witness :
  totalSupplied
    (exec (processStream
             (transfersOf DAI [transfer alice bob 3 "0xd010"; transfer bob alice 4 "0xd011"]))
          aliceAndBob)
    "DAI" [alice; bob]
  = totalSupplied aliceAndBob "DAI" [alice; bob].
Proof.
  apply (transfer_conservation DAI [alice; bob]
           [transfer alice bob 3 "0xd010"; transfer bob alice 4 "0xd011"] aliceAndBob).
  - apply NoDup_cons. split; [|apply NoDup_singleton].
    intros H. apply list_elem_of_singleton in H. discriminate.
  - reflexivity.
  - repeat constructor; eexists; vm_compute; reflexivity.
  - repeat constructor; try discriminate; vm_compute; auto.
  - cbn [fundedTransfers]. repeat split; try discriminate.
    + exists 5. split; [vm_compute; reflexivity | cbn; lia].
    + exists 5. split; [vm_compute; reflexivity | cbn; lia].
Defined.

(** C3 as the spec states it fails: with [alice] recorded to hold 5 and
    [bob] nothing, one ordinary transfer of 1000 from [alice] to [bob] takes
    the sum over [[alice; bob]] from 5 to 1000 (the debit is clamped at zero,
    the credit is not). *)
Lemma transfer_conservation_unconditional_fails :
  ~ (forall (token : TokenConfig) (users : list string)
       (events : list (Event TransferEvent.t)) (w : World),
       NoDup users ->
       zeroAddress ∉ users ->
       storageReliable w ->
       Forall (ordinaryWithin users) events ->
       totalSupplied (exec (processStream (transfersOf token events)) w) (symbol token) users
       = totalSupplied w (symbol token) users).
Proof.
  intros claim.
  specialize (claim DAI [alice; bob] [transfer alice bob 1000 "0xd001"] aliceHolds5).
  assert (E : totalSupplied
                (exec (processStream (transfersOf DAI [transfer alice bob 1000 "0xd001"]))
                      aliceHolds5) "DAI" [alice; bob] = 1000) by (vm_compute; reflexivity).
  assert (E0 : totalSupplied aliceHolds5 "DAI" [alice; bob] = 5) by (vm_compute; reflexivity).
  cbn [symbol DAI] in claim. rewrite E, E0 in claim.
  assert (1000 = 5) as Habs; [|discriminate Habs].
  apply claim.
  - apply NoDup_cons. split; [|apply NoDup_singleton].
    intros H. apply list_elem_of_singleton in H. discriminate.
  - intros H. apply elem_of_cons in H as [H|H]; [discriminate|].
    apply list_elem_of_singleton in H. discriminate.
  - reflexivity.
  - repeat constructor; try discriminate; vm_compute; auto.
Qed.

(* ===================================================================== *)
(** ** Every exception is caught and reported *)
(* ===================================================================== *)

Lemma printedErrors_console (f : list ConsoleLine -> list ConsoleLine) (w : World) :
  printedErrors (set_console f w) = omap line_error (f (console w)).
Proof. reflexivity. Qed.

Lemma tracked_ret {A} (a : A) : tracked (mret a).
Proof. intros fsok p0 r0 l0 w Hw. exact Hw. Qed.

Lemma tracked_throw {A} (e : JsError) : tracked (@throw A e).
Proof.
  intros fsok p0 r0 l0 w (d & Hp & Hr & Hfs). exists d. cbn.
  split; [exact Hp|]. split; [|exact Hfs].
  rewrite Hr, app_nil_r. now rewrite <- app_assoc.
Qed.

Lemma tracked_bind {A B} (c : M A) (k : A -> M B) :
  tracked c -> (forall a, tracked (k a)) -> tracked (c ≫= k).
Proof.
  intros Hc Hk fsok p0 r0 l0.
  apply (hoare_bind _ (fun r w => trackedAt fsok p0 r0 l0 (pending r) w)).
  - apply Hc.
  - intros e w Hw. exact Hw.
  - intros a. apply Hk.
Qed.

Lemma tracked_try_catch {A} (body : M A) (handler : JsError -> M A) :
  tracked body -> (forall e, catches e (handler e)) -> tracked (try_catch body handler).
Proof.
  intros Hb Hh fsok p0 r0 l0.
  apply (hoare_try_catch _ (fun r w => trackedAt fsok p0 r0 l0 (pending r) w)).
  - apply Hb.
  - intros a w Hw. exact Hw.
  - intros e. apply Hh.
Qed.

Lemma tracked_storageCall {A} (op : M A) : tracked op -> tracked (storageCall op).
Proof.
  intros Hop fsok p0 r0 l0. apply hoare_storageCall.
  - intros w rest Hw _.
    apply (tracked_throw (A:=A) StorageError fsok p0 r0 l0 (set_storageFaults rest w)).
    exact Hw.
  - intros w rest Hw _. apply Hop. exact Hw.
  - intros w Hw _. now apply Hop.
Qed.

Lemma tracked_js_BigInt (s : string) : tracked (js_BigInt s).
Proof.
  unfold js_BigInt. destruct (Js.BigInt s); [apply tracked_ret | apply tracked_throw].
Qed.

Lemma tracked_find (userAddress : string) : tracked (db_find_userMetrics userAddress).
Proof. apply tracked_storageCall. intros fsok p0 r0 l0 w Hw. exact Hw. Qed.

Lemma tracked_upsert (userAddress symbol : string) (data : TokenData) :
  tracked (db_upsert_userMetrics userAddress symbol data).
Proof. apply tracked_storageCall. intros fsok p0 r0 l0 w Hw. exact Hw. Qed.

Lemma tracked_insert_tx (row : TxRow.t) : tracked (db_insert_userTransactions row).
Proof.
  apply tracked_storageCall. intros fsok p0 r0 l0 w Hw. unfold outcome, exec.
  destruct (has_tx (TxRow.id row) (userTransactions w)).
  - now apply (tracked_throw (A:=unit) UniqueConstraintError fsok p0 r0 l0 w).
  - exact Hw.
Qed.

Lemma tracked_insert_addr (row : AddrRow.t) : tracked (db_insert_userAddresses row).
Proof.
  apply tracked_storageCall. intros fsok p0 r0 l0 w Hw. unfold outcome, exec.
  destruct (has_addr _ _ _); exact Hw.
Qed.

(** A line without an error object does not count as a report. *)
Lemma tracked_console_note (label : string) : tracked (console_error label None).
Proof.
  intros fsok p0 r0 l0 w (d & Hp & Hr & Hfs). exists d.
  unfold exec, outcome, console_error. cbn [fst snd pending].
  rewrite printedErrors_console, omap_app. cbn. rewrite app_nil_r.
  cbn [raised fsFaults errorsLog set_console]. auto.
Qed.

Lemma printedErrors_report (label : string) (e : JsError) (w w' : World) :
  console w' = (console w ++ [{| line_label := label; line_error := Some e |}])%list ->
  printedErrors w' = (printedErrors w ++ [e])%list.
Proof. unfold printedErrors. intros ->. now rewrite omap_app. Qed.

Lemma printedErrors_report2 (label label' : string) (e e' : JsError) (w w' : World) :
  console w' = ((console w ++ [{| line_label := label; line_error := Some e |}])
                ++ [{| line_label := label'; line_error := Some e' |}])%list ->
  printedErrors w' = (printedErrors w ++ [e; e'])%list.
Proof. unfold printedErrors. intros ->. rewrite !omap_app, <- app_assoc. reflexivity. Qed.

(** The [catch] clause of every callback and of [storeEvent]: the error is
    printed; it is appended to the log if the file system lets it, and the
    failure of the append is printed if it does not. *)
Lemma catches_report (label context : string) (e : JsError) :
  catches e (console_error label (Some e);; logError e context).
Proof.
  intros fsok p0 r0 l0 w (d & Hp & Hr & Hfs).
  unfold outcome, exec, mbind, M_bind, bind, logError, try_catch, console_error,
    fs_appendFile, throw.
  cbn [fsFaults set_console].
  destruct (fsFaults w) as [|[|] rest] eqn:E; cbn [fst snd pending].
  - exists (d ++ [e])%list.
    rewrite (printedErrors_report label e w) by reflexivity.
    cbn [raised errorsLog fsFaults set_console set_errorsLog].
    rewrite Hp, Hr, app_nil_r, <- !app_assoc.
    split; [reflexivity|]. split; [reflexivity|].
    intros Hok. destruct (Hfs Hok) as [_ Hl]. split; [exact E|].
    rewrite map_app, Hl. cbn. now rewrite <- app_assoc.
  - exists (d ++ [e; FsError])%list.
    rewrite (printedErrors_report2 label "Failed to write to error log:" e FsError w)
      by reflexivity.
    cbn [raised errorsLog fsFaults set_console set_errorsLog set_fsFaults note_raised].
    rewrite Hp, Hr, app_nil_r, <- !app_assoc.
    split; [reflexivity|]. split; [reflexivity|].
    intros Hok. destruct (Hfs Hok) as [Hno _]. discriminate.
  - exists (d ++ [e])%list.
    rewrite (printedErrors_report label e w) by reflexivity.
    cbn [raised errorsLog fsFaults set_console set_errorsLog set_fsFaults].
    rewrite Hp, Hr, app_nil_r, <- !app_assoc.
    split; [reflexivity|]. split; [reflexivity|].
    intros Hok. destruct (Hfs Hok) as [Hno _]. discriminate.
Qed.

Ltac tracked_walk :=
  repeat first
    [ apply tracked_ret
    | apply tracked_throw
    | apply tracked_js_BigInt
    | apply tracked_find
    | apply tracked_upsert
    | apply tracked_insert_tx
    | apply tracked_insert_addr
    | apply tracked_console_note
    | apply catches_report
    | apply tracked_bind; [|intros ?]
    | apply tracked_try_catch; [|intros ?]
    | progress cbv beta zeta
    | match goal with
      | |- tracked (match ?x with _ => _ end) => destruct x
      | |- tracked (if ?b then _ else _) => destruct b
      end ].

Lemma storeEvent_tracked (event : IndexedEvent.t) : tracked (storeEvent event).
Proof. unfold storeEvent. tracked_walk. Qed.

Lemma handle_tracked (token : TokenConfig) (ev : ProtocolEvent) : tracked (handle token ev).
Proof.
  destruct ev; cbn [handle];
    unfold onBorrow, onRepayBorrow, onMint, onRedeem, onLiquidateBorrow, onTransfer;
    repeat first [ apply storeEvent_tracked | progress tracked_walk ].
Qed.

(* ===================================================================== *)
(** ** What the error log says *)
(* ===================================================================== *)

Lemma prefix_weaken (needle pre post : string) :
  String.prefix needle pre = true -> String.prefix needle (pre +:+ post) = true.
Proof.
  revert pre. induction needle as [|a needle IH]; intros pre H.
  - now destruct (pre +:+ post).
  - destruct pre as [|b pre]; [discriminate H|].
    rewrite append_cons. simpl in *.
    destruct (ascii_dec a b); [now apply IH | discriminate H].
Qed.

Lemma mentionsb_in_prefix (needle pre post : string) :
  mentionsb needle pre = true -> mentionsb needle (pre +:+ post) = true.
Proof.
  induction pre as [|c pre IH]; intros H.
  - apply mentionsb_prefix, prefix_weaken.
    simpl in H. now rewrite orb_false_r in H.
  - simpl in H. apply orb_true_iff in H as [H|H].
    + now apply mentionsb_prefix, prefix_weaken.
    + rewrite append_cons. simpl. rewrite (IH H). apply orb_true_r.
Qed.

Lemma mentionsb_self (s : string) : mentionsb s s = true.
Proof. rewrite <- (append_nil_r s) at 2. apply mentionsb_here. Qed.

(** Finds [needle] among the pieces a string is concatenated from, or
    inside a literal piece. *)
Ltac mention :=
  first
    [ apply mentionsb_here
    | apply mentionsb_self
    | apply mentionsb_end
    | apply mentionsb_in_prefix; vm_compute; reflexivity
    | apply mentionsb_later; mention ].

Ltac names_event :=
  first [ left; reflexivity | right; reflexivity ].

Ltac log_side :=
  first
    [ intros; assumption
    | let w0 := fresh "w" in
      let Hw0 := fresh "Hw" in
      intros w0 Hw0; apply logged_append; [names_event | exact Hw0] ].

(** The error log only grows while an event is handled, and by entries
    filed under the contexts of the event. *)
Lemma handle_logs (token : TokenConfig) (ev : ProtocolEvent) (l0 : list LogEntry) :
  stable (fun w => exists new, errorsLog w = (l0 ++ new)%list
                               /\ Forall (namesEvent token ev) new)
         (handle token ev).
Proof.
  pose proof (closed_logged l0 (namesEvent token ev)) as HC.
  destruct ev; cbn [handle];
    unfold onBorrow, onRepayBorrow, onMint, onRedeem, onLiquidateBorrow, onTransfer, storeEvent;
    stable_walk HC log_side.
Qed.

(** X15. No callback throws: whatever exception is raised while an event
    is handled is caught inside the callback and printed with
    [console.error], in the order raised; when the file system is reliable
    each of them is also appended to the error log.  The log only grows, and
    every entry written for the event is filed under the context of
    [storeEvent], which names the kind, the user and the token of the
    event, or under the context of the [catch] clause of the event's
    callback.  A stream of events is therefore worked through to its end,
    each callback starting from the world its predecessor left. *)
Theorem exceptions_stay_inside :
  (forall (token : TokenConfig) (ev : ProtocolEvent) (w : World),
     let w' := exec (handle token ev) w in
     outcome (handle token ev) w = inr tt
     /\ (exists d, printedErrors w' = (printedErrors w ++ d)%list
                   /\ raised w' = (raised w ++ d)%list
                   /\ (fsFaults w = [] -> map log_error (newLogEntries w w') = d))
     /\ errorsLog w' = (errorsLog w ++ newLogEntries w w')%list
     /\ Forall (namesEvent token ev) (newLogEntries w w'))
  /\ (forall (events : list (TokenConfig * ProtocolEvent)) (w : World),
        outcome (processStream events) w = inr tt
        /\ exec (processStream events) w
           = fold_left (fun w' '(token, ev) => exec (handle token ev) w') events w).
Proof.
  split.
  - intros token ev w w'.
    destruct (handle_logs token ev (errorsLog w) w) as (new & Hlog & Hnames).
    { exists []. split; [now rewrite app_nil_r | constructor]. }
    fold w' in Hlog.
    assert (Hnew : newLogEntries w w' = new).
    { unfold newLogEntries. rewrite Hlog. apply drop_app_length. }
    pose proof (handle_tracked token ev (fsFaults w = []) (printedErrors w) (raised w)
                  (map log_error (errorsLog w)) w) as Htr.
    rewrite (handle_returns token ev w) in Htr. fold w' in Htr.
    destruct Htr as (d & Hp & Hr & Hfs).
    { exists []. rewrite !app_nil_r. auto. }
    cbn [pending] in Hr. rewrite app_nil_r in Hr.
    split; [apply handle_returns|]. split; [|rewrite Hnew; split; assumption].
    exists d. split; [exact Hp|]. split; [exact Hr|].
    intros Hok. destruct (Hfs Hok) as [_ Hl].
    rewrite Hnew. rewrite Hlog, map_app in Hl. now apply app_inv_head in Hl.
  - intros events w. unfold outcome, exec. now rewrite processStream_run.
Qed.

(** A Borrow whose balance write fails (the fourth storage call): the
    callback returns, the failure is printed and logged, and the entry is
    filed under the context of the Borrow callback. *)
Lemma exceptions_stay_inside_witness :
  let w' := exec (handle DAI (EvBorrow borrow100)) fourthCallFails in
  outcome (handle DAI (EvBorrow borrow100)) fourthCallFails = inr tt
  /\ (exists d, printedErrors w' = (printedErrors fourthCallFails ++ d)%list
                /\ raised w' = (raised fourthCallFails ++ d)%list
                /\ (fsFaults fourthCallFails = [] ->
                    map log_error (newLogEntries fourthCallFails w') = d))
  /\ errorsLog w' = (errorsLog fourthCallFails ++ newLogEntries fourthCallFails w')%list
  /\ Forall (namesEvent DAI (EvBorrow borrow100)) (newLogEntries fourthCallFails w').
Proof.
  exact (proj1 exceptions_stay_inside DAI (EvBorrow borrow100) fourthCallFails).
Defined.

Example borrow_failure_logged :
  errorsLog (exec (handle DAI (EvBorrow borrow100)) fourthCallFails)
  = [ {| log_context := "Borrow event error for token DAI - User: " +:+ alice;
         log_error := StorageError |} ].
Proof. vm_compute. reflexivity. Qed.

(** C8 (the code departs from it). The fourth storage call fails: for a
    Transfer that is its first balance read, for a LiquidateBorrow too.  The
    callback of the liquidation files the failure under a context with the
    kind, the two users and the token, as the callbacks of Borrow,
    RepayBorrow, Mint and Redeem and [storeEvent] do; the callback of the
    Transfer files it under ["Error processing Transfer event from MToken"],
    in which neither the sender, nor the receiver, nor the token occurs. *)
Theorem transfer_failure_context_lacks_user_and_token :
  let context := "Error processing Transfer event from MToken" in
  errorsLog (exec (handle DAI (EvTransfer (transfer alice bob 10 "0xe001"))) fourthCallFails)
  = [ {| log_context := context; log_error := StorageError |} ]
  /\ mentionsb alice context = false
  /\ mentionsb bob context = false
  /\ mentionsb "DAI" context = false
  /\ errorsLog (exec (handle DAI (EvLiquidateBorrow (liquidate 10))) fourthCallFails)
     = [ {| log_context :=
              "LiquidateBorrow event error for token DAI - Liquidator: " +:+ bob
              +:+ ", Borrower: " +:+ alice;
            log_error := StorageError |} ].
Proof. vm_compute. repeat split; reflexivity. Qed.

(** Hence not every entry names the kind, the user and the token of its
    event. *)
Lemma transfer_error_context_incomplete :
  ~ (forall (token : TokenConfig) (ev : ProtocolEvent) (w : World) (entry : LogEntry),
       entry ∈ newLogEntries w (exec (handle token ev) w) ->
       fullContext token ev (log_context entry) = true).
Proof.
  intros claim.
  specialize (claim DAI (EvTransfer (transfer alice bob 10 "0xe001")) fourthCallFails
                {| log_context := "Error processing Transfer event from MToken";
                   log_error := StorageError |}).
  assert (E : newLogEntries fourthCallFails
                (exec (handle DAI (EvTransfer (transfer alice bob 10 "0xe001"))) fourthCallFails)
              = [ {| log_context := "Error processing Transfer event from MToken";
                     log_error := StorageError |} ]) by (vm_compute; reflexivity).
  rewrite E in claim. specialize (claim (list_elem_of_here _ _)).
  vm_compute in claim. discriminate claim.
Qed.

(** On a market other than the first the contract name carries the symbol,
    and still not the user. *)
Example transfer_error_context_USDC :
  map log_context
    (errorsLog (exec (handle USDC (EvTransfer (transfer alice bob 10 "0xe002"))) fourthCallFails))
  = ["Error processing Transfer event from MToken_USDC"].
Proof. vm_compute. reflexivity. Qed.

(* ===================================================================== *)
(** ** Invariants that need what was read *)
(* ===================================================================== *)

Lemma yields_ret {A} (I : World -> Prop) (G : A -> Prop) (a : A) :
  G a -> yields I G (mret a).
Proof. intros Ha w Hw. split; [exact Hw|]. intros a' [= <-]. exact Ha. Qed.

Lemma yields_stable {A} (I : World -> Prop) (G : A -> Prop) (c : M A) :
  yields I G c -> stable I c.
Proof. intros H w Hw. apply (H w Hw). Qed.

(** Sequencing, the continuation knowing what the first step yielded. *)
Lemma yields_bind {A B} (I : World -> Prop) (G : A -> Prop) (c : M A) (k : A -> M B) :
  yields I G c -> (forall a, G a -> stable I (k a)) -> stable I (c ≫= k).
Proof.
  intros Hc Hk w Hw. specialize (Hc w Hw).
  unfold outcome, exec, mbind, M_bind, bind in *.
  destruct (c w) as [[e|a] w1]; cbn in *.
  - apply Hc.
  - destruct Hc as [Hw1 Ha]. apply (Hk a (Ha a eq_refl) w1 Hw1).
Qed.

Lemma yields_bind_yields {A B} (I : World -> Prop) (G : A -> Prop) (H : B -> Prop)
    (c : M A) (k : A -> M B) :
  yields I G c -> (forall a, G a -> yields I H (k a)) -> yields I H (c ≫= k).
Proof.
  intros Hc Hk w Hw. specialize (Hc w Hw).
  unfold outcome, exec, mbind, M_bind, bind in *.
  destruct (c w) as [[e|a] w1]; cbn in *.
  - split; [apply Hc | discriminate].
  - destruct Hc as [Hw1 Ha]. apply (Hk a (Ha a eq_refl) w1 Hw1).
Qed.

Section Guarded.

Variable E : JsError -> Prop.
Variable I : World -> Prop.
Hypothesis HG : closedExcept E I.

Lemma guarded_throw {A} (e : JsError) : E e -> stable I (@throw A e).
Proof. intros He w Hw. now apply (ce_raised E I HG). Qed.

Lemma guarded_storageCall_yields {A} (G : A -> Prop) (op : M A) :
  E StorageError -> yields I G op -> yields I G (storageCall op).
Proof.
  intros He Hop. apply hoare_storageCall.
  - intros w rest Hw Hf. split; [|discriminate].
    apply (ce_raised E I HG); [exact He|].
    now apply (ce_storageFaults E I HG w true rest).
  - intros w rest Hw Hf. apply Hop. now apply (ce_storageFaults E I HG w false rest).
  - intros w Hw _. now apply Hop.
Qed.

Lemma guarded_storageCall {A} (op : M A) :
  E StorageError -> stable I op -> stable I (storageCall op).
Proof.
  intros He Hop. apply (yields_stable I (fun _ => True)).
  apply guarded_storageCall_yields; [exact He|].
  intros w Hw. split; [now apply Hop | trivial].
Qed.

(** A read yields a row that the invariant vouches for. *)
Lemma guarded_find (G : option MetricsRow -> Prop) (userAddress : string) :
  E StorageError ->
  (forall w, I w -> G (userMetrics w !! userAddress)) ->
  yields I G (db_find_userMetrics userAddress).
Proof.
  intros He HGw. apply guarded_storageCall_yields; [exact He|].
  intros w Hw. split; [exact Hw|]. intros a [= <-]. now apply HGw.
Qed.

Lemma guarded_upsert (userAddress symbol : string) (data : TokenData) :
  E StorageError ->
  (forall w, I w -> I (set_userMetrics (upsertMetrics userAddress symbol data) w)) ->
  stable I (db_upsert_userMetrics userAddress symbol data).
Proof. intros He H. apply guarded_storageCall; [exact He|]. intros w Hw. now apply H. Qed.

Lemma guarded_insert_tx (row : TxRow.t) :
  E StorageError -> E UniqueConstraintError ->
  stable I (db_insert_userTransactions row).
Proof.
  intros He Hu. apply guarded_storageCall; [exact He|]. intros w Hw. unfold exec, throw.
  destruct (has_tx (TxRow.id row) (userTransactions w)); cbn.
  - now apply (ce_raised E I HG).
  - now apply (ce_userTransactions E I HG).
Qed.

Lemma guarded_insert_addr (row : AddrRow.t) :
  E StorageError -> stable I (db_insert_userAddresses row).
Proof.
  intros He. apply guarded_storageCall; [exact He|]. intros w Hw. unfold exec.
  destruct (has_addr _ _ _); cbn; [exact Hw | now apply (ce_userAddresses E I HG)].
Qed.

Lemma guarded_console_error (label : string) (error : option JsError) :
  stable I (console_error label error).
Proof. intros w Hw. now apply (ce_console E I HG). Qed.

Lemma guarded_logError (error : JsError) (context : string) :
  E FsError -> stable I (logError error context).
Proof.
  intros He. apply stable_try_catch.
  - intros w Hw. unfold exec, fs_appendFile, throw.
    destruct (fsFaults w) as [|[|] rest]; cbn.
    + now apply (ce_errorsLog E I HG).
    + now apply (ce_raised E I HG), (ce_fsFaults E I HG).
    + now apply (ce_errorsLog E I HG), (ce_fsFaults E I HG).
  - intros e. apply guarded_console_error.
Qed.

Lemma guarded_report (label context : string) (error : JsError) :
  E FsError -> stable I (console_error label (Some error);; logError error context).
Proof.
  intros He. apply stable_bind; [apply guarded_console_error|].
  intros _. now apply guarded_logError.
Qed.

Lemma guarded_storeEvent (event : IndexedEvent.t) :
  E StorageError -> E UniqueConstraintError -> E FsError ->
  stable I (storeEvent event).
Proof.
  intros He Hu Hf. unfold storeEvent.
  apply stable_try_catch; [|intros e; cbv zeta; now apply guarded_report].
  apply stable_bind; [now apply guarded_insert_tx|]. intros _.
  apply stable_bind; [now apply guarded_insert_addr|]. intros _.
  destruct (IndexedEvent.relatedAddress event); [|apply stable_ret].
  destruct (Js.truthy _); [now apply guarded_insert_addr | apply stable_ret].
Qed.

(** [BigInt] of a string that the invariant vouches for, or whose
    [SyntaxError] it tolerates. *)
Lemma guarded_BigInt (s : string) :
  is_Some (Js.BigInt s) \/ E (SyntaxError s) ->
  yields I (fun z => Js.BigInt s = Some z) (js_BigInt s).
Proof.
  intros Hs. unfold js_BigInt. destruct (Js.BigInt s) as [z|] eqn:Ez.
  - now apply yields_ret.
  - destruct Hs as [[z Hz]|He]; [discriminate|].
    intros w Hw. split; [|discriminate]. now apply (ce_raised E I HG).
Qed.

End Guarded.

(* ===================================================================== *)
(** ** Invariants of the pairs of the balance table *)
(* ===================================================================== *)

Lemma readCell_pairOf (t : gmap string MetricsRow) (u s : string) :
  readCell t u s = pairOf (t !! u) s.
Proof. reflexivity. Qed.

Section Cells.

Variable R : string -> string -> TokenData -> Prop.
Variable K : World -> Prop.
Variable E : JsError -> Prop.
Hypothesis HK : closedExcept E K.
Hypothesis HKm : forall f w, K w -> K (set_userMetrics f w).
Hypothesis HEs : E StorageError.
Hypothesis HEu : E UniqueConstraintError.
Hypothesis HEf : E FsError.
Hypothesis HEp : forall u s p, R u s p ->
  (is_Some (Js.BigInt (fst p)) \/ E (SyntaxError (fst p)))
  /\ (is_Some (Js.BigInt (snd p)) \/ E (SyntaxError (snd p))).

Lemma cells_closed : closedExcept E (cellsSatisfy R K).
Proof.
  split.
  - intros e w He [Hc Hk]. split; [exact Hc | now apply (ce_raised E K HK)].
  - intros w b rest Hf [Hc Hk]. split; [exact Hc|].
    now apply (ce_storageFaults E K HK w b rest).
  - intros w fs [Hc Hk]. split; [exact Hc | now apply (ce_fsFaults E K HK)].
  - intros f w [Hc Hk]. split; [exact Hc | now apply (ce_console E K HK)].
  - intros f w [Hc Hk]. split; [exact Hc | now apply (ce_userTransactions E K HK)].
  - intros f w [Hc Hk]. split; [exact Hc | now apply (ce_userAddresses E K HK)].
  - intros f w [Hc Hk]. split; [exact Hc | now apply (ce_errorsLog E K HK)].
Qed.

(** Writing a pair that satisfies [R] keeps the invariant. *)
Lemma cells_upsert (u s : string) (data : TokenData) (w : World) :
  R u s data -> cellsSatisfy R K w ->
  cellsSatisfy R K (set_userMetrics (upsertMetrics u s data) w).
Proof.
  intros Hd [Hc Hk]. split; [|now apply HKm].
  intros u' s'. rewrite readTokenData_set_userMetrics.
  destruct (decide (u' = u)) as [->|Hu].
  - destruct (decide (s' = s)) as [->|Hs].
    + now rewrite readCell_upsert.
    + rewrite readCell_upsert_other by (right; exact Hs). apply Hc.
  - rewrite readCell_upsert_other by (left; exact Hu). apply Hc.
Qed.

Lemma cells_find (u : string) :
  yields (cellsSatisfy R K) (fun result => forall s, R u s (pairOf result s))
         (db_find_userMetrics u).
Proof.
  apply (guarded_find E _ cells_closed); [exact HEs|].
  intros w [Hc _] s. apply Hc.
Qed.

Lemma cells_write (u s : string) (data : TokenData) :
  R u s data -> stable (cellsSatisfy R K) (db_upsert_userMetrics u s data).
Proof.
  intros Hd. apply (guarded_upsert E _ cells_closed); [exact HEs|].
  intros w. now apply cells_upsert.
Qed.

Lemma cells_catch (label context : string) (error : JsError) :
  stable (cellsSatisfy R K) (console_error label (Some error);; logError error context).
Proof. apply (guarded_report E _ cells_closed), HEf. Qed.

Lemma cells_storeEvent (event : IndexedEvent.t) :
  stable (cellsSatisfy R K) (storeEvent event).
Proof. now apply (guarded_storeEvent E _ cells_closed). Qed.

(** Borrow and RepayBorrow: what is written is the pair read with its
    second component replaced. *)
Lemma onBorrow_cells (token : TokenConfig) (e : Event BorrowEvent.t) :
  (forall p, R (BorrowEvent.borrower (args e)) (symbol token) p ->
     R (BorrowEvent.borrower (args e)) (symbol token)
       (fst p, Js.toString (BorrowEvent.accountBorrows (args e)))) ->
  stable (cellsSatisfy R K) (onBorrow token e).
Proof.
  intros Hw. unfold onBorrow. cbv zeta.
  apply stable_try_catch; [|intros err; apply cells_catch].
  apply (yields_bind _ _ _ _ (cells_find _)). intros result Hres.
  apply stable_bind; [apply cells_storeEvent|]. intros _.
  apply cells_write. specialize (Hres (symbol token)). unfold pairOf in Hres.
  destruct (tokenArrayOf result (symbol token)); exact (Hw _ Hres).
Qed.

Lemma onRepayBorrow_cells (token : TokenConfig) (e : Event RepayBorrowEvent.t) :
  (forall p, R (RepayBorrowEvent.borrower (args e)) (symbol token) p ->
     R (RepayBorrowEvent.borrower (args e)) (symbol token)
       (fst p, Js.toString (RepayBorrowEvent.accountBorrows (args e)))) ->
  stable (cellsSatisfy R K) (onRepayBorrow token e).
Proof.
  intros Hw. unfold onRepayBorrow. cbv zeta.
  apply stable_try_catch; [|intros err; apply cells_catch].
  apply (yields_bind _ _ _ _ (cells_find _)). intros result Hres.
  apply stable_bind; [apply cells_storeEvent|]. intros _.
  apply cells_write. specialize (Hres (symbol token)). unfold pairOf in Hres.
  destruct (tokenArrayOf result (symbol token)); exact (Hw _ Hres).
Qed.

Lemma onMint_cells (token : TokenConfig) (e : Event MintEvent.t) :
  stable (cellsSatisfy R K) (onMint token e).
Proof.
  unfold onMint. cbv zeta.
  apply stable_try_catch; [apply cells_storeEvent | intros err; apply cells_catch].
Qed.

Lemma onRedeem_cells (token : TokenConfig) (e : Event RedeemEvent.t) :
  stable (cellsSatisfy R K) (onRedeem token e).
Proof.
  unfold onRedeem. cbv zeta.
  apply stable_try_catch; [apply cells_storeEvent | intros err; apply cells_catch].
Qed.

(** LiquidateBorrow: the pair read with its second component lowered, or
    the default pair when there was none. *)
Lemma onLiquidateBorrow_cells (token : TokenConfig) (e : Event LiquidateBorrowEvent.t) :
  (forall p c, R (LiquidateBorrowEvent.borrower (args e)) (symbol token) p ->
     Js.BigInt (snd p) = Some c ->
     R (LiquidateBorrowEvent.borrower (args e)) (symbol token)
       (fst p, Js.toString (c - LiquidateBorrowEvent.repayAmount (args e)))) ->
  stable (cellsSatisfy R K) (onLiquidateBorrow token e).
Proof.
  intros Hw. unfold onLiquidateBorrow. cbv zeta.
  apply stable_try_catch; [|intros err; apply cells_catch].
  apply stable_bind; [apply cells_storeEvent|]. intros _.
  apply (yields_bind _ _ _ _ (cells_find _)). intros result Hres.
  specialize (Hres (symbol token)). unfold pairOf in Hres.
  apply (yields_bind _ (fun data => R (LiquidateBorrowEvent.borrower (args e)) (symbol token) data)).
  - destruct (tokenArrayOf result (symbol token)) as [tokenArray|].
    + apply (yields_bind_yields _ (fun c => Js.BigInt (snd tokenArray) = Some c)).
      * apply (guarded_BigInt E _ cells_closed). apply (HEp _ _ _ Hres).
      * intros c Hc. apply yields_ret. now apply Hw.
    + now apply yields_ret.
  - intros data Hdata. now apply cells_write.
Qed.

(** Transfer: the receiver's pair with its first component raised, the
    sender's with its first component lowered or set to ["0"]. *)
Lemma onTransfer_cells (token : TokenConfig) (e : Event TransferEvent.t) :
  let from := TransferEvent.from (args e) in
  let to := TransferEvent.to (args e) in
  let amount := TransferEvent.amount (args e) in
  (from = zeroAddress \/ to <> zeroAddress ->
   forall p z, R to (symbol token) p -> Js.BigInt (fst p) = Some z ->
     R to (symbol token) (Js.toString (z + amount), snd p)) ->
  (from <> zeroAddress ->
   forall p z, R from (symbol token) p -> Js.BigInt (fst p) = Some z ->
     R from (symbol token) (if z >=? amount then Js.toString (z - amount) else "0", snd p)) ->
  stable (cellsSatisfy R K) (onTransfer token e).
Proof.
  intros from to amount Hcredit Hdebit. unfold onTransfer. cbv zeta.
  fold from to amount.
  apply stable_try_catch; [|intros err; apply cells_catch].
  apply stable_bind; [apply cells_storeEvent|]. intros _.
  assert (Debit : forall p : TokenData, from <> zeroAddress -> R from (symbol token) p ->
            stable (cellsSatisfy R K)
              (currentSupplied ← js_BigInt (fst p);
               fromTokenData ←
                 (if currentSupplied >=? amount
                  then mret (Js.toString (currentSupplied - amount), snd p)
                  else
                    console_error
                      ("[BALANCE ERROR] Insufficient balance for burn: " +:+ from +:+ " has "
                       +:+ Js.toString currentSupplied +:+ ", trying to burn "
                       +:+ Js.toString amount) None;;
                    mret ("0", snd p));
               db_upsert_userMetrics from (symbol token) fromTokenData)).
  { intros p Hfrom Hp.
    apply (yields_bind _ (fun z => Js.BigInt (fst p) = Some z)).
    { apply (guarded_BigInt E _ cells_closed). apply (HEp _ _ _ Hp). }
    intros z Hz. pose proof (Hdebit Hfrom p z Hp Hz) as Hnew.
    apply (yields_bind _ (fun data => R from (symbol token) data)).
    - destruct (z >=? amount); [now apply yields_ret|].
      apply (yields_bind_yields _ (fun _ => True)).
      + intros w Hw. split; [|trivial].
        now apply (guarded_console_error E _ cells_closed).
      + intros _ _. now apply yields_ret.
    - intros data Hdata. now apply cells_write. }
  destruct (String.eqb_spec from zeroAddress) as [Hfz|Hfz].
  - apply (yields_bind _ _ _ _ (cells_find _)). intros result Hres.
    specialize (Hres (symbol token)). fold (pairOf result (symbol token)).
    apply (yields_bind _ (fun z => Js.BigInt (fst (pairOf result (symbol token))) = Some z)).
    { apply (guarded_BigInt E _ cells_closed). apply (HEp _ _ _ Hres). }
    intros z Hz. apply cells_write. apply Hcredit; auto.
  - destruct (String.eqb_spec to zeroAddress) as [Htz|Htz].
    + apply (yields_bind _ _ _ _ (cells_find _)). intros result Hres.
      specialize (Hres (symbol token)). fold (pairOf result (symbol token)).
      now apply Debit.
    + apply (yields_bind _ _ _ _ (cells_find _)). intros fromResult HresF.
      apply (yields_bind _ _ _ _ (cells_find _)). intros toResult HresT.
      specialize (HresF (symbol token)). specialize (HresT (symbol token)).
      fold (pairOf fromResult (symbol token)). fold (pairOf toResult (symbol token)).
      apply (yields_bind _ (fun z => Js.BigInt (fst (pairOf fromResult (symbol token))) = Some z)).
      { apply (guarded_BigInt E _ cells_closed). apply (HEp _ _ _ HresF). }
      intros z Hz. pose proof (Hdebit Hfz _ z HresF Hz) as Hnew.
      apply (yields_bind _ (fun data => R from (symbol token) data)).
      { destruct (z >=? amount); [now apply yields_ret|].
        apply (yields_bind_yields _ (fun _ => True)).
        - intros w Hw. split; [|trivial].
          now apply (guarded_console_error E _ cells_closed).
        - intros _ _. now apply yields_ret. }
      intros data Hdata.
      apply (yields_bind _ (fun z => Js.BigInt (fst (pairOf toResult (symbol token))) = Some z)).
      { apply (guarded_BigInt E _ cells_closed). apply (HEp _ _ _ HresT). }
      intros zT HzT.
      apply stable_bind; [now apply cells_write|]. intros _.
      apply cells_write. apply Hcredit; auto.
Qed.

End Cells.

(* ===================================================================== *)
(** ** What a callback leaves alone *)
(* ===================================================================== *)

Lemma closedExcept_True : closedExcept (fun _ => True) (fun _ => True).
Proof. split; trivial. Qed.

(** A callback changes no pair but those it is meant to write: all the
    others read as before, in every world and whatever fails. *)
Lemma handle_writes_only (token : TokenConfig) (ev : ProtocolEvent) (w : World)
    (u s : string) :
  ~ writes token ev u s ->
  readTokenData (exec (handle token ev) w) u s = readTokenData w u s.
Proof.
  intros Hnw.
  set (R := fun (u' s' : string) (p : TokenData) =>
              u' = u -> s' = s -> p = readTokenData w u s).
  assert (Hstable : stable (cellsSatisfy R (fun _ => True)) (handle token ev)).
  { assert (HEp : forall u' s' p, R u' s' p ->
               (is_Some (Js.BigInt (fst p)) \/ True) /\ (is_Some (Js.BigInt (snd p)) \/ True))
      by (intros; split; right; trivial).
    destruct ev as [e|e|e|e|e|e]; cbn [handle].
    - apply (onBorrow_cells R _ (fun _ => True) closedExcept_True); trivial.
      intros p _ Hu Hs. elim Hnw. split; [now symmetry | now symmetry].
    - apply (onRepayBorrow_cells R _ (fun _ => True) closedExcept_True); trivial.
      intros p _ Hu Hs. elim Hnw. split; [now symmetry | now symmetry].
    - apply (onMint_cells R _ (fun _ => True) closedExcept_True); trivial.
    - apply (onRedeem_cells R _ (fun _ => True) closedExcept_True); trivial.
    - apply (onLiquidateBorrow_cells R _ (fun _ => True) closedExcept_True); trivial.
      intros p c _ _ Hu Hs. elim Hnw. split; [now symmetry | now symmetry].
    - apply (onTransfer_cells R _ (fun _ => True) closedExcept_True); trivial.
      + intros Hcase p z _ _ Hu Hs. elim Hnw. split; [now symmetry|]. cbn.
        destruct (String.eqb_spec (TransferEvent.from (args e)) zeroAddress) as [Hf|Hf];
          [now symmetry|].
        destruct Hcase as [Hc|Hc]; [contradiction|].
        destruct (String.eqb_spec (TransferEvent.to (args e)) zeroAddress) as [Ht|Ht];
          [contradiction | right; now symmetry].
      + intros Hf p z _ _ Hu Hs. elim Hnw. split; [now symmetry|]. cbn.
        destruct (String.eqb_spec (TransferEvent.from (args e)) zeroAddress) as [Hf'|_];
          [contradiction|].
        destruct (String.eqb_spec (TransferEvent.to (args e)) zeroAddress);
          [now symmetry | left; now symmetry]. }
  destruct (Hstable w) as [Hcells _].
  { split; [|trivial]. intros u' s' -> ->. reflexivity. }
  now apply Hcells.
Qed.

(** The amounts a callback never touches: Borrow, RepayBorrow, Mint, Redeem
    and LiquidateBorrow leave every [amountSupplied] as stored, and Transfer
    leaves every [amountBorrowed] as stored, in every world. *)
Lemma handle_other_component (token : TokenConfig) (ev : ProtocolEvent) (w : World)
    (u s : string) :
  (isTransfer ev = false ->
   fst (readTokenData (exec (handle token ev) w) u s) = fst (readTokenData w u s))
  /\ (isTransfer ev = true ->
      snd (readTokenData (exec (handle token ev) w) u s) = snd (readTokenData w u s)).
Proof.
  assert (HEp : forall (R : string -> string -> TokenData -> Prop) u' s' p, R u' s' p ->
             (is_Some (Js.BigInt (fst p)) \/ True) /\ (is_Some (Js.BigInt (snd p)) \/ True))
    by (intros; split; right; trivial).
  split; intros Hkind.
  - set (R := fun (u' s' : string) (p : TokenData) =>
                u' = u -> s' = s -> fst p = fst (readTokenData w u s)).
    assert (Hstable : stable (cellsSatisfy R (fun _ => True)) (handle token ev)).
    { destruct ev as [e|e|e|e|e|e]; cbn [handle]; try discriminate Hkind.
      - apply (onBorrow_cells R _ (fun _ => True) closedExcept_True);
          solve [trivial | apply HEp | intros p Hp Hu Hs; now apply Hp].
      - apply (onRepayBorrow_cells R _ (fun _ => True) closedExcept_True);
          solve [trivial | apply HEp | intros p Hp Hu Hs; now apply Hp].
      - apply (onMint_cells R _ (fun _ => True) closedExcept_True); trivial.
      - apply (onRedeem_cells R _ (fun _ => True) closedExcept_True); trivial.
      - apply (onLiquidateBorrow_cells R _ (fun _ => True) closedExcept_True);
          solve [trivial | apply HEp | intros p c Hp _ Hu Hs; now apply Hp]. }
    destruct (Hstable w) as [Hcells _].
    { split; [|trivial]. intros u' s' -> ->. reflexivity. }
    now apply Hcells.
  - set (R := fun (u' s' : string) (p : TokenData) =>
                u' = u -> s' = s -> snd p = snd (readTokenData w u s)).
    assert (Hstable : stable (cellsSatisfy R (fun _ => True)) (handle token ev)).
    { destruct ev as [e|e|e|e|e|e]; cbn [handle]; try discriminate Hkind.
      apply (onTransfer_cells R _ (fun _ => True) closedExcept_True);
        solve [trivial | apply HEp | intros _ p z Hp _ Hu Hs; now apply Hp]. }
    destruct (Hstable w) as [Hcells _].
    { split; [|trivial]. intros u' s' -> ->. reflexivity. }
    now apply Hcells.
Qed.

(* ===================================================================== *)
(** ** The transaction log only grows, by one row at most *)
(* ===================================================================== *)

Lemma closed_log (T : list TxRow.t) : closed (fun w => userTransactions w = T).
Proof. split; intros; assumption. Qed.

Lemma closed_log_or (T : list TxRow.t) (row : TxRow.t) :
  closed (fun w => userTransactions w = T \/ userTransactions w = (T ++ [row])%list).
Proof. split; intros; assumption. Qed.

(** [storeEvent] leaves the log as it is or appends the row of its event. *)
Lemma storeEvent_logs_once (event : IndexedEvent.t) (T : list TxRow.t) :
  hoare (fun w => userTransactions w = T) (storeEvent event)
        (fun _ w => userTransactions w = T
                    \/ userTransactions w = (T ++ [transactionRow event])%list).
Proof.
  unfold storeEvent.
  apply (hoare_try_catch _
           (fun _ w => userTransactions w = T
                       \/ userTransactions w = (T ++ [transactionRow event])%list)).
  - apply (hoare_bind _
             (fun _ w => userTransactions w = T
                         \/ userTransactions w = (T ++ [transactionRow event])%list)).
    + apply hoare_storageCall.
      * intros w rest Hw _. now left.
      * intros w rest Hw _. unfold exec, throw.
        change (userTransactions (set_storageFaults rest w)) with (userTransactions w).
        destruct (has_tx _ (userTransactions w)); cbn; [now left | right; now rewrite Hw].
      * intros w Hw _. unfold exec, throw.
        destruct (has_tx _ (userTransactions w)); cbn; [now left | right; now rewrite Hw].
    + intros e w Hw. exact Hw.
    + intros _.
      stable_walk (closed_log_or T (transactionRow event)) ltac:(intros; assumption).
  - intros a w Hw. exact Hw.
  - intros e. cbv zeta.
    stable_walk (closed_log_or T (transactionRow event)) ltac:(intros; assumption).
Qed.

(** Each callback calls [storeEvent] once, on the [indexedEvent] of its
    event, and does not touch the log otherwise. *)
Lemma handle_logs_once_hoare (token : TokenConfig) (ev : ProtocolEvent) (T : list TxRow.t) :
  hoare (fun w => userTransactions w = T) (handle token ev)
        (fun _ w => userTransactions w = T
                    \/ userTransactions w = (T ++ [transactionRow (indexedOf token ev)])%list).
Proof.
  set (J := fun w => userTransactions w = T
                     \/ userTransactions w = (T ++ [transactionRow (indexedOf token ev)])%list).
  assert (HJ : closed J) by apply closed_log_or.
  assert (Hcatch : forall label context e,
             stable J (console_error label (Some e);; logError e context)).
  { intros. apply (stable_report _ HJ). intros; assumption. }
  destruct ev as [e|e|e|e|e|e]; cbn [handle indexedOf] in *;
    unfold onBorrow, onRepayBorrow, onMint, onRedeem, onLiquidateBorrow, onTransfer;
    cbv zeta;
    (apply (hoare_try_catch _ (fun _ => J)); [|intros a w Hw; exact Hw|intros err; apply Hcatch]).
  - apply (hoare_bind _ (fun _ w => userTransactions w = T)).
    + apply (stable_find _ (closed_log T)).
    + intros err w Hw. now left.
    + intros result. apply (hoare_bind _ (fun _ => J)).
      * apply storeEvent_logs_once.
      * intros err w Hw. exact Hw.
      * intros _. apply (stable_upsert _ HJ). intros; assumption.
  - apply (hoare_bind _ (fun _ w => userTransactions w = T)).
    + apply (stable_find _ (closed_log T)).
    + intros err w Hw. now left.
    + intros result. apply (hoare_bind _ (fun _ => J)).
      * apply storeEvent_logs_once.
      * intros err w Hw. exact Hw.
      * intros _. apply (stable_upsert _ HJ). intros; assumption.
  - apply storeEvent_logs_once.
  - apply storeEvent_logs_once.
  - apply (hoare_bind _ (fun _ => J)).
    + apply storeEvent_logs_once.
    + intros err w Hw. exact Hw.
    + intros _. stable_walk HJ ltac:(intros; assumption).
  - apply (hoare_bind _ (fun _ => J)).
    + apply storeEvent_logs_once.
    + intros err w Hw. exact Hw.
    + intros _. match goal with |- hoare ?P ?c _ => change (stable P c) end.
      stable_walk HJ ltac:(intros; assumption).
Qed.

(** In every world and whatever fails, a callback leaves the
    transaction log as it is or appends exactly one row to it, the row of
    its own event: existing rows are never changed or removed. *)
Lemma handle_logs_once (token : TokenConfig) (ev : ProtocolEvent) (w : World) :
  let w' := exec (handle token ev) w in
  userTransactions w' = userTransactions w
  \/ userTransactions w' = (userTransactions w ++ [transactionRow (indexedOf token ev)])%list.
Proof. apply (handle_logs_once_hoare token ev (userTransactions w) w). reflexivity. Qed.

(* ===================================================================== *)
(** ** Streams of events *)
(* ===================================================================== *)

(** X1. Whatever fails, a stream of events changes the stored pair of a
    user and a token only if one of its events writes that pair: a Borrow or
    a RepayBorrow event writes its borrower's pair, a LiquidateBorrow event
    its borrower's, a Transfer event its receiver's when it comes from the
    zero address, its sender's when it goes to the zero address, and both
    otherwise, each for the token of its market; Mint and Redeem events
    write none. *)
Theorem stream_writes_only (events : list (TokenConfig * ProtocolEvent)) (w : World)
    (u s : string) :
  Forall (fun tev => ~ writes (fst tev) (snd tev) u s) events ->
  readTokenData (exec (processStream events) w) u s = readTokenData w u s.
Proof.
  revert w. induction events as [|[token ev] rest IH]; intros w Hnw; [reflexivity|].
  apply Forall_cons in Hnw as [Hev Hrest].
  rewrite processStream_cons, (IH _ Hrest).
  now apply handle_writes_only.
Qed.

Lemma stream_writes_only_witness :
  readTokenData
    (exec (processStream [(DAI, EvBorrow borrow100);
                          (USDC, EvTransfer (transfer alice bob 5 "0xb003"))]) emptyWorld)
    bob "DAI"
  = readTokenData emptyWorld bob "DAI".
Proof.
  apply (stream_writes_only
           [(DAI, EvBorrow borrow100); (USDC, EvTransfer (transfer alice bob 5 "0xb003"))]
           emptyWorld bob "DAI").
  repeat constructor; cbn; intros [Hs Hu]; discriminate.
Defined.

(** X2. Whatever fails, a stream without Transfer events changes no
    stored [amountSupplied] string, and a stream of Transfer events changes
    no stored [amountBorrowed] string. *)
Theorem stream_other_component (events : list (TokenConfig * ProtocolEvent)) (w : World)
    (u s : string) :
  (Forall (fun tev => isTransfer (snd tev) = false) events ->
   fst (readTokenData (exec (processStream events) w) u s) = fst (readTokenData w u s))
  /\ (Forall (fun tev => isTransfer (snd tev) = true) events ->
      snd (readTokenData (exec (processStream events) w) u s) = snd (readTokenData w u s)).
Proof.
  revert w. induction events as [|[token ev] rest IH]; intros w; [now split|].
  rewrite processStream_cons.
  destruct (IH (exec (handle token ev) w)) as [IH1 IH2].
  destruct (handle_other_component token ev w u s) as [H1 H2].
  split; intros Hall; apply Forall_cons in Hall as [Hev Hrest].
  - now rewrite (IH1 Hrest), (H1 Hev).
  - now rewrite (IH2 Hrest), (H2 Hev).
Qed.

Lemma stream_other_component_witness :
  fst (readTokenData (exec (processStream [(DAI, EvBorrow borrow100)]) aliceHolds5) alice "DAI")
  = fst (readTokenData aliceHolds5 alice "DAI")
  /\ snd (readTokenData
            (exec (processStream [(DAI, EvTransfer (transfer alice bob 5 "0xb003"))])
               afterScenarioA) alice "DAI")
     = snd (readTokenData afterScenarioA alice "DAI").
Proof.
  split.
  - apply (proj1 (stream_other_component [(DAI, EvBorrow borrow100)] aliceHolds5 alice "DAI")).
    repeat constructor.
  - apply (proj2 (stream_other_component
                    [(DAI, EvTransfer (transfer alice bob 5 "0xb003"))]
                    afterScenarioA alice "DAI")).
    repeat constructor.
Defined.

(** X3. Whatever fails, a stream of events only appends to the
    transaction log, and the rows it appends are rows of its own events, in
    the order of the stream, at most one per event. *)
Theorem stream_log_append_only (events : list (TokenConfig * ProtocolEvent)) (w : World) :
  exists added : list TxRow.t,
    userTransactions (exec (processStream events) w) = (userTransactions w ++ added)%list
    /\ sublist added
         (map (fun tev => transactionRow (indexedOf (fst tev) (snd tev))) events).
Proof.
  revert w. induction events as [|[token ev] rest IH]; intros w.
  - exists []. split; [now rewrite app_nil_r | constructor].
  - rewrite processStream_cons.
    destruct (IH (exec (handle token ev) w)) as (added & Hlog & Hsub).
    destruct (handle_logs_once token ev w) as [Hsame | Hone].
    + exists added. split; [now rewrite Hlog, Hsame|].
      cbn [map fst snd]. now apply sublist_cons.
    + exists (transactionRow (indexedOf token ev) :: added). split.
      * rewrite Hlog, Hone. now rewrite <- app_assoc.
      * cbn [map fst snd]. now apply sublist_skip.
Qed.

(* ===================================================================== *)
(** ** Stored amounts stay numbers *)
(* ===================================================================== *)

Lemma noSyntaxErrorSince_raise (n : nat) (e : JsError) (w : World) :
  isSyntaxError e = false -> noSyntaxErrorSince n w -> noSyntaxErrorSince n (note_raised e w).
Proof.
  unfold noSyntaxErrorSince. intros He H. cbn [raised note_raised].
  rewrite drop_app, forallb_app, H. cbn [andb].
  destruct (n - length (raised w))%nat; cbn; [now rewrite He | now rewrite drop_nil].
Qed.

Lemma closedExcept_noSyntax (n : nat) :
  closedExcept (fun e => isSyntaxError e = false) (noSyntaxErrorSince n).
Proof.
  split; try (intros; assumption).
  intros e w He H. now apply noSyntaxErrorSince_raise.
Qed.

Lemma goodPair_default : goodPair ("0", "0").
Proof. split; [exists 0; split; [reflexivity | lia] | now exists 0]. Qed.

Lemma goodPair_intro (z : Z) (b : string) :
  0 <= z -> is_Some (Js.BigInt b) -> goodPair (Js.toString z, b).
Proof.
  intros Hz Hb. split; [|exact Hb]. exists z. split; [apply BigInt_toString | exact Hz].
Qed.

(** Each callback keeps the pairs of the table well formed and raises no
    [SyntaxError], whatever the storage and the file system do. *)
Lemma handle_keeps_wellFormed (token : TokenConfig) (ev : ProtocolEvent) (n : nat) :
  unsignedAmounts ev ->
  stable (cellsSatisfy (fun _ _ => goodPair) (noSyntaxErrorSince n)) (handle token ev).
Proof.
  intros Hpos.
  assert (HEp : forall (u s : string) p, goodPair p ->
             (is_Some (Js.BigInt (fst p)) \/ isSyntaxError (SyntaxError (fst p)) = false)
             /\ (is_Some (Js.BigInt (snd p)) \/ isSyntaxError (SyntaxError (snd p)) = false)).
  { intros _ _ p [(z & Hz & _) Hb]. split; left; [now exists z | exact Hb]. }
  destruct ev as [e|e|e|e|e|e]; cbn [handle].
  - apply (onBorrow_cells _ _ _ (closedExcept_noSyntax n)); try reflexivity;
      try (intros; assumption); try exact HEp.
    intros p [Hs _]. split; [exact Hs|]. cbn [snd]. rewrite BigInt_toString. eauto.
  - apply (onRepayBorrow_cells _ _ _ (closedExcept_noSyntax n)); try reflexivity;
      try (intros; assumption); try exact HEp.
    intros p [Hs _]. split; [exact Hs|]. cbn [snd]. rewrite BigInt_toString. eauto.
  - apply (onMint_cells _ _ _ (closedExcept_noSyntax n)); try reflexivity;
      try (intros; assumption).
  - apply (onRedeem_cells _ _ _ (closedExcept_noSyntax n)); try reflexivity;
      try (intros; assumption).
  - apply (onLiquidateBorrow_cells _ _ _ (closedExcept_noSyntax n)); try reflexivity;
      try (intros; assumption); try exact HEp.
    intros p c [Hs _] _. split; [exact Hs|]. cbn [snd]. rewrite BigInt_toString. eauto.
  - cbn in Hpos.
    apply (onTransfer_cells _ _ _ (closedExcept_noSyntax n)); try reflexivity;
      try (intros; assumption); try exact HEp.
    + intros _ p z [(z' & Hz' & Hge) Hb] Hz.
      assert (z' = z) by congruence. subst z'.
      apply goodPair_intro; [lia | exact Hb].
    + intros _ p z [(z' & Hz' & Hge) Hb] Hz.
      assert (z' = z) by congruence. subst z'.
      destruct (z >=? TransferEvent.amount (args e)) eqn:Hcmp.
      * apply goodPair_intro; [|exact Hb].
        rewrite Z.geb_leb in Hcmp. apply Z.leb_le in Hcmp. lia.
      * split; [exists 0; split; [reflexivity | lia] | exact Hb].
Qed.

Lemma noSyntaxErrorSince_start (w : World) : noSyntaxErrorSince (length (raised w)) w.
Proof. unfold noSyntaxErrorSince. now rewrite drop_all. Qed.

(** X4. Along any stream of events whose Transfer amounts are not negative,
    from a table whose pairs are well formed (the empty table is): every
    stored [amountSupplied] stays a non-negative number, every stored
    [amountBorrowed] stays a number, and [BigInt] never throws, whatever the
    storage and the file system do. *)
Theorem stream_keeps_wellFormed (events : list (TokenConfig * ProtocolEvent)) (w : World) :
  Forall (fun tev => unsignedAmounts (snd tev)) events ->
  wellFormed w ->
  wellFormed (exec (processStream events) w)
  /\ noSyntaxErrorSince (length (raised w)) (exec (processStream events) w).
Proof.
  intros Hpos Hwf.
  assert (H0 : cellsSatisfy (fun _ _ => goodPair) (noSyntaxErrorSince (length (raised w))) w)
    by (split; [exact Hwf | apply noSyntaxErrorSince_start]).
  clear Hwf. revert H0. generalize (length (raised w)) as n. intros n. revert w.
  induction events as [|[token ev] rest IH]; intros w H0; [exact H0|].
  apply Forall_cons in Hpos as [Hev Hrest].
  rewrite processStream_cons.
  apply (IH Hrest). apply (handle_keeps_wellFormed token ev n Hev w H0).
Qed.

Lemma wellFormed_empty : wellFormed emptyWorld.
Proof. intros u s. apply goodPair_default. Qed.

Lemma stream_keeps_wellFormed_witness :
  wellFormed
    (exec (processStream [(DAI, EvTransfer (transfer alice bob 5 "0xb003"));
                          (DAI, EvLiquidateBorrow (liquidate 10))]) emptyWorld)
  /\ noSyntaxErrorSince (length (raised emptyWorld))
       (exec (processStream [(DAI, EvTransfer (transfer alice bob 5 "0xb003"));
                             (DAI, EvLiquidateBorrow (liquidate 10))]) emptyWorld).
Proof.
  apply (stream_keeps_wellFormed
           [(DAI, EvTransfer (transfer alice bob 5 "0xb003"));
            (DAI, EvLiquidateBorrow (liquidate 10))] emptyWorld).
  - repeat constructor. cbn. lia.
  - exact wellFormed_empty.
Defined.

(* ===================================================================== *)
(** ** Address links *)
(* ===================================================================== *)

Lemma has_addr_app (u s : string) (rows more : list AddrRow.t) :
  has_addr u s (rows ++ more) = has_addr u s rows || has_addr u s more.
Proof. unfold has_addr. apply existsb_app. Qed.

(** Over a reliable storage the link is there once the insert is through,
    and links that were there stay. *)
Lemma insert_addr_links (row : AddrRow.t) (w : World) :
  storageReliable w ->
  let w1 := exec (db_insert_userAddresses row) w in
  db_insert_userAddresses row w = (inr tt, w1)
  /\ storageReliable w1
  /\ has_addr (AddrRow.userAddress row) (AddrRow.tokenSymbol row) (userAddresses w1) = true
  /\ (forall u s, has_addr u s (userAddresses w) = true -> has_addr u s (userAddresses w1) = true).
Proof.
  intros H w1. subst w1. unfold exec, db_insert_userAddresses.
  rewrite storageCall_reliable by assumption.
  destruct (has_addr _ _ (userAddresses w)) eqn:E; cbn [snd].
  - auto.
  - split; [reflexivity|]. split; [exact H|].
    cbn [userAddresses set_userAddresses]. split.
    + rewrite has_addr_app. unfold has_addr at 2. cbn [existsb].
      rewrite !String.eqb_refl. cbn. apply orb_true_r.
    + intros u s Hus. rewrite has_addr_app, Hus. reflexivity.
Qed.

(** [storeEvent] of an event that is not in the log yet, over a reliable
    storage, links the user of the event and its related address to the
    token. *)
Lemma storeEvent_links (event : IndexedEvent.t) (w : World) :
  storageReliable w ->
  has_tx (TxRow.id (transactionRow event)) (userTransactions w) = false ->
  let w1 := exec (storeEvent event) w in
  has_addr (IndexedEvent.user event) (IndexedEvent.token event) (userAddresses w1) = true
  /\ (forall related, IndexedEvent.relatedAddress event = Some related -> related <> "" ->
        has_addr related (IndexedEvent.token event) (userAddresses w1) = true).
Proof.
  intros Hrel Hfresh w1. subst w1.
  unfold exec, storeEvent, try_catch, mbind, M_bind, bind.
  rewrite insert_tx_fresh by assumption. cbv beta iota.
  set (w0 := set_userTransactions _ w).
  assert (Hrel0 : storageReliable w0) by exact Hrel.
  destruct (insert_addr_links
              {| AddrRow.userAddress := IndexedEvent.user event;
                 AddrRow.tokenSymbol := IndexedEvent.token event;
                 AddrRow.tokenAddress := IndexedEvent.tokenAddress event |} w0 Hrel0)
    as (E1 & Hrel1 & Hu & _).
  rewrite E1. cbv beta iota. cbn [AddrRow.userAddress AddrRow.tokenSymbol] in Hu.
  set (w1 := exec _ w0) in *.
  destruct (IndexedEvent.relatedAddress event) as [related|]; cbv beta iota.
  - destruct (Js.truthy (Some related)) eqn:Etruthy.
    + destruct (insert_addr_links
                  {| AddrRow.userAddress := related;
                     AddrRow.tokenSymbol := IndexedEvent.token event;
                     AddrRow.tokenAddress := IndexedEvent.tokenAddress event |} w1 Hrel1)
        as (E2 & _ & Hr & Hmono).
      rewrite E2. cbn [snd]. split.
      * now apply Hmono.
      * intros r [= <-] _. exact Hr.
    + cbn [snd]. split; [exact Hu|].
      intros r [= <-] Hne. cbn in Etruthy.
      apply negb_false_iff, String.eqb_eq in Etruthy. contradiction.
  - cbn [snd]. split; [exact Hu | discriminate].
Qed.

Lemma closed_links (A : list AddrRow.t) : closed (fun w => userAddresses w = A).
Proof. split; intros; assumption. Qed.

(** Over a reliable storage the address links after a callback are those
    after its [storeEvent]: nothing else writes them. *)
Lemma handle_links_from_storeEvent (token : TokenConfig) (ev : ProtocolEvent) (w : World) :
  storageReliable w ->
  userAddresses (exec (handle token ev) w)
  = userAddresses (exec (storeEvent (indexedOf token ev)) w).
Proof.
  intros Hrel.
  set (A := userAddresses (exec (storeEvent (indexedOf token ev)) w)).
  assert (HA : closed (fun w' => userAddresses w' = A)) by apply closed_links.
  assert (Hcatch : forall label context e,
             stable (fun w' => userAddresses w' = A)
                    (console_error label (Some e);; logError e context)).
  { intros. apply (stable_report _ HA). intros; assumption. }
  assert (After : forall (rest : M unit) (h : JsError -> M unit),
             stable (fun w' => userAddresses w' = A) rest ->
             (forall e, stable (fun w' => userAddresses w' = A) (h e)) ->
             userAddresses
               (exec (try_catch (storeEvent (indexedOf token ev);; rest) h) w) = A).
  { intros rest h Hrest Hh.
    unfold exec at 1. unfold try_catch, mbind, M_bind, bind. rewrite storeEvent_run.
    cbv beta iota.
    set (W := exec (storeEvent (indexedOf token ev)) w) in *.
    pose proof (Hrest W eq_refl) as H1. unfold exec in H1.
    destruct (rest W) as [[e|[]] w2]; cbn [snd] in *.
    - apply (Hh e w2 H1).
    - exact H1. }
  destruct ev as [e|e|e|e|e|e]; cbn [handle indexedOf] in *.
  - unfold onBorrow. cbv zeta.
    transitivity (userAddresses
      (exec (try_catch
               (storeEvent (indexedBorrow token e);;
                db_upsert_userMetrics (BorrowEvent.borrower (args e)) (symbol token)
                  match tokenArrayOf (userMetrics w !! BorrowEvent.borrower (args e))
                          (symbol token) with
                  | Some tokenArray =>
                      (fst tokenArray, Js.toString (BorrowEvent.accountBorrows (args e)))
                  | None => ("0", Js.toString (BorrowEvent.accountBorrows (args e)))
                  end)
               (fun error =>
                  console_error
                    ("[EVENT ERROR] "
                     +:+ ("Borrow event error for token " +:+ symbol token +:+ " - User: "
                          +:+ BorrowEvent.borrower (args e)) +:+ ":") (Some error);;
                  logError error
                    ("Borrow event error for token " +:+ symbol token +:+ " - User: "
                     +:+ BorrowEvent.borrower (args e)))) w)).
    { unfold exec, try_catch, mbind, M_bind, bind.
      rewrite find_reliable by assumption. reflexivity. }
    apply After; [|intros err; apply Hcatch].
    apply (stable_upsert _ HA). intros; assumption.
  - unfold onRepayBorrow. cbv zeta.
    transitivity (userAddresses
      (exec (try_catch
               (storeEvent (indexedRepayBorrow token e);;
                db_upsert_userMetrics (RepayBorrowEvent.borrower (args e)) (symbol token)
                  match tokenArrayOf (userMetrics w !! RepayBorrowEvent.borrower (args e))
                          (symbol token) with
                  | Some tokenArray =>
                      (fst tokenArray, Js.toString (RepayBorrowEvent.accountBorrows (args e)))
                  | None => ("0", Js.toString (RepayBorrowEvent.accountBorrows (args e)))
                  end)
               (fun error =>
                  console_error
                    ("[EVENT ERROR] "
                     +:+ ("RepayBorrow event error for token " +:+ symbol token
                          +:+ " - Borrower: " +:+ RepayBorrowEvent.borrower (args e)
                          +:+ ", Payer: " +:+ RepayBorrowEvent.payer (args e)) +:+ ":")
                    (Some error);;
                  logError error
                    ("RepayBorrow event error for token " +:+ symbol token
                     +:+ " - Borrower: " +:+ RepayBorrowEvent.borrower (args e)
                     +:+ ", Payer: " +:+ RepayBorrowEvent.payer (args e)))) w)).
    { unfold exec, try_catch, mbind, M_bind, bind.
      rewrite find_reliable by assumption. reflexivity. }
    apply After; [|intros err; apply Hcatch].
    apply (stable_upsert _ HA). intros; assumption.
  - unfold exec at 1. now rewrite onMint_run.
  - unfold exec at 1. now rewrite onRedeem_run.
  - unfold onLiquidateBorrow. cbv zeta.
    apply After; [|intros err; apply Hcatch].
    stable_walk HA ltac:(intros; assumption).
  - unfold onTransfer. cbv zeta.
    apply After; [|intros err; apply Hcatch].
    stable_walk HA ltac:(intros; assumption).
Qed.

(** X5. Over a reliable storage, once an event that was not in the log yet
    has been handled, its user is linked to the token in [userAddresses],
    and so is its related address when it has one (the payer of a
    repayment, the borrower of a liquidation, the receiver of a transfer). *)
Theorem handle_links_addresses (token : TokenConfig) (ev : ProtocolEvent) (w : World) :
  storageReliable w ->
  has_tx (TxRow.id (transactionRow (indexedOf token ev))) (userTransactions w) = false ->
  let w' := exec (handle token ev) w in
  has_addr (eventUser ev) (symbol token) (userAddresses w') = true
  /\ (forall related,
        IndexedEvent.relatedAddress (indexedOf token ev) = Some related -> related <> "" ->
        has_addr related (symbol token) (userAddresses w') = true).
Proof.
  intros Hrel Hfresh w'. subst w'.
  rewrite (handle_links_from_storeEvent token ev w Hrel).
  destruct (storeEvent_links (indexedOf token ev) w Hrel Hfresh) as [Hu Hr].
  destruct ev; exact (conj Hu Hr).
Qed.

Lemma handle_links_addresses_witness :
  has_addr bob "DAI"
    (userAddresses (exec (handle DAI (EvLiquidateBorrow (liquidate 10))) emptyWorld)) = true
  /\ (forall related,
        IndexedEvent.relatedAddress (indexedOf DAI (EvLiquidateBorrow (liquidate 10)))
          = Some related ->
        related <> "" ->
        has_addr related "DAI"
          (userAddresses (exec (handle DAI (EvLiquidateBorrow (liquidate 10))) emptyWorld))
          = true).
Proof.
  apply (handle_links_addresses DAI (EvLiquidateBorrow (liquidate 10)) emptyWorld);
    reflexivity.
Defined.

(* ===================================================================== *)
(** ** Keys and names *)
(* ===================================================================== *)

Lemma toString_inj (x y : Z) : Js.toString x = Js.toString y -> x = y.
Proof.
  intros H. pose proof (BigInt_toString x) as Hx. rewrite H, BigInt_toString in Hx.
  congruence.
Qed.

Lemma dash_split (h1 h2 d1 d2 : string) :
  noDash h1 = true -> noDash h2 = true ->
  h1 +:+ "-" +:+ d1 = h2 +:+ "-" +:+ d2 -> h1 = h2 /\ d1 = d2.
Proof.
  revert h2. induction h1 as [|a h1 IH]; intros [|b h2] H1 H2 E.
  - now injection E.
  - rewrite append_cons in E. cbn in E. injection E as Eb _.
    cbn in H2. subst b. discriminate H2.
  - rewrite append_cons in E. cbn in E. injection E as Ea _.
    cbn in H1. subst a. discriminate H1.
  - rewrite !append_cons in E. injection E as Eab E. subst b.
    cbn in H1, H2. apply andb_true_iff in H1 as [_ H1]. apply andb_true_iff in H2 as [_ H2].
    destruct (IH h2 H1 H2 E) as [-> ->]. auto.
Qed.

(** X6. The key [`${transactionHash}-${logIndex}`] of a transaction row
    identifies the chain location: for hashes without ["-"], two locations
    with the same key have the same hash and the same log index. *)
Theorem txId_injective (hash1 hash2 : string) (index1 index2 : Z) :
  noDash hash1 = true -> noDash hash2 = true ->
  txId hash1 index1 = txId hash2 index2 ->
  hash1 = hash2 /\ index1 = index2.
Proof.
  intros H1 H2 E. unfold txId in E.
  destruct (dash_split _ _ _ _ H1 H2 E) as [Hh Hd].
  split; [exact Hh | now apply toString_inj].
Qed.

Lemma txId_injective_witness :
  transaction_hash borrow100 = "0xa001" /\ log_logIndex borrow100 = 0.
Proof.
  apply (txId_injective (transaction_hash borrow100) "0xa001" (log_logIndex borrow100) 0);
    reflexivity.
Defined.

(** Without the hypothesis the key is ambiguous. *)
Example txId_ambiguous : txId "0xa-" 5 = txId "0xa" (-5).
Proof. vm_compute. reflexivity. Qed.

(* ===================================================================== *)
(** ** Contract names: registration and configuration *)
(* ===================================================================== *)

Lemma contractName_in_TOKENS (token : TokenConfig) :
  contractName token = contractNameIn TOKENS token.
Proof. reflexivity. Qed.

Lemma contractNameIn_injective (tokens : list TokenConfig) (token1 token2 : TokenConfig) :
  contractNameIn tokens token1 = contractNameIn tokens token2 -> symbol token1 = symbol token2.
Proof.
  unfold contractNameIn. destruct (head tokens) as [first|].
  - destruct (String.eqb_spec (symbol token1) (symbol first)) as [E1|N1];
      destruct (String.eqb_spec (symbol token2) (symbol first)) as [E2|N2]; intros E.
    + congruence.
    + destruct (symbol token2); discriminate E.
    + destruct (symbol token1); discriminate E.
    + now apply (String.app_inj "MToken_") in E.
  - intros E. now apply (String.app_inj "MToken_") in E.
Qed.

(** X7. Two markets with the same contract name have the same symbol: the
    callbacks of markets with different symbols are registered under
    different names. *)
Theorem contractName_injective (token1 token2 : TokenConfig) :
  contractName token1 = contractName token2 -> symbol token1 = symbol token2.
Proof. rewrite !contractName_in_TOKENS. apply contractNameIn_injective. Qed.

Lemma contractName_injective_witness : symbol DAI = symbol DAI.
Proof. apply (contractName_injective DAI DAI). reflexivity. Defined.

Lemma addTokenContract_other (tokens : list TokenConfig) (m : gmap string ContractConfig)
    (token : TokenConfig) (name : string) :
  contractNameIn tokens token <> name ->
  addTokenContract tokens m token !! name = m !! name.
Proof.
  intros Hne. unfold addTokenContract.
  destruct (_ && _); [now rewrite lookup_insert_ne | reflexivity].
Qed.

Lemma fold_addTokenContract_other (tokens l : list TokenConfig) (m : gmap string ContractConfig)
    (name : string) :
  Forall (fun token => contractNameIn tokens token <> name) l ->
  fold_left (addTokenContract tokens) l m !! name = m !! name.
Proof.
  revert m. induction l as [|t l IH]; intros m Hall; [reflexivity|].
  apply Forall_cons in Hall as [Ht Hl]. cbn [fold_left].
  rewrite (IH _ Hl). now apply addTokenContract_other.
Qed.

Lemma fold_addTokenContract_hit (tokens l : list TokenConfig) (m : gmap string ContractConfig)
    (token : TokenConfig) :
  NoDup (map symbol l) -> token ∈ l ->
  symbol token <> "" -> address token <> "" ->
  fold_left (addTokenContract tokens) l m !! contractNameIn tokens token
  = Some (mTokenContract (address token)).
Proof.
  intros Hnd Hin Hs Ha. revert m.
  induction l as [|t l IH]; intros m; [now apply elem_of_nil in Hin|].
  cbn [map] in Hnd. apply NoDup_cons in Hnd as [Hfresh Hnd].
  cbn [fold_left]. apply elem_of_cons in Hin as [<-|Hin].
  - rewrite fold_addTokenContract_other.
    + unfold addTokenContract, Js.truthy.
      apply String.eqb_neq in Hs, Ha. rewrite Hs, Ha. cbn [negb andb].
      apply lookup_insert_eq.
    + apply Forall_forall. intros t' Hin' E. apply Hfresh.
      apply contractNameIn_injective in E. rewrite <- E.
      apply list_elem_of_fmap. now exists t'.
  - now apply IH.
Qed.

(** X8. The contracts of the configuration and the registrations of
    [setupEventHandlers] agree, for any list of markets with distinct
    symbols: the name a market's callbacks are registered under is the key
    of a configured contract, and that contract is the market's own
    address, provided the market has a symbol and an address. *)
Theorem registered_contract_is_configured (tokens : list TokenConfig) (token : TokenConfig) :
  NoDup (map symbol tokens) -> token ∈ tokens ->
  symbol token <> "" -> address token <> "" ->
  contractsOf tokens !! contractNameIn tokens token = Some (mTokenContract (address token)).
Proof.
  intros Hnd Hin Hs Ha. unfold contractsOf, tokenContractsOf.
  assert (Hlen : (0 <? length tokens)%nat = true).
  { destruct tokens; [now apply elem_of_nil in Hin | reflexivity]. }
  rewrite Hlen. cbv zeta.
  pose proof (fold_addTokenContract_hit tokens tokens ∅ token Hnd Hin Hs Ha) as Hhit.
  apply lookup_union_Some_l.
  destruct (Nat.eqb_spec (size (fold_left (addTokenContract tokens) tokens ∅)) 0) as [E|_];
    [|exact Hhit].
  apply map_size_empty_iff in E. rewrite E in Hhit. now rewrite lookup_empty in Hhit.
Qed.

Lemma TOKENS_symbols : NoDup (map symbol TOKENS).
Proof. apply (bool_decide_unpack (NoDup (map symbol TOKENS))). vm_compute. reflexivity. Qed.

Lemma registered_contract_is_configured_witness :
  contracts !! contractName USDC = Some (mTokenContract (address USDC)).
Proof.
  apply (registered_contract_is_configured TOKENS USDC).
  - exact TOKENS_symbols.
  - apply list_elem_of_further, list_elem_of_here.
  - discriminate.
  - discriminate.
Defined.

(* ===================================================================== *)
(** ** How the callbacks compose *)
(* ===================================================================== *)

Lemma amountSupplied_same_table (w1 w2 : World) (u s : string) :
  userMetrics w2 = userMetrics w1 -> amountSupplied w2 u s = amountSupplied w1 u s.
Proof. intros E. unfold amountSupplied, readTokenData. now rewrite E. Qed.

(** X9. A Mint event and the Transfer from the zero address that comes with
    it credit the receiver once, in whichever order the two are handled; so
    do a Redeem event and the Transfer to the zero address that comes with
    it debit the sender once. *)
Theorem mint_redeem_pairing (token : TokenConfig) (w : World)
    (transferred : Event TransferEvent.t) (s : Z) :
  storageReliable w ->
  let from := TransferEvent.from (args transferred) in
  let to := TransferEvent.to (args transferred) in
  let amount := TransferEvent.amount (args transferred) in
  (forall minted : Event MintEvent.t,
     from = zeroAddress ->
     amountSupplied w to (symbol token) = Some s ->
     amountSupplied (exec (onTransfer token transferred) (exec (onMint token minted) w))
       to (symbol token) = Some (s + amount)
     /\ amountSupplied (exec (onMint token minted) (exec (onTransfer token transferred) w))
          to (symbol token) = Some (s + amount))
  /\ (forall redeemed : Event RedeemEvent.t,
        from <> zeroAddress -> to = zeroAddress ->
        amountSupplied w from (symbol token) = Some s ->
        amount <= s ->
        amountSupplied (exec (onTransfer token transferred) (exec (onRedeem token redeemed) w))
          from (symbol token) = Some (s - amount)
        /\ amountSupplied (exec (onRedeem token redeemed) (exec (onTransfer token transferred) w))
             from (symbol token) = Some (s - amount)).
Proof.
  intros H from to amount. split.
  - intros minted Hfrom Hs. split.
    + apply (transfer_mint_credits token transferred (exec (onMint token minted) w) s).
      * apply (handle_reliable token (EvMint minted) w H).
      * exact Hfrom.
      * rewrite (amountSupplied_same_table w); [exact Hs|].
        apply (onMint_keeps_metrics token minted (userMetrics w) w eq_refl).
    + rewrite (amountSupplied_same_table (exec (onTransfer token transferred) w)).
      * apply (transfer_mint_credits token transferred w s H Hfrom Hs).
      * apply (onMint_keeps_metrics token minted _ _ eq_refl).
  - intros redeemed Hfrom Hto Hs Hle. split.
    + apply (transfer_burn_debits token transferred (exec (onRedeem token redeemed) w) s);
        try assumption.
      * apply (handle_reliable token (EvRedeem redeemed) w H).
      * rewrite (amountSupplied_same_table w); [exact Hs|].
        apply (onRedeem_keeps_metrics token redeemed (userMetrics w) w eq_refl).
    + rewrite (amountSupplied_same_table (exec (onTransfer token transferred) w)).
      * now apply (transfer_burn_debits token transferred w s).
      * apply (onRedeem_keeps_metrics token redeemed _ _ eq_refl).
Qed.

Lemma mint_redeem_pairing_witness :
  amountSupplied
    (exec (onTransfer DAI (transfer zeroAddress alice 50 "0xa004"))
       (exec (onMint DAI mint50) emptyWorld)) alice "DAI" = Some 50
  /\ amountSupplied
       (exec (onMint DAI mint50)
          (exec (onTransfer DAI (transfer zeroAddress alice 50 "0xa004")) emptyWorld))
       alice "DAI" = Some 50.
Proof.
  apply (proj1 (mint_redeem_pairing DAI emptyWorld (transfer zeroAddress alice 50 "0xa004") 0
                  eq_refl) mint50);
    reflexivity.
Defined.

(** X10. Over a reliable storage, sending an amount from one address to
    another and the same amount back restores both recorded amounts, when
    the first sender holds the amount and the other address holds a
    non-negative amount. *)
Theorem transfer_round_trip (token : TokenConfig) (there back : Event TransferEvent.t)
    (w : World) (sA sB : Z) :
  storageReliable w ->
  let A := TransferEvent.from (args there) in
  let B := TransferEvent.to (args there) in
  A <> zeroAddress -> B <> zeroAddress -> A <> B ->
  TransferEvent.from (args back) = B -> TransferEvent.to (args back) = A ->
  TransferEvent.amount (args back) = TransferEvent.amount (args there) ->
  amountSupplied w A (symbol token) = Some sA ->
  amountSupplied w B (symbol token) = Some sB ->
  TransferEvent.amount (args there) <= sA -> 0 <= sB ->
  let w' := exec (onTransfer token back) (exec (onTransfer token there) w) in
  amountSupplied w' A (symbol token) = Some sA
  /\ amountSupplied w' B (symbol token) = Some sB.
Proof.
  intros H A B HA HB Hne Hbf Hbt Hba HsA HsB Hle HposB w'.
  destruct (transfer_ordinary_moves token there w sA sB H HA HB Hne HsA HsB Hle)
    as (HsA1 & HsB1 & _ & Hrel1 & _).
  fold A B in HsA1, HsB1.
  set (w1 := exec (onTransfer token there) w) in *.
  destruct (transfer_ordinary_moves token back w1
              (sB + TransferEvent.amount (args there)) (sA - TransferEvent.amount (args there)))
    as (HsB2 & HsA2 & _); try assumption.
  - now rewrite Hbf.
  - now rewrite Hbt.
  - rewrite Hbf, Hbt. now apply not_eq_sym.
  - now rewrite Hbf.
  - now rewrite Hbt.
  - rewrite Hba. lia.
  - rewrite Hbf, Hba in HsB2. rewrite Hbt, Hba in HsA2. subst w'.
    rewrite HsA2, HsB2. split; f_equal; lia.
Qed.

Lemma transfer_round_trip_witness :
  amountSupplied
    (exec (onTransfer DAI (transfer bob alice 3 "0xb004"))
       (exec (onTransfer DAI (transfer alice bob 3 "0xb003")) aliceAndBob)) alice "DAI" = Some 5
  /\ amountSupplied
       (exec (onTransfer DAI (transfer bob alice 3 "0xb004"))
          (exec (onTransfer DAI (transfer alice bob 3 "0xb003")) aliceAndBob)) bob "DAI"
     = Some 2.
Proof.
  apply (transfer_round_trip DAI (transfer alice bob 3 "0xb003") (transfer bob alice 3 "0xb004")
           aliceAndBob 5 2);
    try reflexivity; try discriminate; cbn; lia.
Defined.

(** X11. Over a reliable storage, a transfer from the zero address to a
    holder followed by a transfer of the same amount from the holder to the
    zero address restores the holder's recorded amount, when that amount was
    not negative. *)
Theorem issue_then_burn (token : TokenConfig) (issue burn : Event TransferEvent.t)
    (w : World) (s : Z) :
  storageReliable w ->
  let holder := TransferEvent.to (args issue) in
  TransferEvent.from (args issue) = zeroAddress ->
  holder <> zeroAddress ->
  TransferEvent.from (args burn) = holder -> TransferEvent.to (args burn) = zeroAddress ->
  TransferEvent.amount (args burn) = TransferEvent.amount (args issue) ->
  amountSupplied w holder (symbol token) = Some s ->
  0 <= s ->
  amountSupplied (exec (onTransfer token burn) (exec (onTransfer token issue) w))
    holder (symbol token) = Some s.
Proof.
  intros H holder Hif Hh Hbf Hbt Hba Hs Hpos.
  destruct (transfer_mint_credits token issue w s H Hif Hs) as (Hs1 & Hrel1 & _).
  fold holder in Hs1. set (w1 := exec (onTransfer token issue) w) in *.
  rewrite <- Hbf.
  rewrite (transfer_burn_debits token burn w1 (s + TransferEvent.amount (args issue)));
    try assumption.
  - f_equal. rewrite Hba. lia.
  - now rewrite Hbf.
  - now rewrite Hbf.
  - rewrite Hba. lia.
Qed.

Lemma issue_then_burn_witness :
  amountSupplied
    (exec (onTransfer DAI (transfer alice zeroAddress 50 "0xa006"))
       (exec (onTransfer DAI (transfer zeroAddress alice 50 "0xa004")) emptyWorld))
    alice "DAI" = Some 0.
Proof.
  apply (issue_then_burn DAI (transfer zeroAddress alice 50 "0xa004")
           (transfer alice zeroAddress 50 "0xa006") emptyWorld 0);
    try reflexivity; try discriminate; lia.
Defined.

(* ===================================================================== *)
(** ** When the storage fails *)
(* ===================================================================== *)

Lemma storageCall_fault {A} (op : M A) (w : World) (rest : list bool) :
  storageFaults w = true :: rest ->
  storageCall op w = (inl StorageError, note_raised StorageError (set_storageFaults rest w)).
Proof. unfold storageCall. now intros ->. Qed.

Lemma storageCall_ok {A} (op : M A) (w : World) (rest : list bool) :
  storageFaults w = false :: rest ->
  storageCall op w = op (set_storageFaults rest w).
Proof. unfold storageCall. now intros ->. Qed.

(** What a [catch] clause that reports leaves behind: the tables and the
    storage oracle as they were, the error on the console. *)
Lemma report_effect (label context : string) (e : JsError) (w : World) :
  let w' := exec (console_error label (Some e);; logError e context) w in
  userMetrics w' = userMetrics w
  /\ userTransactions w' = userTransactions w
  /\ userAddresses w' = userAddresses w
  /\ storageFaults w' = storageFaults w
  /\ exists more, printedErrors w' = (printedErrors w ++ e :: more)%list.
Proof.
  unfold exec, mbind, M_bind, bind, console_error, logError, try_catch, fs_appendFile, throw,
    printedErrors.
  cbv beta iota zeta. cbn [fsFaults set_console].
  destruct (fsFaults w) as [|[|] rest]; cbn; repeat split.
  - exists []. now rewrite omap_app.
  - exists [FsError]. rewrite !omap_app, <- app_assoc. reflexivity.
  - exists []. now rewrite omap_app.
Qed.

Lemma bind_inl {A B} (c : M A) (k : A -> M B) (w w' : World) (e : JsError) :
  c w = (inl e, w') -> (c ≫= k) w = (inl e, w').
Proof. unfold mbind, M_bind, bind. now intros ->. Qed.

Lemma try_catch_inl {A} (body : M A) (handler : JsError -> M A) (w w' : World) (e : JsError) :
  body w = (inl e, w') -> try_catch body handler w = handler e w'.
Proof. unfold try_catch. now intros ->. Qed.

Lemma storeEvent_log_fault (event : IndexedEvent.t) (w : World) (rest : list bool) :
  storageFaults w = true :: rest ->
  let w1 := exec (storeEvent event) w in
  userMetrics w1 = userMetrics w
  /\ userTransactions w1 = userTransactions w
  /\ userAddresses w1 = userAddresses w
  /\ storageFaults w1 = rest
  /\ exists more, printedErrors w1 = (printedErrors w ++ StorageError :: more)%list.
Proof.
  intros Hf w1. subst w1. unfold exec, storeEvent.
  erewrite try_catch_inl
    by (apply bind_inl; unfold db_insert_userTransactions; apply (storageCall_fault _ w rest Hf)).
  cbv zeta.
  match goal with
  | |- context [snd ((console_error ?l (Some ?e);; logError ?e ?c) ?w0)] =>
      destruct (report_effect l c e w0) as (H1 & H2 & H3 & H4 & H5)
  end.
  unfold exec in H1, H2, H3, H4, H5. cbv zeta in *.
  rewrite H1, H2, H3, H4. repeat split. exact H5.
Qed.

Lemma find_ok (userAddress : string) (w : World) (rest : list bool) :
  storageFaults w = false :: rest ->
  db_find_userMetrics userAddress w
  = (inr (userMetrics w !! userAddress), set_storageFaults rest w).
Proof. intros H. unfold db_find_userMetrics. now rewrite (storageCall_ok _ w rest H). Qed.

Lemma upsert_ok (userAddress symbol : string) (data : TokenData) (w : World) (rest : list bool) :
  storageFaults w = false :: rest ->
  db_upsert_userMetrics userAddress symbol data w
  = (inr tt, set_userMetrics (upsertMetrics userAddress symbol data) (set_storageFaults rest w)).
Proof. intros H. unfold db_upsert_userMetrics. now rewrite (storageCall_ok _ w rest H). Qed.

Lemma upsert_fault (userAddress symbol : string) (data : TokenData) (w : World)
    (rest : list bool) :
  storageFaults w = true :: rest ->
  db_upsert_userMetrics userAddress symbol data w
  = (inl StorageError, note_raised StorageError (set_storageFaults rest w)).
Proof. intros H. unfold db_upsert_userMetrics. now rewrite (storageCall_fault _ w rest H). Qed.

(** The three storage calls of [storeEvent] for a new key and a related
    address, none of them failing. *)
Lemma storeEvent_three_calls (event : IndexedEvent.t) (w : World) (related : string)
    (rest : list bool) :
  storageFaults w = false :: false :: false :: rest ->
  has_tx (TxRow.id (transactionRow event)) (userTransactions w) = false ->
  IndexedEvent.relatedAddress event = Some related ->
  related <> "" ->
  let w1 := exec (storeEvent event) w in
  userMetrics w1 = userMetrics w
  /\ storageFaults w1 = rest
  /\ userTransactions w1 = (userTransactions w ++ [transactionRow event])%list
  /\ console w1 = console w.
Proof.
  intros Hf Hfresh Hrel Hne w1. subst w1.
  assert (Htruthy : Js.truthy (Some related) = true).
  { unfold Js.truthy. apply negb_true_iff. now apply String.eqb_neq. }
  unfold exec, storeEvent, try_catch, mbind, M_bind, bind,
    db_insert_userTransactions, db_insert_userAddresses.
  rewrite (storageCall_ok _ w _ Hf). cbn [userTransactions set_storageFaults].
  rewrite Hfresh. cbv beta iota.
  erewrite storageCall_ok by reflexivity.
  cbn [userAddresses set_storageFaults set_userTransactions AddrRow.userAddress
       AddrRow.tokenSymbol].
  rewrite Hrel, Htruthy.
  destruct (has_addr (IndexedEvent.user event) _ _); cbv beta iota;
    (erewrite storageCall_ok by reflexivity);
    cbn [userAddresses set_storageFaults set_userTransactions set_userAddresses
         AddrRow.userAddress AddrRow.tokenSymbol];
    destruct (has_addr related _ _); cbn; repeat split; reflexivity.
Qed.

(** X12. A Borrow or RepayBorrow event whose first read of the balance
    table fails is dropped altogether: the callback raises nothing, no row
    is added to the transaction log, no address is linked, no balance is
    changed; the failure is printed. *)
Theorem failed_read_drops_borrow (token : TokenConfig) (ev : ProtocolEvent) (w : World)
    (rest : list bool) :
  storageFaults w = true :: rest ->
  eventKind ev = Borrow \/ eventKind ev = RepayBorrow ->
  let w' := exec (handle token ev) w in
  outcome (handle token ev) w = inr tt
  /\ userTransactions w' = userTransactions w
  /\ userAddresses w' = userAddresses w
  /\ userMetrics w' = userMetrics w
  /\ storageFaults w' = rest
  /\ exists more, printedErrors w' = (printedErrors w ++ StorageError :: more)%list.
Proof.
  intros Hf Hkind w'. split; [apply handle_returns|]. subst w'.
  assert (Hread : forall user,
            db_find_userMetrics user w
            = (inl StorageError, note_raised StorageError (set_storageFaults rest w)))
    by (intros user; unfold db_find_userMetrics; apply (storageCall_fault _ w rest Hf)).
  destruct ev as [e|e|e|e|e|e]; cbn [eventKind] in Hkind;
    try (destruct Hkind; discriminate); cbn [handle].
  - unfold exec, onBorrow. cbv zeta.
    erewrite try_catch_inl by (apply bind_inl; apply Hread).
    match goal with
    | |- context [snd ((console_error ?l (Some ?e);; logError ?e ?c) ?w0)] =>
        destruct (report_effect l c e w0) as (H1 & H2 & H3 & H4 & H5)
    end.
    unfold exec in H1, H2, H3, H4, H5. cbv zeta in *.
    rewrite H1, H2, H3, H4. repeat split. exact H5.
  - unfold exec, onRepayBorrow. cbv zeta.
    erewrite try_catch_inl by (apply bind_inl; apply Hread).
    match goal with
    | |- context [snd ((console_error ?l (Some ?e);; logError ?e ?c) ?w0)] =>
        destruct (report_effect l c e w0) as (H1 & H2 & H3 & H4 & H5)
    end.
    unfold exec in H1, H2, H3, H4, H5. cbv zeta in *.
    rewrite H1, H2, H3, H4. repeat split. exact H5.
Qed.

Lemma failed_read_drops_borrow_witness :
  outcome (handle DAI (EvBorrow borrow100)) firstCallFails = inr tt
  /\ userTransactions (exec (handle DAI (EvBorrow borrow100)) firstCallFails) = []
  /\ userAddresses (exec (handle DAI (EvBorrow borrow100)) firstCallFails) = []
  /\ userMetrics (exec (handle DAI (EvBorrow borrow100)) firstCallFails) = ∅
  /\ storageFaults (exec (handle DAI (EvBorrow borrow100)) firstCallFails) = []
  /\ exists more,
       printedErrors (exec (handle DAI (EvBorrow borrow100)) firstCallFails)
       = (printedErrors firstCallFails ++ StorageError :: more)%list.
Proof.
  apply (failed_read_drops_borrow DAI (EvBorrow borrow100) firstCallFails []).
  - reflexivity.
  - left. reflexivity.
Defined.

Lemma onTransfer_mint_run_from (token : TokenConfig) (e : Event TransferEvent.t) (w : World)
    (s : Z) :
  storageReliable (exec (storeEvent (indexedTransfer token e)) w) ->
  TransferEvent.from (args e) = zeroAddress ->
  amountSupplied w (TransferEvent.to (args e)) (symbol token) = Some s ->
  onTransfer token e w
  = (inr tt,
     set_userMetrics
       (upsertMetrics (TransferEvent.to (args e)) (symbol token)
          (Js.toString (s + TransferEvent.amount (args e)),
           snd (readTokenData w (TransferEvent.to (args e)) (symbol token))))
       (exec (storeEvent (indexedTransfer token e)) w)).
Proof.
  intros Hrel Hfrom Hs. unfold onTransfer. open_run.
  rewrite storeEvent_run; cbv beta iota.
  rewrite (eqb_zero_true _ Hfrom).
  rewrite find_reliable by assumption. cbv beta iota.
  rewrite storeEvent_userMetrics, readCell_tokenArray.
  unfold amountSupplied, readTokenData in Hs.
  rewrite (js_BigInt_Some _ _ _ Hs). cbv beta iota.
  rewrite upsert_reliable by assumption.
  reflexivity.
Qed.

Lemma onLiquidateBorrow_run_from (token : TokenConfig) (e : Event LiquidateBorrowEvent.t)
    (w : World) (c : Z) :
  storageReliable (exec (storeEvent (indexedLiquidateBorrow token e)) w) ->
  is_Some (tokenArrayOf (userMetrics w !! LiquidateBorrowEvent.borrower (args e))
             (symbol token)) ->
  amountBorrowed w (LiquidateBorrowEvent.borrower (args e)) (symbol token) = Some c ->
  onLiquidateBorrow token e w
  = (inr tt,
     set_userMetrics
       (upsertMetrics (LiquidateBorrowEvent.borrower (args e)) (symbol token)
          (fst (readTokenData w (LiquidateBorrowEvent.borrower (args e)) (symbol token)),
           Js.toString (c - LiquidateBorrowEvent.repayAmount (args e))))
       (exec (storeEvent (indexedLiquidateBorrow token e)) w)).
Proof.
  intros Hrel [[supplied borrowed] Hcell] Hc.
  unfold amountBorrowed, readTokenData, readCell in *. rewrite Hcell in *. cbn [fst snd] in *.
  unfold onLiquidateBorrow. open_run.
  rewrite storeEvent_run; cbv beta iota.
  rewrite find_reliable by assumption. cbv beta iota.
  rewrite storeEvent_userMetrics, Hcell. cbn [fst snd].
  rewrite (js_BigInt_Some _ _ _ Hc). cbv beta iota.
  unfold mret, M_ret, ret.
  rewrite upsert_reliable by assumption.
  reflexivity.
Qed.

(** X13. When the storage fails at the insert into the transaction log
    and at nothing after it, a Transfer from the zero address and a
    LiquidateBorrow still change the balance, although their event is in
    no row of the log: [storeEvent] swallows the failure and the callback
    goes on. *)
Theorem unlogged_event_still_applies (token : TokenConfig) (w : World) :
  storageFaults w = [true] ->
  (forall (e : Event TransferEvent.t) (s : Z),
     TransferEvent.from (args e) = zeroAddress ->
     amountSupplied w (TransferEvent.to (args e)) (symbol token) = Some s ->
     let w' := exec (onTransfer token e) w in
     userTransactions w' = userTransactions w
     /\ amountSupplied w' (TransferEvent.to (args e)) (symbol token)
        = Some (s + TransferEvent.amount (args e)))
  /\ (forall (e : Event LiquidateBorrowEvent.t) (c : Z),
        is_Some (tokenArrayOf (userMetrics w !! LiquidateBorrowEvent.borrower (args e))
                   (symbol token)) ->
        amountBorrowed w (LiquidateBorrowEvent.borrower (args e)) (symbol token) = Some c ->
        let w' := exec (onLiquidateBorrow token e) w in
        userTransactions w' = userTransactions w
        /\ amountBorrowed w' (LiquidateBorrowEvent.borrower (args e)) (symbol token)
           = Some (c - LiquidateBorrowEvent.repayAmount (args e))).
Proof.
  intros Hf. split.
  - intros e s Hfrom Hs w'. subst w'.
    destruct (storeEvent_log_fault (indexedTransfer token e) w [] Hf)
      as (_ & Hlog & _ & Hrel & _).
    rewrite (exec_of_run _ _ _ _ (onTransfer_mint_run_from token e w s Hrel Hfrom Hs)).
    split; [exact Hlog|].
    unfold amountSupplied. rewrite readTokenData_set_userMetrics, readCell_upsert.
    cbn [fst]. apply BigInt_toString.
  - intros e c Hcell Hc w'. subst w'.
    destruct (storeEvent_log_fault (indexedLiquidateBorrow token e) w [] Hf)
      as (_ & Hlog & _ & Hrel & _).
    rewrite (exec_of_run _ _ _ _ (onLiquidateBorrow_run_from token e w c Hrel Hcell Hc)).
    split; [exact Hlog|].
    unfold amountBorrowed. rewrite readTokenData_set_userMetrics, readCell_upsert.
    cbn [snd]. apply BigInt_toString.
Qed.

Lemma unlogged_event_still_applies_witness :
  userTransactions
    (exec (onTransfer DAI (transfer zeroAddress alice 50 "0xa004")) firstCallFails) = []
  /\ amountSupplied
       (exec (onTransfer DAI (transfer zeroAddress alice 50 "0xa004")) firstCallFails)
       alice "DAI" = Some 50.
Proof.
  apply (proj1 (unlogged_event_still_applies DAI firstCallFails eq_refl)
           (transfer zeroAddress alice 50 "0xa004") 0);
    reflexivity.
Defined.

Lemma exec_of_eq {A B} (c : M A) (c' : M B) (w w' : World) :
  snd (c w) = snd (c' w') -> exec c w = exec c' w'.
Proof. intros H. exact H. Qed.

Lemma onTransfer_second_write_run (token : TokenConfig) (e : Event TransferEvent.t)
    (w : World) (sFrom sTo : Z) :
  storageFaults (exec (storeEvent (indexedTransfer token e)) w) = [false; false; false; true] ->
  TransferEvent.from (args e) <> zeroAddress ->
  TransferEvent.to (args e) <> zeroAddress ->
  amountSupplied w (TransferEvent.from (args e)) (symbol token) = Some sFrom ->
  amountSupplied w (TransferEvent.to (args e)) (symbol token) = Some sTo ->
  TransferEvent.amount (args e) <= sFrom ->
  onTransfer token e w
    = (console_error
         ("[EVENT ERROR] Error processing Transfer event from " +:+ contractName token +:+ ":")
         (Some StorageError);;
       logError StorageError ("Error processing Transfer event from " +:+ contractName token))
        (note_raised StorageError
           (set_storageFaults []
              (set_userMetrics
                 (upsertMetrics (TransferEvent.from (args e)) (symbol token)
                    (Js.toString (sFrom - TransferEvent.amount (args e)),
                     snd (readTokenData w (TransferEvent.from (args e)) (symbol token))))
                 (set_storageFaults [true]
                    (exec (storeEvent (indexedTransfer token e)) w))))).
Proof.
  intros Hf1 Hfrom Hto HsF HsT Hle.
  pose proof (storeEvent_userMetrics (indexedTransfer token e) w) as Hm1.
  set (w1 := exec (storeEvent (indexedTransfer token e)) w) in *.
  unfold amountSupplied, readTokenData in HsF, HsT.
  unfold onTransfer.
  erewrite try_catch_inl; [reflexivity|].
  cbv zeta. unfold mbind, M_bind, bind.
  rewrite storeEvent_run. fold w1. cbv beta iota.
  rewrite (eqb_zero_false _ Hfrom), (eqb_zero_false _ Hto).
  rewrite (find_ok _ w1 [false; false; true] Hf1). cbv beta iota.
  rewrite (find_ok _ (set_storageFaults [false; false; true] w1) [false; true] eq_refl).
  cbv beta iota.
  cbn [userMetrics set_storageFaults]. rewrite Hm1, !readCell_tokenArray.
  rewrite (js_BigInt_Some _ _ _ HsF). cbv beta iota.
  rewrite (geb_true _ _ Hle).
  unfold mret, M_ret, ret. cbv beta iota.
  rewrite (js_BigInt_Some _ _ _ HsT). cbv beta iota.
  rewrite (upsert_ok _ _ _
             (set_storageFaults [false; true] (set_storageFaults [false; false; true] w1))
             [true] eq_refl).
  cbv beta iota.
  match goal with
  | |- context [db_upsert_userMetrics _ _ _ ?w0] =>
      rewrite (upsert_fault _ _ _ w0 [] eq_refl)
  end.
  reflexivity.
Qed.

(** X14. An ordinary transfer is not undone when its second write fails.
    For a new event between two different addresses, when the first six
    storage calls succeed (the three of [storeEvent], the two reads and the
    write of the sender's pair) and the seventh, the write of the
    receiver's pair, fails: the sender has been debited, the receiver is
    not credited, the event is logged and the failure is printed. *)
Theorem transfer_second_write_failure (token : TokenConfig) (e : Event TransferEvent.t)
    (w : World) (sFrom sTo : Z) :
  storageFaults w = [false; false; false; false; false; false; true] ->
  has_tx (txId (transaction_hash e) (log_logIndex e)) (userTransactions w) = false ->
  TransferEvent.from (args e) <> zeroAddress ->
  TransferEvent.to (args e) <> zeroAddress ->
  TransferEvent.to (args e) <> "" ->
  TransferEvent.from (args e) <> TransferEvent.to (args e) ->
  amountSupplied w (TransferEvent.from (args e)) (symbol token) = Some sFrom ->
  amountSupplied w (TransferEvent.to (args e)) (symbol token) = Some sTo ->
  TransferEvent.amount (args e) <= sFrom ->
  let w' := exec (onTransfer token e) w in
  amountSupplied w' (TransferEvent.from (args e)) (symbol token)
    = Some (sFrom - TransferEvent.amount (args e))
  /\ amountSupplied w' (TransferEvent.to (args e)) (symbol token) = Some sTo
  /\ userTransactions w'
     = (userTransactions w ++ [transactionRow (indexedTransfer token e)])%list
  /\ exists more, printedErrors w' = (printedErrors w ++ StorageError :: more)%list.
Proof.
  intros Hf Hfresh Hfrom Hto Hto' Hne HsF HsT Hle w'. subst w'.
  assert (Hrelated : IndexedEvent.relatedAddress (indexedTransfer token e)
                     = Some (TransferEvent.to (args e))).
  { cbn [IndexedEvent.relatedAddress indexedTransfer].
    apply not_eq_sym in Hne. apply String.eqb_neq in Hne. now rewrite Hne. }
  destruct (storeEvent_three_calls (indexedTransfer token e) w (TransferEvent.to (args e))
              [false; false; false; true] Hf Hfresh Hrelated Hto')
    as (Hm1 & Hf1 & Hlog1 & Hcon1).
  pose proof (onTransfer_second_write_run token e w sFrom sTo Hf1 Hfrom Hto HsF HsT Hle)
    as Hrun.
  apply (f_equal snd) in Hrun. apply exec_of_eq in Hrun.
  match type of Hrun with
  | _ = exec (console_error ?l (Some ?err);; logError ?err ?c) ?w0 =>
      pose proof (report_effect l c err w0) as HR;
      cbv zeta in HR; rewrite <- Hrun in HR;
      destruct HR as (H1 & H2 & _ & _ & [more H5])
  end.
  unfold amountSupplied, readTokenData. rewrite H1, H2, H5.
  cbn [userMetrics userTransactions note_raised set_storageFaults set_userMetrics].
  rewrite Hlog1. repeat split.
  - rewrite readCell_upsert. cbn [fst]. apply BigInt_toString.
  - rewrite readCell_upsert_other by (left; now apply not_eq_sym).
    rewrite Hm1. exact HsT.
  - exists more. unfold printedErrors.
    cbn [console note_raised set_storageFaults set_userMetrics]. now rewrite Hcon1.
Qed.

Lemma transfer_second_write_failure_witness :
  amountSupplied
    (exec (onTransfer DAI (transfer alice bob 3 "0xb003")) seventhCallFails) alice "DAI"
  = Some 2
  /\ amountSupplied
       (exec (onTransfer DAI (transfer alice bob 3 "0xb003")) seventhCallFails) bob "DAI"
     = Some 2.
Proof.
  refine (let H := transfer_second_write_failure DAI (transfer alice bob 3 "0xb003")
                     seventhCallFails 5 2 _ _ _ _ _ _ _ _ _ in
          conj (proj1 H) (proj1 (proj2 H))).
  - reflexivity.
  - vm_compute. reflexivity.
  - vm_compute. discriminate.
  - vm_compute. discriminate.
  - vm_compute. discriminate.
  - vm_compute. discriminate.
  - vm_compute. reflexivity.
  - vm_compute. reflexivity.
  - vm_compute. discriminate.
Defined.

(* ===================================================================== *)
(** ** Replays of delta events: the balance update, whatever the log says *)
(* ===================================================================== *)

(** A [try] whose [catch] clause reports: the balance table is the one its
    body left, whether the body returned or threw. *)
Lemma try_report_metrics (body : M unit) (label context : string) (w : World) :
  userMetrics
    (exec (try_catch body
             (fun error => console_error label (Some error);; logError error context)) w)
  = userMetrics (exec body w).
Proof.
  unfold exec, try_catch.
  destruct (body w) as [[e|[]] w']; cbn [snd]; [|reflexivity].
  exact (proj1 (report_effect label context e w')).
Qed.

Lemma js_BigInt_None (s : string) (w : World) :
  Js.BigInt s = None -> js_BigInt s w = (inl (SyntaxError s), note_raised (SyntaxError s) w).
Proof. unfold js_BigInt. now intros ->. Qed.

Lemma debited_string (current amount : Z) :
  (if current >=? amount then Js.toString (current - amount) else "0")
  = Js.toString (debited current amount).
Proof. unfold debited. now destruct (current >=? amount). Qed.

(** Once [storeEvent] is over, with whatever outcome, and if the storage
    works from there on, the LiquidateBorrow callback updates the balance
    table as [liquidationUpdate] says. *)
Lemma onLiquidateBorrow_update (token : TokenConfig) (e : Event LiquidateBorrowEvent.t)
    (w : World) :
  storageReliable (exec (storeEvent (indexedLiquidateBorrow token e)) w) ->
  userMetrics (exec (onLiquidateBorrow token e) w)
  = liquidationUpdate token e (userMetrics w).
Proof.
  intros Hrel. unfold onLiquidateBorrow. cbv zeta.
  rewrite try_report_metrics.
  unfold exec at 1. unfold mbind, M_bind, bind.
  rewrite storeEvent_run. cbv beta iota.
  rewrite find_reliable by assumption. cbv beta iota.
  rewrite storeEvent_userMetrics. unfold liquidationUpdate. cbv zeta.
  destruct (tokenArrayOf _ _) as [[supplied borrowed]|]; cbn [fst snd].
  - destruct (Js.BigInt borrowed) as [c|] eqn:Hc.
    + rewrite (js_BigInt_Some _ _ _ Hc). cbv beta iota.
      unfold mret, M_ret, ret.
      rewrite upsert_reliable by assumption.
      cbn [snd userMetrics set_userMetrics]. now rewrite storeEvent_userMetrics.
    + rewrite (js_BigInt_None _ _ Hc). cbn [snd userMetrics note_raised].
      apply storeEvent_userMetrics.
  - unfold mret, M_ret, ret.
    rewrite upsert_reliable by assumption.
    cbn [snd userMetrics set_userMetrics]. now rewrite storeEvent_userMetrics.
Qed.

(** The same for the Transfer callback and [transferUpdate]. *)
Lemma onTransfer_update (token : TokenConfig) (e : Event TransferEvent.t) (w : World) :
  storageReliable (exec (storeEvent (indexedTransfer token e)) w) ->
  userMetrics (exec (onTransfer token e) w) = transferUpdate token e (userMetrics w).
Proof.
  intros Hrel. unfold onTransfer. cbv zeta.
  rewrite try_report_metrics.
  unfold exec at 1. unfold mbind, M_bind, bind.
  rewrite storeEvent_run. cbv beta iota.
  unfold transferUpdate. cbv zeta.
  destruct (String.eqb (TransferEvent.from (args e)) zeroAddress);
    [|destruct (String.eqb (TransferEvent.to (args e)) zeroAddress)].
  - rewrite find_reliable by assumption. cbv beta iota.
    rewrite storeEvent_userMetrics, readCell_tokenArray.
    destruct (Js.BigInt (fst (readCell _ _ _))) as [s|] eqn:Hs.
    + rewrite (js_BigInt_Some _ _ _ Hs). cbv beta iota.
      rewrite upsert_reliable by assumption.
      cbn [snd userMetrics set_userMetrics]. now rewrite storeEvent_userMetrics.
    + rewrite (js_BigInt_None _ _ Hs). cbn [snd userMetrics note_raised].
      apply storeEvent_userMetrics.
  - rewrite find_reliable by assumption. cbv beta iota.
    rewrite storeEvent_userMetrics, readCell_tokenArray.
    destruct (Js.BigInt (fst (readCell _ _ _))) as [s|] eqn:Hs.
    + rewrite (js_BigInt_Some _ _ _ Hs). cbv beta iota.
      rewrite <- debited_string.
      destruct (s >=? TransferEvent.amount (args e));
        unfold mret, M_ret, ret, console_error; cbv beta iota;
        rewrite upsert_reliable by assumption;
        cbn [snd userMetrics set_userMetrics set_console];
        now rewrite storeEvent_userMetrics.
    + rewrite (js_BigInt_None _ _ Hs). cbn [snd userMetrics note_raised].
      apply storeEvent_userMetrics.
  - rewrite !find_reliable by assumption. cbv beta iota.
    rewrite storeEvent_userMetrics, !readCell_tokenArray.
    destruct (Js.BigInt (fst (readCell _ (TransferEvent.from (args e)) _))) as [sF|] eqn:HsF.
    + rewrite (js_BigInt_Some _ _ _ HsF). cbv beta iota.
      rewrite <- debited_string.
      destruct (Js.BigInt (fst (readCell _ (TransferEvent.to (args e)) _))) as [sT|] eqn:HsT.
      * destruct (sF >=? TransferEvent.amount (args e));
          unfold mret, M_ret, ret, console_error; cbv beta iota;
          rewrite (js_BigInt_Some _ _ _ HsT); cbv beta iota;
          rewrite upsert_reliable by assumption; cbv beta iota;
          rewrite upsert_reliable by assumption;
          cbn [snd userMetrics set_userMetrics set_console];
          now rewrite storeEvent_userMetrics.
      * destruct (sF >=? TransferEvent.amount (args e));
          unfold mret, M_ret, ret, console_error; cbv beta iota;
          rewrite (js_BigInt_None _ _ HsT);
          cbn [snd userMetrics note_raised set_console];
          apply storeEvent_userMetrics.
    + rewrite (js_BigInt_None _ _ HsF). cbn [snd userMetrics note_raised].
      apply storeEvent_userMetrics.
Qed.

(** What follows [storeEvent] in a callback keeps an invariant that its
    steps and its [catch] clause keep. *)
Lemma after_storeEvent (I : World -> Prop) (event : IndexedEvent.t) (rest : M unit)
    (handler : JsError -> M unit) (w : World) :
  stable I rest -> (forall e, stable I (handler e)) ->
  I (exec (storeEvent event) w) ->
  I (exec (try_catch (storeEvent event;; rest) handler) w).
Proof.
  intros Hrest Hh H0.
  unfold exec at 1. unfold try_catch, mbind, M_bind, bind. rewrite storeEvent_run.
  cbv beta iota.
  set (W := exec (storeEvent event) w) in *.
  pose proof (Hrest W H0) as H1. unfold exec in H1.
  destruct (rest W) as [[e|[]] w2]; cbn [snd] in *.
  - apply (Hh e w2 H1).
  - exact H1.
Qed.

(** In every world, the transaction log after a LiquidateBorrow or a
    Transfer callback is the one its [storeEvent] left. *)
Lemma delta_log_from_storeEvent (token : TokenConfig) (w : World) :
  (forall e : Event LiquidateBorrowEvent.t,
     userTransactions (exec (onLiquidateBorrow token e) w)
     = userTransactions (exec (storeEvent (indexedLiquidateBorrow token e)) w))
  /\ (forall e : Event TransferEvent.t,
        userTransactions (exec (onTransfer token e) w)
        = userTransactions (exec (storeEvent (indexedTransfer token e)) w)).
Proof.
  assert (Hcatch : forall T label context e,
             stable (fun w' => userTransactions w' = T)
                    (console_error label (Some e);; logError e context)).
  { intros. apply (stable_report _ (closed_log T)). intros; assumption. }
  split; intros e.
  - set (T := userTransactions (exec (storeEvent (indexedLiquidateBorrow token e)) w)).
    unfold onLiquidateBorrow. cbv zeta.
    apply (after_storeEvent (fun w' => userTransactions w' = T));
      [|intros err; apply Hcatch | reflexivity].
    stable_walk (closed_log T) ltac:(intros; assumption).
  - set (T := userTransactions (exec (storeEvent (indexedTransfer token e)) w)).
    unfold onTransfer. cbv zeta.
    apply (after_storeEvent (fun w' => userTransactions w' = T));
      [|intros err; apply Hcatch | reflexivity].
    stable_walk (closed_log T) ltac:(intros; assumption).
Qed.

(** Readings of the updated table. *)
Lemma liquidationUpdate_stored (token : TokenConfig) (e : Event LiquidateBorrowEvent.t)
    (t : gmap string MetricsRow) (supplied borrowed : string) (c : Z) :
  tokenArrayOf (t !! LiquidateBorrowEvent.borrower (args e)) (symbol token)
    = Some (supplied, borrowed) ->
  Js.BigInt borrowed = Some c ->
  tokenArrayOf (liquidationUpdate token e t !! LiquidateBorrowEvent.borrower (args e))
    (symbol token)
  = Some (supplied, Js.toString (c - LiquidateBorrowEvent.repayAmount (args e))).
Proof.
  intros Hcell Hc. unfold liquidationUpdate. cbv zeta. rewrite Hcell. cbn [fst snd].
  rewrite Hc. apply tokenArrayOf_upsert.
Qed.

Lemma liquidationUpdate_absent (token : TokenConfig) (e : Event LiquidateBorrowEvent.t)
    (t : gmap string MetricsRow) :
  tokenArrayOf (t !! LiquidateBorrowEvent.borrower (args e)) (symbol token) = None ->
  tokenArrayOf (liquidationUpdate token e t !! LiquidateBorrowEvent.borrower (args e))
    (symbol token)
  = Some ("0", "0").
Proof.
  intros Hcell. unfold liquidationUpdate. cbv zeta. rewrite Hcell.
  apply tokenArrayOf_upsert.
Qed.

Lemma readCell_stored (t : gmap string MetricsRow) (user symbol : string) (p : TokenData) :
  tokenArrayOf (t !! user) symbol = Some p -> readCell t user symbol = p.
Proof. unfold readCell. now intros ->. Qed.

Lemma transferUpdate_credit (token : TokenConfig) (e : Event TransferEvent.t)
    (t : gmap string MetricsRow) (s : Z) :
  TransferEvent.from (args e) = zeroAddress ->
  Js.BigInt (fst (readCell t (TransferEvent.to (args e)) (symbol token))) = Some s ->
  Js.BigInt (fst (readCell (transferUpdate token e t) (TransferEvent.to (args e))
                    (symbol token)))
  = Some (s + TransferEvent.amount (args e)).
Proof.
  intros Hfrom Hs. unfold transferUpdate. cbv zeta.
  rewrite (eqb_zero_true _ Hfrom), Hs, readCell_upsert. cbn [fst]. apply BigInt_toString.
Qed.

Lemma transferUpdate_debit (token : TokenConfig) (e : Event TransferEvent.t)
    (t : gmap string MetricsRow) (s : Z) :
  TransferEvent.from (args e) <> zeroAddress ->
  TransferEvent.to (args e) = zeroAddress ->
  Js.BigInt (fst (readCell t (TransferEvent.from (args e)) (symbol token))) = Some s ->
  Js.BigInt (fst (readCell (transferUpdate token e t) (TransferEvent.from (args e))
                    (symbol token)))
  = Some (debited s (TransferEvent.amount (args e))).
Proof.
  intros Hfrom Hto Hs. unfold transferUpdate. cbv zeta.
  rewrite (eqb_zero_false _ Hfrom), (eqb_zero_true _ Hto), Hs, readCell_upsert.
  cbn [fst]. apply BigInt_toString.
Qed.

Lemma transferUpdate_move (token : TokenConfig) (e : Event TransferEvent.t)
    (t : gmap string MetricsRow) (sFrom sTo : Z) :
  TransferEvent.from (args e) <> zeroAddress ->
  TransferEvent.to (args e) <> zeroAddress ->
  TransferEvent.from (args e) <> TransferEvent.to (args e) ->
  Js.BigInt (fst (readCell t (TransferEvent.from (args e)) (symbol token))) = Some sFrom ->
  Js.BigInt (fst (readCell t (TransferEvent.to (args e)) (symbol token))) = Some sTo ->
  Js.BigInt (fst (readCell (transferUpdate token e t) (TransferEvent.from (args e))
                    (symbol token)))
  = Some (debited sFrom (TransferEvent.amount (args e)))
  /\ Js.BigInt (fst (readCell (transferUpdate token e t) (TransferEvent.to (args e))
                       (symbol token)))
     = Some (sTo + TransferEvent.amount (args e)).
Proof.
  intros Hfrom Hto Hne HsF HsT. unfold transferUpdate. cbv zeta.
  rewrite (eqb_zero_false _ Hfrom), (eqb_zero_false _ Hto), HsF, HsT. split.
  - rewrite readCell_upsert_other by (left; exact Hne).
    rewrite readCell_upsert. cbn [fst]. apply BigInt_toString.
  - rewrite readCell_upsert. cbn [fst]. apply BigInt_toString.
Qed.

Lemma transferUpdate_self (token : TokenConfig) (e : Event TransferEvent.t)
    (t : gmap string MetricsRow) (s : Z) :
  TransferEvent.from (args e) <> zeroAddress ->
  TransferEvent.to (args e) = TransferEvent.from (args e) ->
  Js.BigInt (fst (readCell t (TransferEvent.from (args e)) (symbol token))) = Some s ->
  Js.BigInt (fst (readCell (transferUpdate token e t) (TransferEvent.from (args e))
                    (symbol token)))
  = Some (s + TransferEvent.amount (args e)).
Proof.
  intros Hfrom Hself Hs. unfold transferUpdate. cbv zeta.
  rewrite Hself, (eqb_zero_false _ Hfrom), Hs, readCell_upsert.
  cbn [fst]. apply BigInt_toString.
Qed.

(** C10. [storeEvent] never throws, so the balance update of a
    LiquidateBorrow or Transfer callback runs whatever became of the log
    insert: once [storeEvent] is over, and if the storage works from there
    on, the balance table is updated as [liquidationUpdate] and
    [transferUpdate] say, whether the row was inserted, rejected as a
    duplicate or lost to a storage failure.  Over a reliable storage, once
    such an event was processed its key is in the log; processing it again
    adds no row and applies the same update to the table the first delivery
    left.  In numbers, for stored amounts that are readable: a liquidation
    subtracts the repaid amount twice (from zero on the second delivery when
    the borrower had no pair); a transfer from the zero address credits the
    receiver twice; a transfer to the zero address debits the sender twice;
    an ordinary transfer debits the sender twice and credits the receiver
    twice, and credits twice an address that sends to itself; every debit
    stops at zero. *)
Theorem replay_reapplies_delta (token : TokenConfig) (w : World) :
  storageReliable w ->
  (forall (event : IndexedEvent.t) (w0 : World), outcome (storeEvent event) w0 = inr tt)
  /\ (forall (e : Event LiquidateBorrowEvent.t) (w0 : World),
        storageReliable (exec (storeEvent (indexedLiquidateBorrow token e)) w0) ->
        userMetrics (exec (onLiquidateBorrow token e) w0)
        = liquidationUpdate token e (userMetrics w0))
  /\ (forall (e : Event TransferEvent.t) (w0 : World),
        storageReliable (exec (storeEvent (indexedTransfer token e)) w0) ->
        userMetrics (exec (onTransfer token e) w0) = transferUpdate token e (userMetrics w0))
  /\ (forall e : Event LiquidateBorrowEvent.t,
        let w1 := exec (onLiquidateBorrow token e) w in
        let w2 := exec (onLiquidateBorrow token e) w1 in
        let borrower := LiquidateBorrowEvent.borrower (args e) in
        let r := LiquidateBorrowEvent.repayAmount (args e) in
        has_tx (txId (transaction_hash e) (log_logIndex e)) (userTransactions w1) = true
        /\ userTransactions w2 = userTransactions w1
        /\ userMetrics w1 = liquidationUpdate token e (userMetrics w)
        /\ userMetrics w2 = liquidationUpdate token e (userMetrics w1)
        /\ (forall (supplied borrowed : string) (c : Z),
              tokenArrayOf (userMetrics w !! borrower) (symbol token)
                = Some (supplied, borrowed) ->
              Js.BigInt borrowed = Some c ->
              amountBorrowed w1 borrower (symbol token) = Some (c - r)
              /\ amountBorrowed w2 borrower (symbol token) = Some (c - r - r))
        /\ (tokenArrayOf (userMetrics w !! borrower) (symbol token) = None ->
            amountBorrowed w1 borrower (symbol token) = Some 0
            /\ amountBorrowed w2 borrower (symbol token) = Some (0 - r)))
  /\ (forall e : Event TransferEvent.t,
        let w1 := exec (onTransfer token e) w in
        let w2 := exec (onTransfer token e) w1 in
        let from := TransferEvent.from (args e) in
        let to := TransferEvent.to (args e) in
        let a := TransferEvent.amount (args e) in
        has_tx (txId (transaction_hash e) (log_logIndex e)) (userTransactions w1) = true
        /\ userTransactions w2 = userTransactions w1
        /\ userMetrics w1 = transferUpdate token e (userMetrics w)
        /\ userMetrics w2 = transferUpdate token e (userMetrics w1)
        /\ (forall s, from = zeroAddress ->
              amountSupplied w to (symbol token) = Some s ->
              amountSupplied w1 to (symbol token) = Some (s + a)
              /\ amountSupplied w2 to (symbol token) = Some (s + a + a))
        /\ (forall s, from <> zeroAddress -> to = zeroAddress ->
              amountSupplied w from (symbol token) = Some s ->
              amountSupplied w1 from (symbol token) = Some (debited s a)
              /\ amountSupplied w2 from (symbol token) = Some (debited (debited s a) a))
        /\ (forall sFrom sTo, from <> zeroAddress -> to <> zeroAddress -> from <> to ->
              amountSupplied w from (symbol token) = Some sFrom ->
              amountSupplied w to (symbol token) = Some sTo ->
              amountSupplied w1 from (symbol token) = Some (debited sFrom a)
              /\ amountSupplied w2 from (symbol token) = Some (debited (debited sFrom a) a)
              /\ amountSupplied w1 to (symbol token) = Some (sTo + a)
              /\ amountSupplied w2 to (symbol token) = Some (sTo + a + a))
        /\ (forall s, from <> zeroAddress -> to = from ->
              amountSupplied w from (symbol token) = Some s ->
              amountSupplied w1 from (symbol token) = Some (s + a)
              /\ amountSupplied w2 from (symbol token) = Some (s + a + a))).
Proof.
  intros H.
  split; [exact storeEvent_returns|].
  split; [exact (onLiquidateBorrow_update token)|].
  split; [exact (onTransfer_update token)|].
  split.
  - intros e w1 w2 borrower r.
    assert (Hrel1 : storageReliable w1)
      by (apply (handle_reliable token (EvLiquidateBorrow e)), H).
    assert (Hm1 : userMetrics w1 = liquidationUpdate token e (userMetrics w))
      by (apply onLiquidateBorrow_update, storeEvent_reliable, H).
    assert (Hm2 : userMetrics w2 = liquidationUpdate token e (userMetrics w1))
      by (apply onLiquidateBorrow_update, storeEvent_reliable, Hrel1).
    destruct (storeEvent_again (indexedLiquidateBorrow token e) w w1 H
                (proj1 (delta_log_from_storeEvent token w) e)) as (Hdup & Hsame).
    split; [exact Hdup|]. split.
    { subst w2. now rewrite (proj1 (delta_log_from_storeEvent token w1) e). }
    split; [exact Hm1|]. split; [exact Hm2|].
    unfold amountBorrowed, readTokenData. rewrite Hm2, Hm1. split.
    + intros supplied borrowed c Hcell Hc.
      pose proof (liquidationUpdate_stored token e _ _ _ _ Hcell Hc) as Hcell1.
      pose proof (liquidationUpdate_stored token e _ _ _ _ Hcell1 (BigInt_toString _))
        as Hcell2.
      fold borrower r in Hcell1, Hcell2.
      rewrite (readCell_stored _ _ _ _ Hcell1), (readCell_stored _ _ _ _ Hcell2).
      cbn [snd]. rewrite !BigInt_toString. auto.
    + intros Hcell.
      pose proof (liquidationUpdate_absent token e _ Hcell) as Hcell1.
      assert (H0 : Js.BigInt "0" = Some 0) by reflexivity.
      pose proof (liquidationUpdate_stored token e _ _ _ _ Hcell1 H0) as Hcell2.
      fold borrower r in Hcell1, Hcell2.
      rewrite (readCell_stored _ _ _ _ Hcell1), (readCell_stored _ _ _ _ Hcell2).
      cbn [snd]. rewrite BigInt_toString. auto.
  - intros e w1 w2 from to a.
    assert (Hrel1 : storageReliable w1)
      by (apply (handle_reliable token (EvTransfer e)), H).
    assert (Hm1 : userMetrics w1 = transferUpdate token e (userMetrics w))
      by (apply onTransfer_update, storeEvent_reliable, H).
    assert (Hm2 : userMetrics w2 = transferUpdate token e (userMetrics w1))
      by (apply onTransfer_update, storeEvent_reliable, Hrel1).
    destruct (storeEvent_again (indexedTransfer token e) w w1 H
                (proj2 (delta_log_from_storeEvent token w) e)) as (Hdup & Hsame).
    split; [exact Hdup|]. split.
    { subst w2. now rewrite (proj2 (delta_log_from_storeEvent token w1) e). }
    split; [exact Hm1|]. split; [exact Hm2|].
    unfold amountSupplied, readTokenData. rewrite Hm2, Hm1.
    split; [|split; [|split]].
    + intros s Hfrom Hs.
      pose proof (transferUpdate_credit token e _ s Hfrom Hs) as H1.
      split; [exact H1 | exact (transferUpdate_credit token e _ _ Hfrom H1)].
    + intros s Hfrom Hto Hs.
      pose proof (transferUpdate_debit token e _ s Hfrom Hto Hs) as H1.
      split; [exact H1 | exact (transferUpdate_debit token e _ _ Hfrom Hto H1)].
    + intros sFrom sTo Hfrom Hto Hne HsF HsT.
      destruct (transferUpdate_move token e _ sFrom sTo Hfrom Hto Hne HsF HsT) as [HF1 HT1].
      destruct (transferUpdate_move token e _ _ _ Hfrom Hto Hne HF1 HT1) as [HF2 HT2].
      auto.
    + intros s Hfrom Hself Hs.
      pose proof (transferUpdate_self token e _ s Hfrom Hself Hs) as H1.
      split; [exact H1 | exact (transferUpdate_self token e _ _ Hfrom Hself H1)].
Qed.

(** After scenario A, a liquidation repaying 10 delivered twice: 60, 50, 40,
    with one row in the log for it. *)
Lemma replay_reapplies_delta_witness :
  let w1 := exec (onLiquidateBorrow DAI (liquidate 10)) afterScenarioA in
  let w2 := exec (onLiquidateBorrow DAI (liquidate 10)) w1 in
  has_tx (txId "0xa003" 1) (userTransactions w1) = true
  /\ userTransactions w2 = userTransactions w1
  /\ amountBorrowed w1 alice "DAI" = Some (60 - 10)
  /\ amountBorrowed w2 alice "DAI" = Some (60 - 10 - 10).
Proof.
  pose proof (proj1 (proj2 (proj2 (proj2 (replay_reapplies_delta DAI afterScenarioA eq_refl))))
                (liquidate 10)) as H.
  cbv zeta in H. destruct H as (Hdup & Hlog & _ & _ & Hnum & _).
  destruct (Hnum "0" "60" 60 eq_refl eq_refl) as [H1 H2].
  repeat split; assumption.
Defined.

(** [alice] holds 5; a transfer of 2 to the zero address delivered twice:
    5, 3, 1, and the log gains one row. *)
Example burn_replayed :
  let e := transfer alice zeroAddress 2 "0xb005" in
  let w1 := exec (onTransfer DAI e) aliceHolds5 in
  let w2 := exec (onTransfer DAI e) w1 in
  amountSupplied w1 alice "DAI" = Some 3
  /\ amountSupplied w2 alice "DAI" = Some 1
  /\ length (userTransactions w2) = length (userTransactions w1).
Proof. vm_compute. repeat split; reflexivity. Qed.
